(** * Afghanistan War text adventure (game.py): encounter and combat engine

    A shallow embedding of [game.py].  The game is a sequential program over
    one mutable [Player] object, the process-wide random source, the lines
    typed by the user and the text it prints.  Every function of the script
    becomes a computation of a small state-and-exception monad:

    - the player object and the console live in the threaded state;
    - [input()] at end of input raises [EOFError], and [int()] of a line
      it cannot read raises [ValueError]; nothing in the script catches
      them: the computation aborts;
    - the [while] loops are run by a fuelled iterator; each of them reads at
      least one line per iteration, so the number of pending lines plus one
      is always enough fuel (proved below).

    A double drawn by [random.random()] is kept as the rational that is its
    value; the doubles that [roll] computes and compares are those of the
    IEEE 754 specification of the Standard Library.  An interrupt from the
    keyboard is not modelled.

    The file has five parts: the program, the vocabulary of its
    specification, the proofs, the claims about the program, and further
    properties of the program. *)

From Stdlib Require Import ZArith QArith Qround List String Bool Lia SpecFloat.
Import ListNotations.
Open Scope string_scope.
Open Scope Z_scope.

Set Implicit Arguments.

(* ================================================================== *)
(** * Role and game data *)
(* ================================================================== *)

(** The keys of the [ROLES] dictionary. *)
Inductive Role : Type :=
| Soldier | Sniper | Medic | Engineer | Intelligence_Officer.

Definition role_eqb (a b : Role) : bool :=
  match a, b with
  | Soldier, Soldier | Sniper, Sniper | Medic, Medic
  | Engineer, Engineer | Intelligence_Officer, Intelligence_Officer => true
  | _, _ => false
  end.

Record RoleInfo : Type := {
  r_desc : string;
  r_inventory : list string;
  r_accuracy_bonus : Z;
  r_special : string
}.

Definition ROLES (r : Role) : RoleInfo :=
  match r with
  | Soldier =>
      {| r_desc := "All-rounder. Balanced in combat and survival.";
         r_inventory := ["Standard Rifle"; "Combat Knife"];
         r_accuracy_bonus := 0;
         r_special := "Steady: small chance to dodge incoming fire." |}
  | Sniper =>
      {| r_desc := "Long-range specialist. Very accurate at range.";
         r_inventory := ["Sniper Rifle"; "Camouflage"];
         r_accuracy_bonus := 15;
         r_special := "One-time guaranteed long-range shot (high accuracy)." |}
  | Medic =>
      {| r_desc := "Healer. Can heal themselves once per mission.";
         r_inventory := ["Pistol"; "Medical Kit"];
         r_accuracy_bonus := -5;
         r_special := "Field Heal: restore 1 HP once per mission." |}
  | Engineer =>
      {| r_desc := "Handles traps and gadgets. Can disable explosives.";
         r_inventory := ["Pistol"; "Toolkit"];
         r_accuracy_bonus := -2;
         r_special := "Disarm: chance to avoid traps and ambushes." |}
  | Intelligence_Officer =>
      {| r_desc := "Information & stealth expert. Gains intel before risky choices.";
         r_inventory := ["Silenced Pistol"; "Encrypted Radio"];
         r_accuracy_bonus := -1;
         r_special := "Intel: occasional hints about the safest route." |}
  end.

(** [list(ROLES.keys())], in insertion order. *)
Definition role_names : list Role :=
  [Soldier; Sniper; Medic; Engineer; Intelligence_Officer].

Definition ENCOUNTERS : list string :=
  ["village_checkpoint"; "mountain_pass"; "abandoned_base"; "night_raze";
   "convoy_ambush"].

(* ================================================================== *)
(** * The player object *)
(* ================================================================== *)

Record Player : Type := {
  name : string;
  role : Role;
  hp : Z;
  inventory : list string;
  accuracy_bonus : Z;
  special : string;
  mission_heals : Z;
  sniper_special_used : bool;
  alive : bool;
  missions_completed : Z
}.

(** [Player.__init__] *)
Definition Player_init (name : string) (role_name : Role) : Player :=
  let role_info := ROLES role_name in
  {| name := name;
     role := role_name;
     hp := 3;
     inventory := r_inventory role_info;
     accuracy_bonus := r_accuracy_bonus role_info;
     special := r_special role_info;
     mission_heals := if role_eqb role_name Medic then 1 else 0;
     sniper_special_used := false;
     alive := true;
     missions_completed := 0 |}.

(** Attribute assignments. *)
Definition set_hp (v : Z) (p : Player) : Player :=
  {| name := name p; role := role p; hp := v; inventory := inventory p;
     accuracy_bonus := accuracy_bonus p; special := special p;
     mission_heals := mission_heals p;
     sniper_special_used := sniper_special_used p; alive := alive p;
     missions_completed := missions_completed p |}.

Definition set_inventory (v : list string) (p : Player) : Player :=
  {| name := name p; role := role p; hp := hp p; inventory := v;
     accuracy_bonus := accuracy_bonus p; special := special p;
     mission_heals := mission_heals p;
     sniper_special_used := sniper_special_used p; alive := alive p;
     missions_completed := missions_completed p |}.

Definition set_mission_heals (v : Z) (p : Player) : Player :=
  {| name := name p; role := role p; hp := hp p; inventory := inventory p;
     accuracy_bonus := accuracy_bonus p; special := special p;
     mission_heals := v;
     sniper_special_used := sniper_special_used p; alive := alive p;
     missions_completed := missions_completed p |}.

Definition set_sniper_special_used (v : bool) (p : Player) : Player :=
  {| name := name p; role := role p; hp := hp p; inventory := inventory p;
     accuracy_bonus := accuracy_bonus p; special := special p;
     mission_heals := mission_heals p;
     sniper_special_used := v; alive := alive p;
     missions_completed := missions_completed p |}.

Definition set_alive (v : bool) (p : Player) : Player :=
  {| name := name p; role := role p; hp := hp p; inventory := inventory p;
     accuracy_bonus := accuracy_bonus p; special := special p;
     mission_heals := mission_heals p;
     sniper_special_used := sniper_special_used p; alive := v;
     missions_completed := missions_completed p |}.

Definition set_missions_completed (v : Z) (p : Player) : Player :=
  {| name := name p; role := role p; hp := hp p; inventory := inventory p;
     accuracy_bonus := accuracy_bonus p; special := special p;
     mission_heals := mission_heals p;
     sniper_special_used := sniper_special_used p; alive := alive p;
     missions_completed := v |}.

(** [item in inventory] *)
Definition has_item (item : string) (inv : list string) : bool :=
  existsb (String.eqb item) inv.

(** [inventory.remove(item)]: drops the first occurrence.  (Python raises
    when there is none; the script only removes an item it has just found.) *)
Fixpoint remove_item (item : string) (inv : list string) : list string :=
  match inv with
  | [] => []
  | x :: rest => if String.eqb item x then rest else x :: remove_item item rest
  end.

(* ================================================================== *)
(** * The console: random source, typed lines, printed text *)
(* ================================================================== *)

(** A line returned by [input(...).strip()]: its text, whether
    [str.isdigit()] holds of it, and what [int()] makes of it: a number, or
    nothing when [int()] raises [ValueError].  ([isdigit()] holds of some
    strings that [int()] does not read, such as the superscript digit two,
    or a numeral longer than the interpreter's limit on digits.) *)
Record line : Type := {
  text : string;
  isdigit : bool;
  number : option Z
}.

(** What the script prints.  A constant line is kept verbatim; a formatted
    line keeps the values that were formatted into it. *)
Inductive msg : Type :=
| Text (s : string)
| Prompt (s : string)                       (* written by [input(s)] *)
| Divider                                   (* "-" * 60 *)
| OptionLine (i : Z) (opt : string)         (* "  {i}. {opt}" *)
| StatusLine (n : string) (r : Role) (h : Z) (inv : list string)
| DamageLine (amount h : Z)                 (* "You take {amount} damage. HP is now {hp}." *)
| HealLine (amount h : Z)                   (* "You heal {amount} point(s). HP is now {hp}." *)
| RoleLine (i : Z) (rn : Role) (d : string) (* "{i}. {rn} — {desc}" *)
| YouAreLine (n : string) (r : Role) (d : string)
| StartingInventoryLine (inv : list string)
| SpecialLine (s : string)
| MissionTitle (encounter_id : string)      (* "Mission: {...title()}" *)
| RoundLine (rounds : Z)                    (* "--- Combat Round {rounds} ---" *)
| DealtLine (dmg enemy_hp : Z)              (* "You dealt {dmg} damage. Enemy HP: {enemy_hp}" *)
| ScavengeLine (loot : string)              (* "You scavenge: {loot}" *)
| MissionHeader (i missions : Z)            (* "=== Mission {i} of {missions} ===" *)
| StartingLine (missions : Z) (n : string)
| SummaryName (n : string)
| SummaryRole (r : Role)
| SummaryMissions (n : Z)
| SummaryFinalHP (h : Z)                    (* "Final HP: {max(0, player.hp)}" *)
| SummaryInventory (inv : list string).

(** The random source is the sequence of variates it will return, read at
    [cursor]; [lines] are the lines still to be typed; [out] is the text
    printed so far, most recent first. *)
Record console : Type := {
  rng : nat -> Q;
  cursor : nat;
  lines : list line;
  out : list msg
}.

Record world : Type := {
  player : Player;
  io : console
}.

Definition set_io (c : console) (w : world) : world :=
  {| player := player w; io := c |}.

Definition set_player (p : Player) (w : world) : world :=
  {| player := p; io := io w |}.

(* ================================================================== *)
(** * The monad *)
(* ================================================================== *)

Inductive error : Type :=
| EOFError       (* [input()] with no line left *)
| ValueError     (* [int()] of a line it cannot read *)
| IndexError     (* a list indexed outside its range *)
| OutOfFuel.     (* the loop iterator ran dry; never happens, see below *)

Inductive result (St A : Type) : Type :=
| Done (a : A) (s : St)
| Abort (e : error) (s : St).

Arguments Done {St A} a s.
Arguments Abort {St A} e s.

Definition M (St A : Type) : Type := St -> result St A.

Definition ret {St A} (a : A) : M St A := fun s => Done a s.

Definition bind {St A B} (m : M St A) (k : A -> M St B) : M St B :=
  fun s => match m s with
           | Done a s' => k a s'
           | Abort e s' => Abort e s'
           end.

Definition abort {St A} (e : error) : M St A := fun s => Abort e s.

Definition gets {St A} (f : St -> A) : M St A := fun s => Done (f s) s.

Definition modify {St} (f : St -> St) : M St unit := fun s => Done tt (f s).

Declare Scope monad_scope.
Delimit Scope monad_scope with monad.
Notation "x <- m ;; k" := (bind m (fun x => k))
  (at level 61, m at next level, right associativity) : monad_scope.
Notation "' pat <- m ;; k" := (bind m (fun x => match x with pat => k end))
  (at level 61, pat pattern, m at next level, right associativity) : monad_scope.
Notation "m ;; k" := (bind m (fun _ => k))
  (at level 61, right associativity) : monad_scope.
Open Scope monad_scope.

(** The state reached by a computation, however it ended. *)
Definition final {St A} (r : result St A) : St :=
  match r with Done _ s => s | Abort _ s => s end.

(** Python's [a and m()] / [a or m()]: the right operand runs only when
    needed. *)
Definition and_then {St} (a : bool) (m : M St bool) : M St bool :=
  if a then m else ret false.

Definition or_else {St} (a : bool) (m : M St bool) : M St bool :=
  if a then ret true else m.

(** [while True: ...]: [body] answers [inl a'] to go round again and
    [inr b] to leave with [b]. *)
Fixpoint iterate {St A B} (fuel : nat) (body : A -> M St (A + B)) (a : A)
  : M St B :=
  match fuel with
  | O => abort OutOfFuel
  | S fuel' =>
      r <- body a ;;
      match r with
      | inl a' => iterate fuel' body a'
      | inr b => ret b
      end
  end.

(* ================================================================== *)
(** * Utility helpers *)
(* ================================================================== *)

(** The helpers are used both before the player exists (in [main]) and
    afterwards; they work on any state that holds a console. *)
Class Console (St : Type) : Type := {
  get_io : St -> console;
  put_io : console -> St -> St
}.

#[export] Instance console_Console : Console console :=
  {| get_io := fun c => c; put_io := fun c _ => c |}.

#[export] Instance world_Console : Console world :=
  {| get_io := io; put_io := set_io |}.

Definition print (m : msg) (c : console) : console :=
  {| rng := rng c; cursor := cursor c; lines := lines c; out := m :: out c |}.

Definition advance (c : console) : console :=
  {| rng := rng c; cursor := S (cursor c); lines := lines c; out := out c |}.

Definition set_lines (ls : list line) (c : console) : console :=
  {| rng := rng c; cursor := cursor c; lines := ls; out := out c |}.

(** [x < y] on rationals, as a boolean. *)
Definition Qltb (x y : Q) : bool :=
  (Qnum x * QDen y <? Qnum y * QDen x)%Z.

(** Doubles: binary64 of IEEE 754. *)
Definition prec : Z := 53.
Definition emax : Z := 1024.

(** [float(n)] of an integer [n], rounded to the nearest double.  (For an
    integer of magnitude 2^1024 or more this is an infinity, where Python
    raises [OverflowError]; the percentages of the script are made of small
    constants and a difficulty of 1, 2 or 3.) *)
Definition float_of_int (n : Z) : spec_float :=
  binary_normalize prec emax n 0 false.

(** [pct / 100.0] *)
Definition percent (pct : Z) : spec_float :=
  SFdiv prec emax (float_of_int pct) (float_of_int 100).

(** The value of the finite double with sign [s], mantissa [m] and
    exponent [e]. *)
Definition value (s : bool) (m : positive) (e : Z) : Q :=
  let n := if s then Zneg m else Zpos m in
  if 0 <=? e then inject_Z (n * 2 ^ e) else n # Z.to_pos (2 ^ (- e)).

(** [u < x] for a variate [u], given by its value, and a double [x]. *)
Definition below (u : Q) (x : spec_float) : bool :=
  match x with
  | S754_zero _ => Qltb u 0
  | S754_infinity s => negb s
  | S754_nan => false
  | S754_finite s m e => Qltb u (value s m e)
  end.

Section Helpers.
Context {St : Type} `{Console St}.

(** [slow_print]: the pacing is not modelled, the text is. *)
Definition slow_print (m : msg) : M St unit :=
  modify (fun s => put_io (print m (get_io s)) s).

Definition divider : M St unit := slow_print Divider.

(** [random.random()]: the next variate of the source. *)
Definition random_random : M St Q :=
  fun s => let c := get_io s in
           Done (rng c (cursor c)) (put_io (advance c) s).

(** [roll(pct)]: [random.random() < (pct / 100.0)], a comparison of
    doubles. *)
Definition roll (pct : Z) : M St bool :=
  u <- random_random ;;
  ret (below u (percent pct)).

(** [random.choice(seq)]: one variate, scaled to an index of [seq].  (The
    index is in range whenever the variate is in [0, 1); Python raises
    [IndexError] on an index out of range.) *)
Definition random_choice {A} (seq : list A) : M St A :=
  u <- random_random ;;
  match nth_error seq (Z.to_nat (Qfloor (u * inject_Z (Z.of_nat (List.length seq))))) with
  | Some x => ret x
  | None => abort IndexError
  end.

(** [random.randint(a, b)]: one variate, scaled to [a..b]. *)
Definition random_randint (a b : Z) : M St Z :=
  u <- random_random ;;
  ret (a + Qfloor (u * inject_Z (b - a + 1))).

(** [input(prompt).strip()] *)
Definition input (prompt : string) : M St line :=
  fun s => let s := put_io (print (Prompt prompt) (get_io s)) s in
           match lines (get_io s) with
           | [] => Abort EOFError s
           | l :: rest => Done l (put_io (set_lines rest (get_io s)) s)
           end.

(** Enough fuel for a loop that reads a line each time round. *)
Definition pending : M St nat :=
  gets (fun s => S (List.length (lines (get_io s)))).

(** [for i, x in enumerate(xs, i): slow_print(f i x)] *)
Fixpoint print_enumerated {A} (f : Z -> A -> msg) (i : Z) (xs : list A)
  : M St unit :=
  match xs with
  | [] => ret tt
  | x :: rest => slow_print (f i x) ;; print_enumerated f (i + 1) rest
  end.

(** [int(choice)] *)
Definition int (choice : line) : M St Z :=
  match number choice with
  | Some n => ret n
  | None => abort ValueError
  end.

(** [choice.isdigit() and 1 <= int(choice) <= n]: answers the number when
    the test holds.  [int] is called only if [isdigit()] holds. *)
Definition valid_number (choice : line) (n : Z) : M St (option Z) :=
  if isdigit choice then
    idx <- int choice ;;
    ret (if (1 <=? idx) && (idx <=? n) then Some idx else None)
  else ret None.

(** [choose(prompt, options)] *)
Definition choose (prompt : string) (options : list string) : M St Z :=
  fuel <- pending ;;
  iterate fuel (fun _ : unit =>
    slow_print (Text prompt) ;;
    print_enumerated OptionLine 1 options ;;
    choice <- input "> " ;;
    valid <- valid_number choice (Z.of_nat (List.length options)) ;;
    match valid with
    | Some idx => ret (inr (idx - 1))
    | None =>
        slow_print (Text "Please enter a valid option number.") ;;
        ret (inl tt)
    end) tt.
End Helpers.

(* ================================================================== *)
(** * Player methods *)
(* ================================================================== *)

Definition get_player : M world Player := gets player.

Definition update_player (f : Player -> Player) : M world unit :=
  modify (fun w => set_player (f (player w)) w).

(** [Player.show_status] *)
Definition show_status : M world unit :=
  p <- get_player ;;
  slow_print (StatusLine (name p) (role p) (hp p) (inventory p)).

(** [Player.take_damage] *)
Definition take_damage (amount : Z) : M world unit :=
  update_player (fun p => set_hp (hp p - amount) p) ;;
  p <- get_player ;;
  slow_print (DamageLine amount (hp p)) ;;
  if hp p <=? 0 then update_player (set_alive false) else ret tt.

(** [Player.heal] *)
Definition heal (amount : Z) : M world unit :=
  update_player (fun p => set_hp (Z.min 3 (hp p + amount)) p) ;;
  p <- get_player ;;
  slow_print (HealLine amount (hp p)).

(** [player.inventory.append(item)] *)
Definition inventory_append (item : string) : M world unit :=
  update_player (fun p => set_inventory (inventory p ++ [item])%list p).

(* ================================================================== *)
(** * Combat system *)
(* ================================================================== *)

Definition actions : list string :=
  ["Shoot left"; "Shoot center"; "Shoot right";
   "Take cover"; "Attempt to flee"; "Use special/item"].

(** How one pass through the body of the combat loop ends: the function
    returns, or the loop goes round again with the new [enemy_hp]. *)
Inductive round_end : Type :=
| Return (survived : bool)
| Next (enemy_hp : Z).

(** Action 5, the [if / elif] chain: answers [(used, enemy_hp)]. *)
Definition use_special (enemy_hp : Z) : M world (bool * Z) :=
  p <- get_player ;;
  if role_eqb (role p) Medic && (mission_heals p >? 0) then
    slow_print (Text "You use your medical kit to heal yourself mid-fight.") ;;
    heal 1 ;;
    update_player (fun p => set_mission_heals (mission_heals p - 1) p) ;;
    ret (true, enemy_hp)
  else if role_eqb (role p) Sniper && negb (sniper_special_used p) then
    slow_print (Text "You steady your breath and land a perfect headshot.") ;;
    update_player (set_sniper_special_used true) ;;
    ret (true, 0)
  else if has_item "Med Pack" (inventory p) then
    slow_print (Text "You quickly use a Med Pack.") ;;
    heal 1 ;;
    update_player (fun p => set_inventory (remove_item "Med Pack" (inventory p)) p) ;;
    ret (true, enemy_hp)
  else
    burst <- and_then (has_item "Assault Rifle" (inventory p)) (roll 60) ;;
    if burst then
      slow_print (Text "You fire a controlled burst with your upgraded rifle!") ;;
      ret (true, 0)
    else ret (false, enemy_hp).

(** [base_hit_chance] as the shooting code computes it. *)
Definition base_hit_chance (accuracy_bonus difficulty action : Z) : Z :=
  let base := 50 + accuracy_bonus - difficulty * 5 in
  if action =? 1 then base + 5
  else if action =? 0 then base - 5
  else if action =? 2 then base - 2
  else base.

(** The enemy counterattack that closes a shooting round. *)
Definition enemy_counterattack (difficulty enemy_hp : Z) : M world round_end :=
  if enemy_hp >? 0 then
    let enemy_acc := 40 + difficulty * 15 in
    p <- get_player ;;
    duck <- and_then (role_eqb (role p) Soldier) (roll 20) ;;
    if duck then
      slow_print (Text "You duck just in time — no damage taken.") ;;
      ret (Next enemy_hp)
    else
      hit <- roll enemy_acc ;;
      if hit then
        headshot <- roll 3 ;;
        if headshot then
          slow_print (Text "Critical hit! A lethal headshot ends it instantly.") ;;
          update_player (set_alive false) ;;
          ret (Return false)
        else
          slow_print (Text "Enemy bullet hits you.") ;;
          take_damage 1 ;;
          ret (Next enemy_hp)
      else
        slow_print (Text "Enemy misses their shot.") ;;
        ret (Next enemy_hp)
  else ret (Next enemy_hp).

(** The code after the special/item block: take cover (action 3), or else
    the shooting logic followed by the enemy counterattack. *)
Definition cover_or_shoot (difficulty action enemy_hp : Z) : M world round_end :=
  if action =? 3 then
    slow_print (Text "You dive behind cover.") ;;
    hit <- roll (20 + difficulty * 10) ;;
    enemy_hp <- (if hit then
                   slow_print (Text "You return fire from cover and hit the enemy!") ;;
                   ret (enemy_hp - 1)
                 else ret enemy_hp) ;;
    grazed <- roll (30 + difficulty * 20) ;;
    (if grazed then
       slow_print (Text "Enemy lands a glancing shot through cover.") ;;
       take_damage 1
     else ret tt) ;;
    ret (Next enemy_hp)
  else
    p <- get_player ;;
    let chance := base_hit_chance (accuracy_bonus p) difficulty action in
    hit <- roll (Z.max 5 (Z.min 95 chance)) ;;
    enemy_hp <- (if hit then
                   slow_print (Text "You hit your target!") ;;
                   p <- get_player ;;
                   double <- and_then (has_item "Assault Rifle" (inventory p)) (roll 40) ;;
                   let dmg := if double then 2 else 1 in
                   let enemy_hp := enemy_hp - dmg in
                   slow_print (DealtLine dmg enemy_hp) ;;
                   ret enemy_hp
                 else
                   slow_print (Text "You miss your shot.") ;;
                   ret enemy_hp) ;;
    enemy_counterattack difficulty enemy_hp.

(** One pass through the body of [while enemy_hp > 0 and player.alive]. *)
Definition combat_round (difficulty enemy_hp rounds : Z) : M world round_end :=
  slow_print (RoundLine rounds) ;;
  show_status ;;
  action <- choose "Your move:" actions ;;
  if action =? 4 then
    fled <- roll (30 - difficulty * 5) ;;
    if fled then
      slow_print (Text "You successfully retreat from the fight.") ;;
      ret (Return true)
    else
      slow_print (Text "Failed to flee! You’re caught in the open!") ;;
      shot <- roll (10 + difficulty * 10) ;;
      (if shot then
         slow_print (Text "Enemy fires a critical shot while you escape!") ;;
         take_damage 1
       else ret tt) ;;
      ret (Next enemy_hp)
  else if action =? 5 then
    '(used, enemy_hp) <- use_special enemy_hp ;;
    if used then
      retaliates <- and_then (enemy_hp >? 0) (roll (40 + difficulty * 10)) ;;
      (if retaliates then
         slow_print (Text "Enemy retaliates before going down!") ;;
         take_damage 1
       else ret tt) ;;
      ret (Next enemy_hp)
    else
      slow_print (Text "No useful action taken — enemy fires!") ;;
      cover_or_shoot difficulty action enemy_hp
  else cover_or_shoot difficulty action enemy_hp.

(** The code after the loop. *)
Definition post_combat (difficulty : Z) : M world bool :=
  p <- get_player ;;
  if alive p then
    slow_print (Text "Enemy neutralized. You survived the battle.") ;;
    lucky <- roll (50 + difficulty * 10) ;;
    (if lucky then
       loot <- random_choice
                 ["Ammo"; "Med Pack"; "Intel Documents"; "Assault Rifle"; "Rations"] ;;
       slow_print (ScavengeLine loot) ;;
       inventory_append loot
     else ret tt) ;;
    ret true
  else ret false.

(** The [while] loop with the code that follows it; the loop state is
    [(enemy_hp, rounds)]. *)
Definition combat_loop (difficulty : Z) (st : Z * Z) : M world (Z * Z + bool) :=
  let '(enemy_hp, rounds) := st in
  p <- get_player ;;
  if (enemy_hp >? 0) && alive p then
    let rounds := rounds + 1 in
    r <- combat_round difficulty enemy_hp rounds ;;
    match r with
    | Return b => ret (inr b)
    | Next enemy_hp => ret (inl (enemy_hp, rounds))
    end
  else
    b <- post_combat difficulty ;;
    ret (inr b).

(** [combat_encounter(player, difficulty)] *)
Definition combat_encounter (difficulty : Z) : M world bool :=
  divider ;;
  slow_print (Text "⚔️ Combat initiated!") ;;
  headshot <- roll 10 ;;
  if headshot then
    slow_print (Text "A single, well-placed shot ends everything. Instant fatality.") ;;
    update_player (set_alive false) ;;
    ret false
  else
    let enemy_hp := difficulty in
    let rounds := 0 in
    fuel <- pending ;;
    iterate fuel (combat_loop difficulty) (enemy_hp, rounds).

(* ================================================================== *)
(** * Individual encounters *)
(* ================================================================== *)

Definition village_checkpoint : M world bool :=
  slow_print (Text "You approach a small village checkpoint controlled by local militia.") ;;
  let opts := ["Try to talk your way through (stealth or diplomacy).";
               "Take the fields around the checkpoint (possible ambush).";
               "Force entry with weapons (high risk)."] in
  choice <- choose "How do you proceed?" opts ;;
  if choice =? 0 then
    p <- get_player ;;
    ok <- or_else (role_eqb (role p) Intelligence_Officer) (roll 65) ;;
    if ok then
      slow_print (Text "You negotiate successfully and pass safely. You find a med pack on the ground.") ;;
      inventory_append "Med Pack" ;;
      ret true
    else
      slow_print (Text "The militia grows suspicious. Weapons are raised.") ;;
      combat_encounter 1
  else if choice =? 1 then
    slow_print (Text "You move through the tall fields — the wind hides your movement.") ;;
    ambush <- roll 40 ;;
    if ambush then
      slow_print (Text "Ambush! Hidden fighters open fire from the bushes.") ;;
      combat_encounter 2
    else
      slow_print (Text "You sneak through unnoticed and loot some spare ammo.") ;;
      inventory_append "Ammo" ;;
      ret true
  else
    slow_print (Text "You open fire and storm the checkpoint!") ;;
    combat_encounter 3.

(** In option 0 the line that followed the "sniper opens fire" message is
    part of a comment in the script: after that message control runs on to
    the ration packs. *)
Definition mountain_pass : M world bool :=
  slow_print (Text "You face a narrow mountain pass — a perfect ambush site.") ;;
  let opts := ["Move quickly and stay low.";
               "Use a drone or radio to scout ahead.";
               "Let the Engineer inspect for traps."] in
  choice <- choose "Your strategy?" opts ;;
  if choice =? 0 then
    p <- get_player ;;
    spotted <- and_then (role_eqb (role p) Sniper) (roll 50) ;;
    if spotted then
      slow_print (Text "Your sharp eyes spot movement before danger arises. You cross safely.") ;;
      ret true
    else
      fire <- roll 30 ;;
      (if fire then
         slow_print (Text "A sniper opens fire — you scramble for cover!")
       else ret tt) ;;
      slow_print (Text "You slip past quietly and find ration packs.") ;;
      inventory_append "Rations" ;;
      ret true
  else if choice =? 1 then
    p <- get_player ;;
    if has_item "Encrypted Radio" (inventory p)
       || role_eqb (role p) Intelligence_Officer then
      slow_print (Text "Your scout relays sniper positions. You avoid danger.") ;;
      ret true
    else
      slow_print (Text "No drone available. The noise alerts nearby fighters.") ;;
      combat_encounter 2
  else
    p <- get_player ;;
    disarmed <- and_then (role_eqb (role p) Engineer) (roll 70) ;;
    if disarmed then
      slow_print (Text "You successfully disarm a buried IED. Team morale rises.") ;;
      inventory_append "IED Components" ;;
      ret true
    else
      trap <- roll 40 ;;
      if trap then
        slow_print (Text "A trap triggers — partial explosion injures you.") ;;
        take_damage 1 ;;
        p <- get_player ;;
        ret (alive p)
      else
        slow_print (Text "You cautiously neutralize the traps and move forward.") ;;
        ret true.

Definition abandoned_base : M world bool :=
  slow_print (Text "You arrive at an abandoned base. Silence hides danger.") ;;
  let opts := ["Search the main building.";
               "Check perimeter and move on.";
               "Camp overnight in the base."] in
  choice <- choose "Your action?" opts ;;
  if choice =? 0 then
    cache <- roll 50 ;;
    if cache then
      slow_print (Text "You find a weapons cache — upgraded rifle acquired.") ;;
      inventory_append "Assault Rifle" ;;
      ret true
    else
      slow_print (Text "Hostile survivors emerge from the shadows!") ;;
      combat_encounter 3
  else if choice =? 1 then
    slow_print (Text "Perimeter sweep yields a few supplies.") ;;
    inventory_append "Handful of Ammo" ;;
    ret true
  else
    slow_print (Text "You camp for the night... footsteps echo nearby.") ;;
    combat_encounter 2.

Definition night_raze : M world bool :=
  slow_print (Text "Night operation: enemy compound targeted for destruction.") ;;
  let opts := ["Lead a frontal assault.";
               "Send a stealth team.";
               "Hold and wait for reinforcements."] in
  choice <- choose "Your approach?" opts ;;
  if choice =? 0 then combat_encounter 3
  else if choice =? 1 then
    p <- get_player ;;
    ok <- or_else (role_eqb (role p) Sniper
                   || role_eqb (role p) Intelligence_Officer) (roll 55) ;;
    if ok then
      slow_print (Text "Stealth team succeeds — high-value target captured.") ;;
      inventory_append "Intel Documents" ;;
      ret true
    else
      slow_print (Text "Stealth fails; firefight breaks out.") ;;
      combat_encounter 3
  else
    slow_print (Text "You wait for reinforcements under cover.") ;;
    backup <- roll 50 ;;
    if backup then
      slow_print (Text "Reinforcements arrive; mission success with minimal casualties.") ;;
      ret true
    else
      slow_print (Text "Enemies spot your position before backup arrives!") ;;
      combat_encounter 2.

Definition convoy_ambush : M world bool :=
  slow_print (Text "Your supply convoy is under ambush in a narrow valley.") ;;
  let opts := ["Rush to defend the convoy.";
               "Flank the attackers.";
               "Call in an airstrike."] in
  choice <- choose "Your decision?" opts ;;
  if choice =? 0 then combat_encounter 3
  else if choice =? 1 then
    p <- get_player ;;
    flawless <- and_then (role_eqb (role p) Soldier) (roll 60) ;;
    if flawless then
      slow_print (Text "You execute a flawless flank, neutralizing enemies.") ;;
      inventory_append "Looted Supplies" ;;
      ret true
    else
      grazed <- roll 40 ;;
      if grazed then
        slow_print (Text "Flank fails — enemy fire grazes you.") ;;
        take_damage 1 ;;
        p <- get_player ;;
        ret (alive p)
      else
        slow_print (Text "Flank works, but you sustain minor wounds.") ;;
        take_damage 1 ;;
        p <- get_player ;;
        ret (alive p)
  else
    p <- get_player ;;
    if has_item "Encrypted Radio" (inventory p)
       || role_eqb (role p) Intelligence_Officer then
      slow_print (Text "Airstrike called successfully. Enemies eliminated.") ;;
      ret true
    else
      slow_print (Text "No communication gear — failed call costs you precious time.") ;;
      combat_encounter 2.

(** [encounter_menu(player, encounter_id)] *)
Definition encounter_menu (encounter_id : string) : M world bool :=
  slow_print (MissionTitle encounter_id) ;;
  p <- get_player ;;
  hint <- and_then (role_eqb (role p) Intelligence_Officer) (roll 40) ;;
  (if hint then
     slow_print (Text "[Intel] Your recon suggests the left route may be less guarded.")
   else ret tt) ;;
  if String.eqb encounter_id "village_checkpoint" then village_checkpoint
  else if String.eqb encounter_id "mountain_pass" then mountain_pass
  else if String.eqb encounter_id "abandoned_base" then abandoned_base
  else if String.eqb encounter_id "night_raze" then night_raze
  else if String.eqb encounter_id "convoy_ambush" then convoy_ambush
  else
    slow_print (Text "Unknown mission type encountered — skipping...") ;;
    ret true.

(* ================================================================== *)
(** * Mission sequence and final resolution *)
(* ================================================================== *)

(** One pass through the body of the [for] loop of
    [play_mission_sequence]: [Some b] when the function returns [b] from
    inside the loop, [None] when the loop goes on. *)
Definition mission (i missions : Z) : M world (option bool) :=
  divider ;;
  slow_print (MissionHeader i missions) ;;
  encounter <- random_choice ENCOUNTERS ;;
  success <- encounter_menu encounter ;;
  p <- get_player ;;
  if negb (alive p) then
    slow_print (Text "You have fallen during this mission.") ;;
    ret (Some false)
  else
    returned <-
      (if success : bool then
         slow_print (Text "Mission accomplished.") ;;
         update_player (fun p => set_missions_completed (missions_completed p + 1) p) ;;
         ret false
       else
         p <- get_player ;;
         if alive p then
           slow_print (Text "Mission had complications, but you push on.") ;;
           ret false
         else ret true) ;;
    if returned : bool then ret (Some false)
    else
      p <- get_player ;;
      rest <- and_then (role_eqb (role p) Medic) (roll 30) ;;
      (if rest then
         slow_print (Text "You stabilize minor wounds during rest.") ;;
         heal 1
       else ret tt) ;;
      ret None.

(** [for i in range(i, i + n)], then [return player.alive]. *)
Fixpoint mission_loop (n : nat) (i missions : Z) : M world bool :=
  match n with
  | O => p <- get_player ;; ret (alive p)
  | S n' =>
      r <- mission i missions ;;
      match r with
      | Some b => ret b
      | None => mission_loop n' (i + 1) missions
      end
  end.

(** [play_mission_sequence(player, missions)] *)
Definition play_mission_sequence (missions : Z) : M world bool :=
  mission_loop (Z.to_nat missions) 1 missions.

(** What [final_resolution] does with the number it drew. *)
Definition resolve (roll_val : Z) : M world bool :=
  if roll_val <=? 10 then
    slow_print (Text "Tragic luck: a sudden fatal shot ends your journey.") ;;
    update_player (set_alive false) ;;
    ret false
  else if roll_val <=? 55 then
    slow_print (Text "Against the odds, you make it home safely.") ;;
    ret true
  else
    slow_print (Text "Wounds take their toll during extraction. You succumb.") ;;
    update_player (set_alive false) ;;
    ret false.

(** [final_resolution(player)] *)
Definition final_resolution : M world bool :=
  divider ;;
  slow_print (Text "All missions complete. Extraction begins...") ;;
  roll_val <- random_randint 1 100 ;;
  resolve roll_val.

(** [summary(player)] *)
Definition summary : M world unit :=
  divider ;;
  slow_print (Text "=== CAMPAIGN SUMMARY ===") ;;
  p <- get_player ;;
  slow_print (SummaryName (name p)) ;;
  slow_print (SummaryRole (role p)) ;;
  slow_print (SummaryMissions (missions_completed p)) ;;
  slow_print (SummaryFinalHP (Z.max 0 (hp p))) ;;
  slow_print (SummaryInventory (inventory p)) ;;
  (if alive p then slow_print (Text "Status: SURVIVED")
   else slow_print (Text "Status: DECEASED")) ;;
  divider ;;
  slow_print (Text "Thank you for playing Afghanistan War — Text Adventure!").

(* ================================================================== *)
(** * Game flow and main *)
(* ================================================================== *)

Section Flow.
Context {St : Type} `{Console St}.

(** [intro()] *)
Definition intro : M St unit :=
  divider ;;
  slow_print (Text "WELCOME: Afghanistan — Text War Adventure") ;;
  slow_print (Text "You will make choices, fight, loot, and try to survive the war.") ;;
  slow_print (Text "Rules snapshot:") ;;
  slow_print (Text " - You start with 3 HP. Each hit = -1 HP. 0 HP = death.") ;;
  slow_print (Text " - Each combat has a 10% chance of instant fatal headshot.") ;;
  slow_print (Text " - If you survive all missions, you may or may not make it home.") ;;
  slow_print (Text " - Choose your path carefully; every decision can save or end you.") ;;
  divider.

(** [pick_role()] *)
Definition pick_role : M St Role :=
  slow_print (Text "Choose your role:") ;;
  print_enumerated (fun i rn => RoleLine i rn (r_desc (ROLES rn))) 1 role_names ;;
  fuel <- pending ;;
  iterate fuel (fun _ : unit =>
    choice <- input "> " ;;
    valid <- valid_number choice (Z.of_nat (List.length role_names)) ;;
    match valid with
    | Some idx =>
        match nth_error role_names (Z.to_nat (idx - 1)) with
        | Some rn => ret (inr rn)
        | None => abort IndexError
        end
    | None =>
        slow_print (Text "Invalid choice. Enter the number of your desired role.") ;;
        ret (inl tt)
    end) tt.

(** The loop of [main] that asks for the number of missions. *)
Definition ask_missions : M St Z :=
  fuel <- pending ;;
  iterate fuel (fun _ : unit =>
    m_input <- input "> " ;;
    if String.eqb (text m_input) "" then ret (inr 3)
    else
      valid <- valid_number m_input 10 ;;
      match valid with
      | Some n => ret (inr n)
      | None =>
          slow_print (Text "Please enter a number between 1 and 10.") ;;
          ret (inl tt)
      end) tt.
End Flow.

(** [role_intro(player)] *)
Definition role_intro : M world unit :=
  divider ;;
  p <- get_player ;;
  slow_print (YouAreLine (name p) (role p) (r_desc (ROLES (role p)))) ;;
  slow_print (StartingInventoryLine (inventory p)) ;;
  slow_print (SpecialLine (special p)) ;;
  divider.

(** [main], from the call of [play_mission_sequence] on. *)
Definition campaign (missions : Z) : M world unit :=
  survived_missions <- play_mission_sequence missions ;;
  p <- get_player ;;
  if negb survived_missions || negb (alive p) then
    slow_print (Text "GAME OVER — you did not survive the campaign.") ;;
    summary
  else
    survived_home <- final_resolution ;;
    (if survived_home : bool then
       slow_print (Text "CONGRATULATIONS — you made it home alive!")
     else
       slow_print (Text "You did not survive the extraction. Your service is remembered.")) ;;
    summary.

(** [main], from [role_intro(player)] on: the part that runs with the
    player object. *)
Definition main_body : M world unit :=
  role_intro ;;
  slow_print (Text "How many missions would you like to attempt? (1-10 recommended, default 3)") ;;
  missions <- ask_missions ;;
  p <- get_player ;;
  slow_print (StartingLine missions (name p)) ;;
  campaign missions.

(** Runs [m] on the object [p]; the object does not outlive [main]. *)
Definition with_player {A} (p : Player) (m : M world A) : M console A :=
  fun c => match m {| player := p; io := c |} with
           | Done a w => Done a (io w)
           | Abort e w => Abort e (io w)
           end.

(** [main()] *)
Definition main : M console unit :=
  intro ;;
  l <- input "Enter your name, soldier: " ;;
  let name := if String.eqb (text l) "" then "Player" else text l in
  role <- pick_role ;;
  with_player (Player_init name role) main_body.

(** A console at program start: nothing printed yet. *)
Definition start (r : nat -> Q) (ls : list line) : console :=
  {| rng := r; cursor := 0; lines := ls; out := [] |}.

(** The line typed for the number [n]. *)
Definition digits (s : string) (n : Z) : line :=
  {| text := s; isdigit := true; number := Some n |}.

(** A random source that returns the variates of [us] in turn, then 0. *)
Definition source (us : list Q) : nat -> Q := fun n => nth n us 0%Q.

(* ================================================================== *)
(** * Specification vocabulary *)
(* ================================================================== *)

(** ** Lines of the narration that the statements below refer to *)

Definition medic_text : string :=
  "You use your medical kit to heal yourself mid-fight.".
Definition sniper_text : string :=
  "You steady your breath and land a perfect headshot.".
Definition fatal_text : string :=
  "A single, well-placed shot ends everything. Instant fatality.".
Definition combat_text : string := "⚔️ Combat initiated!".
Definition extraction_text : string :=
  "All missions complete. Extraction begins...".
Definition complications_text : string :=
  "Mission had complications, but you push on.".
Definition sniper_fire_text : string :=
  "A sniper opens fire — you scramble for cover!".
Definition no_action_text : string := "No useful action taken — enemy fires!".
Definition hit_text : string := "You hit your target!".
Definition miss_text : string := "You miss your shot.".

Definition is_text (s : string) (m : msg) : bool :=
  match m with Text t => String.eqb t s | _ => false end.

(** How many times the constant line [s] was printed. *)
Fixpoint count_text (s : string) (o : list msg) : nat :=
  match o with
  | [] => O
  | m :: rest => (if is_text s m then 1 else 0) + count_text s rest
  end.

(** ** Sets of lines *)

(** What [choose] prints. *)
Definition chrome (prompt : string) (m : msg) : bool :=
  match m with
  | Text s => String.eqb s prompt
              || String.eqb s "Please enter a valid option number."
  | Prompt _ | OptionLine _ _ => true
  | _ => false
  end.

(** Lines that are neither the narration of a one-shot ability nor a
    display of hit points. *)
Definition quiet (m : msg) : bool :=
  match m with
  | Text s => negb (String.eqb s medic_text) && negb (String.eqb s sniper_text)
  | DamageLine _ _ | HealLine _ _ | StatusLine _ _ _ _ | SummaryFinalHP _ => false
  | _ => true
  end.

(** Lines that are never printed inside the combat loop, *)
Definition outside_round (m : msg) : bool :=
  match m with
  | Text s => existsb (String.eqb s)
                [fatal_text; combat_text; complications_text; extraction_text]
  | Divider | MissionTitle _ | MissionHeader _ _ | SummaryFinalHP _ => true
  | _ => false
  end.

(** ... by an encounter, *)
Definition outside_encounter (m : msg) : bool :=
  match m with
  | Text s => existsb (String.eqb s) [complications_text; extraction_text]
  | MissionHeader _ _ | SummaryFinalHP _ => true
  | _ => false
  end.

(** ... by the mission sequence. *)
Definition outside_missions (m : msg) : bool :=
  match m with
  | Text s => existsb (String.eqb s) [extraction_text]
  | SummaryFinalHP _ => true
  | _ => false
  end.

Definition everything (m : msg) : bool := true.
Definition all_but (s : string) (m : msg) : bool := negb (is_text s m).

(** ** Properties kept by every step *)

(** [stable P m]: running [m] from a state in [P] ends, however it ends,
    in a state in [P]. *)
Definition stable {St A} (P : St -> Prop) (m : M St A) : Prop :=
  forall s, P s -> P (final (m s)).

(** [P] is kept by whatever the console helpers do, as long as they print
    lines of [V] only. *)
Record console_closed {St} `{Console St} (V : msg -> bool) (P : St -> Prop)
  : Prop := {
  cc_print : forall m s, V m = true -> P s -> P (put_io (print m (get_io s)) s);
  cc_advance : forall s, P s -> P (put_io (advance (get_io s)) s);
  cc_lines : forall s l rest, lines (get_io s) = l :: rest ->
             P s -> P (put_io (set_lines rest (get_io s)) s)
}.

(** [P] is kept by every assignment the encounters make to the player: any
    new [hp] or inventory, one heal charge less, the sniper shot marked
    used, [alive] cleared; *)
Record player_closed (P : world -> Prop) : Prop := {
  pc_hp : forall v w, P w -> P (set_player (set_hp v (player w)) w);
  pc_inventory : forall v w, P w -> P (set_player (set_inventory v (player w)) w);
  pc_heal_spent : forall w, P w ->
    P (set_player (set_mission_heals (mission_heals (player w) - 1) (player w)) w);
  pc_shot_used : forall w, P w ->
    P (set_player (set_sniper_special_used true (player w)) w);
  pc_dead : forall w, P w -> P (set_player (set_alive false (player w)) w)
}.

(** ... and by a new count of completed missions. *)
Definition completed_closed (P : world -> Prop) : Prop :=
  forall v w, P w -> P (set_player (set_missions_completed v (player w)) w).

(** Nothing is given back: dead stays dead, heal charges do not grow, a
    used sniper shot stays used. *)
Definition no_return (w0 w : world) : Prop :=
  Bool.le (alive (player w)) (alive (player w0)) /\
  mission_heals (player w) <= mission_heals (player w0) /\
  Bool.le (sniper_special_used (player w0)) (sniper_special_used (player w)).

Definition printed_times (s : string) (n : nat) (w : world) : Prop :=
  count_text s (out (io w)) = n.

Definition completed_is (k : Z) (w : world) : Prop :=
  missions_completed (player w) = k.

(** ** Weakest preconditions *)

(** [wp m Q E s]: run from [s], [m] returns a value and a state in [Q], or
    aborts with an error and a state in [E]. *)
Definition wp {St A} (m : M St A) (Q : A -> St -> Prop) (E : error -> St -> Prop)
  (s : St) : Prop :=
  match m s with
  | Done a s' => Q a s'
  | Abort e s' => E e s'
  end.

(** Which answers of the game's functions mean that the function returns
    [False]. *)
Definition lost_round (r : round_end) : bool :=
  match r with Return false => true | _ => false end.
Definition lost_loop (r : Z * Z + bool) : bool :=
  match r with inr false => true | _ => false end.

(** [m] answers "lost" only with the player dead. *)
Definition fails_dead {A} (lost : A -> bool) (m : M world A) : Prop :=
  forall w, wp m (fun a w' => lost a = true -> alive (player w') = false)
               (fun _ _ => True) w.

(** The functions that resolve an encounter. *)
Inductive resolver : M world bool -> Prop :=
| resolver_combat d : resolver (combat_encounter d)
| resolver_village_checkpoint : resolver village_checkpoint
| resolver_mountain_pass : resolver mountain_pass
| resolver_abandoned_base : resolver abandoned_base
| resolver_night_raze : resolver night_raze
| resolver_convoy_ambush : resolver convoy_ambush
| resolver_menu e : resolver (encounter_menu e).

(** ** The invariant of a run *)

(** A printed line that shows hit points shows a value from 0 to 3, and a
    damage line reports a loss of exactly 1. *)
Definition hp_line_ok (m : msg) : Prop :=
  match m with
  | DamageLine amount h => amount = 1 /\ 0 <= h <= 3
  | HealLine _ h | StatusLine _ _ h _ | SummaryFinalHP h => 0 <= h <= 3
  | _ => True
  end.

Definition Inv (w : world) : Prop :=
  let p := player w in
  let o := out (io w) in
  0 <= hp p <= 3 /\
  (alive p = true -> 1 <= hp p) /\
  0 <= mission_heals p /\
  Z.of_nat (count_text medic_text o) + mission_heals p <= 1 /\
  Z.of_nat (count_text sniper_text o) <= (if sniper_special_used p then 1 else 0) /\
  Forall hp_line_ok o.

(** The invariant, for what is printed before the player exists. *)
Definition Inv_console (c : console) : Prop :=
  count_text medic_text (out c) = O /\
  count_text sniper_text (out c) = O /\
  Forall hp_line_ok (out c).

(** What the invariant says of the printed text alone. *)
Definition log_ok (o : list msg) : Prop :=
  (count_text medic_text o <= 1)%nat /\
  (count_text sniper_text o <= 1)%nat /\
  Forall hp_line_ok o.

Definition living (w : world) : Prop := alive (player w) = true.
Definition anyhow (w : world) : Prop := True.

(** [m], run under the invariant (and [pre]), keeps it (and gives [post]). *)
Definition keeps {A} (pre : world -> Prop) (m : M world A)
  (post : A -> world -> Prop) : Prop :=
  forall w, Inv w -> pre w ->
    wp m (fun a w' => Inv w' /\ post a w') (fun _ w' => Inv w') w.

(** ** Termination *)

(** The variates of a random source lie in [0, 1). *)
Definition well_formed (r : nat -> Q) : Prop := forall n, (0 <= r n /\ r n < 1)%Q.

(** What can stop the game: the end of the input, or a typed line that
    [int()] does not read. *)
Definition from_input (e : error) : Prop := e = EOFError \/ e = ValueError.

(** [m] ends (unless the input stops it first), leaves the random source in
    place and reads at least [n a] lines before it answers [a]. *)
Definition total {St A} `{Console St} (n : A -> nat) (m : M St A) : Prop :=
  forall s, well_formed (rng (get_io s)) ->
    wp m (fun a s' => rng (get_io s') = rng (get_io s) /\
                      (List.length (lines (get_io s')) + n a
                       <= List.length (lines (get_io s)))%nat)
         (fun e _ => from_input e) s.

Definition none {A} (a : A) : nat := O.
Definition one {A} (a : A) : nat := 1%nat.
Definition one_more {A B} (r : A + B) : nat :=
  match r with inl _ => 1%nat | inr _ => O end.

(** ** Worlds and outcomes used in the statements *)

(** The outcome of [roll(pct)] at the next variate of [w]. *)
Definition next_roll (pct : Z) (w : world) : bool :=
  below (rng (io w) (cursor (io w))) (percent pct).

(** A player just created, at program start. *)
Definition fresh (n : string) (r : Role) (rs : nat -> Q) (ls : list line) : world :=
  {| player := Player_init n r; io := start rs ls |}.

(** A fresh soldier in front of the mountain pass: types 1, and the first
    variate is 0.125. *)
Definition at_the_pass : world :=
  fresh "Alex" Soldier (source [1 # 8]) [digits "1" 1].

(** A fresh soldier in a combat: types 6 (special / item), then 2 (shoot
    center); the variates are 0.5, 0, 0, 0 and 127/128. *)
Definition in_a_combat : world :=
  fresh "Alex" Soldier (source [1 # 2; 0; 0; 0; 127 # 128]%Q)
    [digits "6" 6; digits "2" 2].

(** A fresh soldier entering a combat whose first variate is 0. *)
Definition under_fire : world := fresh "Alex" Soldier (source [0%Q]) [].

(** A medic who has already been killed. *)
Definition fallen : world :=
  {| player := set_alive false (Player_init "Alex" Medic);
     io := start (source [1 # 2; 1 # 2; 1 # 2; 1 # 2]) [digits "1" 1; digits "2" 2] |}.

(** The world after the two opening lines of a combat and its first roll. *)
Definition combat_opened (w : world) : world :=
  set_io (advance (print (Text combat_text) (print Divider (io w)))) w.

(** The world after the instant-fatal headshot. *)
Definition shot_dead (w : world) : world :=
  set_player (set_alive false (player w))
    (set_io (print (Text fatal_text) (io (combat_opened w))) (combat_opened w)).

(** The world in which [final_resolution] draws its number. *)
Definition extraction_begun (w : world) : world :=
  set_io (advance (print (Text extraction_text) (print Divider (io w)))) w.

(** How a run that reached extraction ends. *)
Inductive ending : Type := InstantDeath | SafeReturn | InjuryDeath.

(** The ending [final_resolution] gives for the number [roll_val], read off
    what it returns and the line it prints. *)
Definition ending_of (roll_val : Z) (w : world) : option ending :=
  match resolve roll_val w with
  | Done survived w' =>
      match out (io w'), survived with
      | Text s :: _, false =>
          if String.eqb s "Tragic luck: a sudden fatal shot ends your journey."
          then Some InstantDeath
          else if String.eqb s "Wounds take their toll during extraction. You succumb."
          then Some InjuryDeath else None
      | Text s :: _, true =>
          if String.eqb s "Against the odds, you make it home safely."
          then Some SafeReturn else None
      | _, _ => None
      end
  | Abort _ _ => None
  end.

(** The numbers [a, a+1, ..., a+n-1]. *)
Definition numbers (a : Z) (n : nat) : list Z :=
  map (fun i => a + Z.of_nat i) (seq 0 n).

(** ** Reading input: the first line that is accepted *)

(** What a loop that reads a number makes of a typed line: it takes the
    line and answers, it drops the line and asks again, or [int()] fails
    on it. *)
Inductive answer (A : Type) : Type :=
| Taken (a : A)
| Dropped
| Unread.

Arguments Taken {A} a.
Arguments Dropped {A}.
Arguments Unread {A}.

(** [l.isdigit() and 1 <= int(l) <= n], line by line. *)
Definition number_in (n : Z) (l : line) : answer Z :=
  if isdigit l then
    match number l with
    | Some idx => if (1 <=? idx) && (idx <=? n) then Taken idx else Dropped
    | None => Unread
    end
  else Dropped.

(** The first line of [ls] that is taken, with the lines after it, if the
    lines before it are all dropped. *)
Fixpoint first_accepted {A} (accept : line -> answer A) (ls : list line)
  : option (A * list line) :=
  match ls with
  | [] => None
  | l :: rest =>
      match accept l with
      | Taken a => Some (a, rest)
      | Dropped => first_accepted accept rest
      | Unread => None
      end
  end.

(** Otherwise: the error that ends the loop, and the lines left then. *)
Fixpoint gives_up {A} (accept : line -> answer A) (ls : list line)
  : error * list line :=
  match ls with
  | [] => (EOFError, [])
  | l :: rest =>
      match accept l with
      | Unread => (ValueError, rest)
      | _ => gives_up accept rest
      end
  end.

(** Nothing but the printed text and the pending lines differs. *)
Definition only_console {St} `{Console St} (same : St -> St -> Prop) (s s' : St)
  : Prop :=
  same s s' /\
  rng (get_io s') = rng (get_io s) /\
  cursor (get_io s') = cursor (get_io s).

Definition same_player (w w' : world) : Prop := player w' = player w.
Definition no_player (c c' : console) : Prop := True.

(** What a loop that reads until a line is accepted comes to. *)
Definition reads_first {St A} `{Console St} (same : St -> St -> Prop)
  (accept : line -> answer A) (m : M St A) : Prop :=
  forall s,
    match first_accepted accept (lines (get_io s)) with
    | Some (a, rest) =>
        exists s', m s = Done a s' /\ only_console same s s' /\
                   lines (get_io s') = rest
    | None =>
        exists s', m s = Abort (fst (gives_up accept (lines (get_io s)))) s' /\
                   only_console same s s' /\
                   lines (get_io s') = snd (gives_up accept (lines (get_io s)))
    end.

(** What [choose] accepts. *)
Definition choice_of (n : Z) (l : line) : answer Z :=
  match number_in n l with
  | Taken idx => Taken (idx - 1)
  | Dropped => Dropped
  | Unread => Unread
  end.

(** What [pick_role] accepts. *)
Definition role_of (l : line) : answer Role :=
  match number_in (Z.of_nat (List.length role_names)) l with
  | Taken idx =>
      match nth_error role_names (Z.to_nat (idx - 1)) with
      | Some rn => Taken rn
      | None => Dropped
      end
  | Dropped => Dropped
  | Unread => Unread
  end.

(** What the mission prompt of [main] accepts. *)
Definition missions_of (l : line) : answer Z :=
  if String.eqb (text l) "" then Taken 3 else number_in 10 l.

(** ** Lines above the encounters, and what can be picked up *)

Definition unknown_text : string := "Unknown mission type encountered — skipping...".
Definition accomplished_text : string := "Mission accomplished.".
Definition game_over_text : string := "GAME OVER — you did not survive the campaign.".
Definition congratulations_text : string := "CONGRATULATIONS — you made it home alive!".
Definition remembered_text : string :=
  "You did not survive the extraction. Your service is remembered.".
Definition survived_text : string := "Status: SURVIVED".
Definition deceased_text : string := "Status: DECEASED".

(** The lines with which [main] closes a run. *)
Definition closing_texts : list string :=
  [game_over_text; congratulations_text; remembered_text; survived_text; deceased_text].

(** The constant lines of [ss]. *)
Definition barred (ss : list string) (m : msg) : bool :=
  match m with
  | Text s => existsb (String.eqb s) ss
  | _ => false
  end.

(** Lines that are never printed by a combat or by one of the five
    encounters, *)
Definition after_encounters : list string :=
  unknown_text :: accomplished_text :: closing_texts.

(** ... by [encounter_menu], *)
Definition after_menu : list string := accomplished_text :: closing_texts.

(** ... by the mission sequence. *)
Definition after_missions : list string := unknown_text :: closing_texts.

(** The items that the encounters and the combat loot hand out. *)
Definition findable (item : string) : bool :=
  existsb (String.eqb item)
    ["Med Pack"; "Ammo"; "Rations"; "IED Components"; "Assault Rifle";
     "Handful of Ammo"; "Intel Documents"; "Looted Supplies"].

(** [P] is kept by every assignment the encounters make to the player, the
    inventory being changed in two ways only: a findable item is appended,
    or a Med Pack is removed. *)
Record gear_closed (P : world -> Prop) : Prop := {
  gc_hp : forall v w, P w -> P (set_player (set_hp v (player w)) w);
  gc_found : forall x w, findable x = true -> P w ->
    P (set_player (set_inventory (inventory (player w) ++ [x])%list (player w)) w);
  gc_pack_used : forall w, P w ->
    P (set_player (set_inventory (remove_item "Med Pack" (inventory (player w)))
                     (player w)) w);
  gc_heal_spent : forall w, P w ->
    P (set_player (set_mission_heals (mission_heals (player w) - 1) (player w)) w);
  gc_shot_used : forall w, P w ->
    P (set_player (set_sniper_special_used true (player w)) w);
  gc_dead : forall w, P w -> P (set_player (set_alive false (player w)) w)
}.

(** The items other than Med Packs, in the order of the inventory. *)
Definition lasting (inv : list string) : list string :=
  filter (fun x => negb (String.eqb x "Med Pack")) inv.

(** Since [w0] the lasting items were kept, and findable ones added. *)
Definition gear_grown (w0 w : world) : Prop :=
  exists added, lasting (inventory (player w)) =
                (lasting (inventory (player w0)) ++ added)%list /\
                forallb findable added = true.

(** Only an Intelligence Officer carries an Encrypted Radio. *)
Definition radio_with_intel (w : world) : Prop :=
  has_item "Encrypted Radio" (inventory (player w))
  = role_eqb (role (player w)) Intelligence_Officer.

(** The completed missions that were not announced. *)
Definition tally (w : world) : Z :=
  missions_completed (player w) - Z.of_nat (count_text accomplished_text (out (io w))).

(** How often each closing line was printed. *)
Definition closing (w : world) : list nat :=
  map (fun s => count_text s (out (io w))) closing_texts.

(** Since the text [o0] none of the lines [ss] was printed. *)
Definition unheard (ss : list string) (o0 : list msg) (w : world) : Prop :=
  forall s, In s ss -> count_text s (out (io w)) = count_text s o0.

Definition allowed (ss : list string) (m : msg) : bool := negb (barred ss m).

(** Between [w] and [w'] every completed mission was announced, at most [n]
    were completed, and the line of the unknown mission type was not
    printed. *)
Definition accounted (n : Z) (w w' : world) : Prop :=
  tally w' = tally w /\
  missions_completed (player w) <= missions_completed (player w')
    <= missions_completed (player w) + n /\
  count_text unknown_text (out (io w')) = count_text unknown_text (out (io w)).

(** What an answer says of the player's survival, if anything. *)
Definition of_round (r : round_end) : option bool :=
  match r with Return b => Some b | Next _ => None end.
Definition of_loop (r : Z * Z + bool) : option bool :=
  match r with inr b => Some b | inl _ => None end.
Definition unharmed {A} (a : A) : option bool := Some true.

(** Run with the player alive, [m] answers with the value of [alive]. *)
Definition tells_alive {A} (verdict : A -> option bool) (m : M world A) : Prop :=
  forall w, living w ->
    wp m (fun a w' => match verdict a with
                      | Some b => alive (player w') = b
                      | None => True
                      end)
         (fun _ _ => True) w.

(** What a risk-free option of an encounter leaves behind: the answer is
    [True], the player is as before but for the item found (if any), no
    variate was drawn and the input stands at [rest]. *)
Definition risk_free (rest : list line) (item : option string) (w : world)
  (b : bool) (w' : world) : Prop :=
  b = true /\
  player w' = match item with
              | Some x => set_inventory (inventory (player w) ++ [x])%list (player w)
              | None => player w
              end /\
  rng (io w') = rng (io w) /\ cursor (io w') = cursor (io w) /\
  lines (io w') = rest.

(** A typed line that is not a number. *)
Definition words (s : string) : line :=
  {| text := s; isdigit := false; number := None |}.

(** A whole game: the name, a line that is no role, role 1 (Soldier), one
    mission, option 1 of the encounter.  The variates 1/2, 1/4 and 1/2 draw
    the abandoned base, find the weapons cache there and bring the soldier
    home. *)
Definition a_game : console :=
  start (source [1 # 2; 1 # 4; 1 # 2])
    [words "Alex"; words "soldier"; digits "1" 1; digits "1" 1; digits "1" 1].

(** A fresh sniper in a round at difficulty 2 who types 2 (shoot center);
    the variate is the double [60 / 100.0] itself, which is less than
    3/5. *)
Definition at_the_edge : world :=
  fresh "Alex" Sniper (source [5404319552844595 # 9007199254740992]) [digits "2" 2].

(** A fresh sniper who types 6 (special / item). *)
Definition a_sniper : world := fresh "Alex" Sniper (source []) [digits "6" 6].

(** A wounded soldier who carries a Med Pack and types 6 (special / item);
    the variate is 1/2. *)
Definition with_pack : world :=
  {| player := set_inventory ["Standard Rifle"; "Med Pack"; "Combat Knife"]
                 (set_hp 1 (Player_init "Alex" Soldier));
     io := start (source [1 # 2]) [digits "6" 6] |}.

(** A fresh soldier, and a fresh sniper, who type 2. *)
Definition at_the_base : world := fresh "Alex" Soldier (source []) [digits "2" 2].
Definition at_night : world := fresh "Alex" Sniper (source []) [digits "2" 2].

(** A fresh soldier whose campaign starts at the village checkpoint: types 3
    (force entry); every variate is 0. *)
Definition at_the_checkpoint : world :=
  fresh "Alex" Soldier (source []) [digits "3" 3].

(** The value of [pct / 100.0]. *)
Definition threshold (pct : Z) : Q :=
  match percent pct with
  | S754_finite s m e => value s m e
  | _ => 0
  end.

(** The percentages 0, 1, ..., 100. *)
Definition percentages : list Z := map Z.of_nat (seq 0 101).

(** [pct / 100.0] is zero or a positive finite double, at most 2^-54 away
    from [pct / 100], *)
Definition close (pct : Z) : bool :=
  match percent pct with
  | S754_zero false | S754_finite false _ _ =>
      let exact := (inject_Z pct / inject_Z 100)%Q in
      Qle_bool (threshold pct - exact)%Q (1 # 2 ^ 54)
      && Qle_bool (exact - threshold pct)%Q (1 # 2 ^ 54)
  | _ => false
  end.

(** ... and not above the next one. *)
Definition rising (pct : Z) : bool :=
  Qle_bool (threshold pct) (threshold (pct + 1)).

(** Hit points fell by at most [down] and rose by at most [up]. *)
Definition hp_moved (down up : Z) (w w' : world) : Prop :=
  hp (player w) - down <= hp (player w') <= hp (player w) + up.

(* ================================================================== *)
(** * Proofs *)
(* ================================================================== *)

(** ** Properties that no step of the game can break

    A property closed under the primitive effects of the game is kept by
    every function of the game; the proofs follow the code. *)

Section Stable.
Context {St : Type}.
Variable P : St -> Prop.

Lemma stable_ret {A} (a : A) : stable P (ret a).
Proof. intros s Hs. exact Hs. Qed.

Lemma stable_abort {A} e : stable P (@abort St A e).
Proof. intros s Hs. exact Hs. Qed.

Lemma stable_gets {A} (f : St -> A) : stable P (gets f).
Proof. intros s Hs. exact Hs. Qed.

Lemma stable_bind {A B} (m : M St A) (k : A -> M St B) :
  stable P m -> (forall a, stable P (k a)) -> stable P (bind m k).
Proof.
  intros Hm Hk s Hs. unfold bind. specialize (Hm s Hs).
  destruct (m s) as [a s'|e s']; simpl in *; [apply Hk|]; assumption.
Qed.

Lemma stable_if {A} (b : bool) (m1 m2 : M St A) :
  stable P m1 -> stable P m2 -> stable P (if b then m1 else m2).
Proof. destruct b; auto. Qed.

Lemma stable_and_then a (m : M St bool) : stable P m -> stable P (and_then a m).
Proof. intros; apply stable_if; auto using stable_ret. Qed.

Lemma stable_or_else a (m : M St bool) : stable P m -> stable P (or_else a m).
Proof. intros; apply stable_if; auto using stable_ret. Qed.

Lemma stable_iterate {A B} (body : A -> M St (A + B)) :
  (forall a, stable P (body a)) -> forall fuel a, stable P (iterate fuel body a).
Proof.
  intros Hb fuel. induction fuel as [|fuel IH]; intros a; simpl.
  - apply stable_abort.
  - apply stable_bind; [apply Hb|]. intros [a'|b]; [apply IH|apply stable_ret].
Qed.
End Stable.

Section ConsoleStable.
Context {St : Type} `{Console St}.
Variables (V : msg -> bool) (P : St -> Prop).
Hypothesis HC : console_closed V P.

Lemma stable_slow_print m : V m = true -> stable P (slow_print m).
Proof. intros Hm s Hs. simpl. apply (cc_print HC); assumption. Qed.

Lemma stable_random_random : stable P random_random.
Proof. intros s Hs. simpl. apply (cc_advance HC); assumption. Qed.

Lemma stable_roll pct : stable P (roll pct).
Proof. apply stable_bind; [apply stable_random_random|intro; apply stable_ret]. Qed.

Lemma stable_random_choice {A} (seq : list A) : stable P (random_choice seq).
Proof.
  apply stable_bind; [apply stable_random_random|]. intro u.
  destruct (nth_error _ _); [apply stable_ret|apply stable_abort].
Qed.

Lemma stable_valid_number choice n : stable P (valid_number choice n).
Proof.
  unfold valid_number, int. destruct (isdigit choice); [|apply stable_ret].
  apply stable_bind; [|intro; apply stable_ret].
  destruct (number choice); [apply stable_ret|apply stable_abort].
Qed.

Lemma stable_random_randint a b : stable P (random_randint a b).
Proof. apply stable_bind; [apply stable_random_random|intro; apply stable_ret]. Qed.

Lemma stable_input prompt : V (Prompt prompt) = true -> stable P (input prompt).
Proof.
  intros Hv s Hs. unfold input.
  pose proof (cc_print HC _ _ Hv Hs) as H1.
  destruct (lines _) eqn:E; simpl; [assumption|].
  eapply (cc_lines HC); eassumption.
Qed.

Lemma stable_pending : stable P pending.
Proof. apply stable_gets. Qed.

Lemma stable_print_enumerated {A} (f : Z -> A -> msg) xs :
  (forall i x, V (f i x) = true) -> forall i, stable P (print_enumerated f i xs).
Proof.
  intros Hf. induction xs as [|x xs IH]; intros i; simpl.
  - apply stable_ret.
  - apply stable_bind; [apply stable_slow_print, Hf|intro; apply IH].
Qed.

Lemma stable_choose prompt options :
  (forall m, chrome prompt m = true -> V m = true) ->
  stable P (choose prompt options).
Proof.
  intros HV. apply stable_bind; [apply stable_pending|]. intro fuel.
  apply stable_iterate. intros _.
  apply stable_bind.
  { apply stable_slow_print, HV. simpl. now rewrite String.eqb_refl. }
  intros _. apply stable_bind.
  { apply stable_print_enumerated. intros; now apply HV. }
  intros _. apply stable_bind; [apply stable_input; now apply HV|].
  intro choice. apply stable_bind; [apply stable_valid_number|].
  intros [idx|]; [apply stable_ret|].
  apply stable_bind; [|intro; apply stable_ret].
  apply stable_slow_print, HV. simpl. now rewrite orb_true_r.
Qed.

Section Quiet.
Hypothesis HV : forall m, quiet m = true -> V m = true.

Lemma stable_intro : stable P intro.
Proof.
  unfold intro, divider.
  repeat (apply stable_bind; [apply stable_slow_print, HV; reflexivity|intros _]).
  apply stable_slow_print, HV; reflexivity.
Qed.

Lemma stable_pick_role : stable P pick_role.
Proof.
  unfold pick_role.
  apply stable_bind; [apply stable_slow_print, HV; reflexivity|intros _].
  apply stable_bind; [apply stable_print_enumerated; intros; now apply HV|intros _].
  apply stable_bind; [apply stable_pending|intro fuel].
  apply stable_iterate. intros _.
  apply stable_bind; [apply stable_input, HV; reflexivity|intro choice].
  apply stable_bind; [apply stable_valid_number|intros [idx|]].
  - destruct (nth_error _ _); [apply stable_ret|apply stable_abort].
  - apply stable_bind; [apply stable_slow_print, HV; reflexivity|intros _].
    apply stable_ret.
Qed.

Lemma stable_ask_missions : stable P ask_missions.
Proof.
  unfold ask_missions.
  apply stable_bind; [apply stable_pending|intro fuel].
  apply stable_iterate. intros _.
  apply stable_bind; [apply stable_input, HV; reflexivity|intro m_input].
  destruct (String.eqb _ _); [apply stable_ret|].
  apply stable_bind; [apply stable_valid_number|intros [n|]]; [apply stable_ret|].
  apply stable_bind; [apply stable_slow_print, HV; reflexivity|intros _].
  apply stable_ret.
Qed.
End Quiet.
End ConsoleStable.

Lemma inside_round_encounter m :
  outside_round m = false -> outside_encounter m = false.
Proof.
  destruct m; simpl; try congruence.
  intros Hm. repeat (apply orb_false_iff in Hm; destruct Hm as [? Hm]).
  repeat (apply orb_false_iff; split); assumption.
Qed.

Lemma inside_encounter_missions m :
  outside_encounter m = false -> outside_missions m = false.
Proof.
  destruct m; simpl; try congruence.
  intros Hm. repeat (apply orb_false_iff in Hm; destruct Hm as [? Hm]).
  repeat (apply orb_false_iff; split); assumption.
Qed.

(** The side condition of a print: the line is in the vocabulary. *)
Ltac side HV :=
  solve [ apply HV; reflexivity
        | let m := fresh "m" in let Hm := fresh "Hm" in
          intros m Hm; apply HV; destruct m; try discriminate Hm; try reflexivity;
          simpl in Hm;
          repeat match goal with
                 | H : (_ || _)%bool = true |- _ => apply orb_true_iff in H; destruct H
                 | H : String.eqb _ _ = true |- _ => apply String.eqb_eq in H; subst
                 end; reflexivity ].

Create HintDb stab.

Section PlayerStable.
Variables (V : msg -> bool) (P : world -> Prop).
Hypothesis HC : console_closed V P.
Hypothesis HP : player_closed P.

Lemma stable_get_player : stable P get_player.
Proof. apply stable_gets. Qed.

Lemma stable_set_hp g : stable P (update_player (fun p => set_hp (g p) p)).
Proof. intros w Hw. apply (pc_hp HP), Hw. Qed.

Lemma stable_set_inventory g :
  stable P (update_player (fun p => set_inventory (g p) p)).
Proof. intros w Hw. apply (pc_inventory HP), Hw. Qed.

Lemma stable_heal_spent :
  stable P (update_player (fun p => set_mission_heals (mission_heals p - 1) p)).
Proof. intros w Hw. apply (pc_heal_spent HP), Hw. Qed.

Lemma stable_shot_used : stable P (update_player (set_sniper_special_used true)).
Proof. intros w Hw. apply (pc_shot_used HP), Hw. Qed.

Lemma stable_dead : stable P (update_player (set_alive false)).
Proof. intros w Hw. apply (pc_dead HP), Hw. Qed.

(** Follows the code of a function, one construct at a time; a call of a
    function treated before is closed by its lemma. *)
Ltac stab HV :=
  repeat match goal with
    | |- stable _ (ret _) => apply stable_ret
    | |- stable _ (abort _) => apply stable_abort
    | |- stable _ get_player => apply stable_get_player
    | |- stable _ pending => apply stable_pending
    | |- stable _ divider => apply (stable_slow_print HC); side HV
    | |- stable _ (slow_print _) => apply (stable_slow_print HC); side HV
    | |- stable _ (roll _) => apply (stable_roll HC)
    | |- stable _ (random_choice _) => apply (stable_random_choice HC)
    | |- stable _ (random_randint _ _) => apply (stable_random_randint HC)
    | |- stable _ (choose _ _) => apply (stable_choose HC); side HV
    | |- stable _ (update_player _) =>
        first [ apply stable_set_hp | apply stable_set_inventory
              | apply stable_heal_spent | apply stable_shot_used
              | apply stable_dead
              | match goal with Hm : completed_closed _ |- _ =>
                  let w := fresh "w" in let Hw := fresh "Hw" in
                  intros w Hw; apply Hm, Hw
                end ]
    | |- stable _ (and_then _ _) => apply stable_and_then
    | |- stable _ (or_else _ _) => apply stable_or_else
    | |- stable _ (if _ then _ else _) => apply stable_if
    | |- stable _ (match ?x with _ => _ end) => destruct x
    | |- stable _ (let _ := _ in _) => cbv zeta
    | |- stable _ (iterate _ _ _) => apply stable_iterate; intro
    | |- stable _ (bind _ _) => apply stable_bind; [|intro]
    | |- stable _ _ => solve [auto with stab nocore]
    end.

Section Round.
Hypothesis HV : forall m, outside_round m = false -> V m = true.

Lemma stable_show_status : stable P show_status.
Proof. unfold show_status. stab HV. Qed.

Lemma stable_take_damage amount : stable P (take_damage amount).
Proof. unfold take_damage. stab HV. Qed.

Lemma stable_heal amount : stable P (heal amount).
Proof. unfold heal. stab HV. Qed.

Lemma stable_inventory_append item : stable P (inventory_append item).
Proof. unfold inventory_append. stab HV. Qed.

#[local] Hint Resolve stable_show_status stable_take_damage stable_heal
  stable_inventory_append : stab.

Lemma stable_use_special enemy_hp : stable P (use_special enemy_hp).
Proof. unfold use_special. stab HV. Qed.

Lemma stable_enemy_counterattack d e : stable P (enemy_counterattack d e).
Proof. unfold enemy_counterattack. stab HV. Qed.

#[local] Hint Resolve stable_use_special stable_enemy_counterattack : stab.

Lemma stable_cover_or_shoot d a e : stable P (cover_or_shoot d a e).
Proof. unfold cover_or_shoot. stab HV. Qed.

#[local] Hint Resolve stable_cover_or_shoot : stab.

Lemma stable_combat_round d e r : stable P (combat_round d e r).
Proof. unfold combat_round. stab HV. Qed.

Lemma stable_post_combat d : stable P (post_combat d).
Proof. unfold post_combat. stab HV. Qed.

#[local] Hint Resolve stable_combat_round stable_post_combat : stab.

Lemma stable_combat_loop d st : stable P (combat_loop d st).
Proof. unfold combat_loop. stab HV. Qed.
End Round.

Section Encounter.
Hypothesis HV : forall m, outside_encounter m = false -> V m = true.

Lemma round_in_encounter : forall m, outside_round m = false -> V m = true.
Proof. intros m Hm. apply HV, (inside_round_encounter _ Hm). Qed.

Lemma combat_loop_here d st : stable P (combat_loop d st).
Proof. apply stable_combat_loop, round_in_encounter. Qed.

Lemma take_damage_here amount : stable P (take_damage amount).
Proof. apply stable_take_damage, round_in_encounter. Qed.

Lemma inventory_append_here item : stable P (inventory_append item).
Proof. apply stable_inventory_append. Qed.

#[local] Hint Resolve combat_loop_here take_damage_here inventory_append_here : stab.

Lemma stable_combat_encounter d : stable P (combat_encounter d).
Proof. unfold combat_encounter. stab HV. Qed.

#[local] Hint Resolve stable_combat_encounter : stab.

Lemma stable_village_checkpoint : stable P village_checkpoint.
Proof. unfold village_checkpoint. stab HV. Qed.

Lemma stable_mountain_pass : stable P mountain_pass.
Proof. unfold mountain_pass. stab HV. Qed.

Lemma stable_abandoned_base : stable P abandoned_base.
Proof. unfold abandoned_base. stab HV. Qed.

Lemma stable_night_raze : stable P night_raze.
Proof. unfold night_raze. stab HV. Qed.

Lemma stable_convoy_ambush : stable P convoy_ambush.
Proof. unfold convoy_ambush. stab HV. Qed.

#[local] Hint Resolve stable_village_checkpoint stable_mountain_pass
  stable_abandoned_base stable_night_raze stable_convoy_ambush : stab.

Lemma stable_encounter_menu e : stable P (encounter_menu e).
Proof. unfold encounter_menu. stab HV. Qed.
End Encounter.

Section Missions.
Hypothesis HV : forall m, outside_missions m = false -> V m = true.
Hypothesis HM : completed_closed P.

Lemma encounter_in_missions : forall m, outside_encounter m = false -> V m = true.
Proof. intros m Hm. apply HV, (inside_encounter_missions _ Hm). Qed.

Lemma encounter_menu_here e : stable P (encounter_menu e).
Proof. apply stable_encounter_menu, encounter_in_missions. Qed.

Lemma heal_here amount : stable P (heal amount).
Proof.
  apply stable_heal. intros m Hm.
  apply encounter_in_missions, (inside_round_encounter _ Hm).
Qed.

#[local] Hint Resolve encounter_menu_here heal_here : stab.

Lemma stable_mission i n : stable P (mission i n).
Proof. unfold mission. stab HV. Qed.

Lemma stable_mission_loop n : forall i missions, stable P (mission_loop n i missions).
Proof.
  induction n as [|n IH]; intros i missions; simpl.
  - stab HV.
  - apply stable_bind; [apply stable_mission|].
    intros [b|]; [apply stable_ret|apply IH].
Qed.

Lemma stable_play_mission_sequence missions :
  stable P (play_mission_sequence missions).
Proof. apply stable_mission_loop. Qed.
End Missions.

Section Whole.
Hypothesis HV : forall m, V m = true.
Hypothesis HM : completed_closed P.

Lemma play_mission_sequence_here missions :
  stable P (play_mission_sequence missions).
Proof. apply stable_play_mission_sequence; auto. Qed.

Lemma ask_missions_here : stable P ask_missions.
Proof. apply (stable_ask_missions HC). auto. Qed.

#[local] Hint Resolve play_mission_sequence_here ask_missions_here : stab.

Lemma stable_resolve v : stable P (resolve v).
Proof. unfold resolve. stab HV. Qed.

#[local] Hint Resolve stable_resolve : stab.

Lemma stable_final_resolution : stable P final_resolution.
Proof. unfold final_resolution. stab HV. Qed.

Lemma stable_summary : stable P summary.
Proof. unfold summary. stab HV. Qed.

#[local] Hint Resolve stable_final_resolution stable_summary : stab.

Lemma stable_campaign missions : stable P (campaign missions).
Proof. unfold campaign. stab HV. Qed.

Lemma stable_role_intro : stable P role_intro.
Proof. unfold role_intro. stab HV. Qed.

#[local] Hint Resolve stable_campaign stable_role_intro : stab.

Lemma stable_main_body : stable P main_body.
Proof. unfold main_body. stab HV. Qed.
End Whole.
End PlayerStable.

(** ** Weakest preconditions: rules *)

Section WP.
Context {St : Type}.

Lemma wp_ret {A} (a : A) Q E (s : St) : Q a s -> wp (ret a) Q E s.
Proof. auto. Qed.

Lemma wp_bind {A B} (m : M St A) (k : A -> M St B) Q E s :
  wp m (fun a s' => wp (k a) Q E s') E s -> wp (bind m k) Q E s.
Proof. unfold wp, bind. destruct (m s); auto. Qed.

Lemma wp_mono {A} (m : M St A) (Q Q' : A -> St -> Prop) (E E' : error -> St -> Prop) s :
  wp m Q E s -> (forall a s', Q a s' -> Q' a s') -> (forall e s', E e s' -> E' e s') ->
  wp m Q' E' s.
Proof. unfold wp. destruct (m s); auto. Qed.

Lemma wp_skip {A B} (m : M St A) (k : A -> M St B) Q (E : error -> St -> Prop) s :
  (forall a s', wp (k a) Q E s') -> (forall e s', E e s') -> wp (bind m k) Q E s.
Proof. intros Hk HE. apply wp_bind. unfold wp at 1. destruct (m s); auto. Qed.

Lemma wp_gets {A} (f : St -> A) Q E s : Q (f s) s -> wp (gets f) Q E s.
Proof. auto. Qed.

Lemma wp_modify (f : St -> St) Q E s : Q tt (f s) -> wp (modify f) Q E s.
Proof. auto. Qed.

Lemma final_wp {A} (P : St -> Prop) (m : M St A) s :
  wp m (fun _ s' => P s') (fun _ s' => P s') s -> P (final (m s)).
Proof. unfold wp. destruct (m s); auto. Qed.

Lemma wp_stable {A} (P : St -> Prop) (m : M St A) Q (E : error -> St -> Prop) s :
  stable P m -> P s ->
  (forall a s', P s' -> Q a s') -> (forall e s', P s' -> E e s') -> wp m Q E s.
Proof.
  intros Hm Hs HQ HE. specialize (Hm s Hs). unfold wp.
  destruct (m s); simpl in Hm; auto.
Qed.

Lemma wp_iterate {A B} (I : A -> St -> Prop) (body : A -> M St (A + B)) Q
      (E : error -> St -> Prop) :
  (forall a s, I a s ->
     wp (body a) (fun r s' => match r with inl a' => I a' s' | inr b => Q b s' end) E s) ->
  (forall a s, I a s -> E OutOfFuel s) ->
  forall fuel a s, I a s -> wp (iterate fuel body a) Q E s.
Proof.
  intros Hb HE fuel. induction fuel as [|fuel IH]; intros a s Ha; simpl.
  - apply HE with a, Ha.
  - apply wp_bind. eapply wp_mono; [apply Hb, Ha| |auto].
    intros [a'|b] s' H; [apply IH, H|apply H].
Qed.

(** A loop that reads a line on each pass has fuel to spare. *)
Lemma wp_iterate_fuel {A B} (len : St -> nat) (n : nat) (body : A -> M St (A + B))
      (J : St -> Prop) :
  (forall a s, J s ->
     wp (body a) (fun r s' => J s' /\ match r with
                               | inl _ => (len s' < len s)%nat
                               | inr _ => (len s' + n <= len s)%nat
                               end)
        (fun e _ => from_input e) s) ->
  forall fuel a s, J s -> (len s < fuel)%nat ->
    wp (iterate fuel body a) (fun _ s' => J s' /\ (len s' + n <= len s)%nat)
       (fun e _ => from_input e) s.
Proof.
  intros Hb fuel. induction fuel as [|fuel IH]; intros a s HJ Hlt; [lia|].
  simpl. apply wp_bind. eapply wp_mono; [apply Hb, HJ| |auto].
  intros [a'|b] s' [HJ' Hs']; [|apply wp_ret; auto].
  eapply wp_mono; [apply (IH a' s' HJ'); lia| |auto].
  cbv beta. intros _ s'' [HJ'' Hs'']. split; [exact HJ''|lia].
Qed.
End WP.

Lemma scaled_index (u : Q) (n : Z) :
  (0 <= u /\ u < 1)%Q -> 0 < n -> 0 <= Qfloor (u * inject_Z n) < n.
Proof.
  intros [H0 H1] Hn. split.
  - change 0 with (Qfloor 0). apply Qfloor_resp_le.
    apply Qmult_le_0_compat; [exact H0|].
    change 0%Q with (inject_Z 0). rewrite <- Zle_Qle. lia.
  - rewrite Zlt_Qlt. eapply Qle_lt_trans; [apply Qfloor_le|].
    rewrite <- (Qmult_1_l (inject_Z n)) at 2.
    apply Qmult_lt_compat_r; [|exact H1].
    change 0%Q with (inject_Z 0). rewrite <- Zlt_Qlt. exact Hn.
Qed.

Lemma number_in_range n l idx : number_in n l = Taken idx -> 1 <= idx <= n.
Proof.
  unfold number_in. destruct (isdigit l); [|discriminate].
  destruct (number l) as [z|]; [|discriminate].
  destruct (andb _ _) eqn:Hr; [|discriminate].
  intros [= <-]. apply andb_true_iff in Hr. lia.
Qed.

(** The primitive steps. *)
Section Primitives.
Context {St : Type} `{Console St}.

Lemma wp_slow_print (m : msg) Q (E : error -> St -> Prop) s :
  Q tt (put_io (print m (get_io s)) s) -> wp (slow_print m) Q E s.
Proof. auto. Qed.

Lemma wp_roll pct Q (E : error -> St -> Prop) s :
  (forall b, Q b (put_io (advance (get_io s)) s)) -> wp (roll pct) Q E s.
Proof. intros HQ. apply HQ. Qed.

Lemma wp_random_choice {A} (seq : list A) Q (E : error -> St -> Prop) s :
  (forall x, Q x (put_io (advance (get_io s)) s)) ->
  E IndexError (put_io (advance (get_io s)) s) ->
  wp (random_choice seq) Q E s.
Proof.
  intros HQ HE. unfold random_choice. apply wp_bind. unfold wp at 1.
  cbn [random_random].
  destruct (nth_error _ _); [apply HQ|apply HE].
Qed.

Lemma wp_random_choice_in {A} (seq : list A) Q (E : error -> St -> Prop) s :
  well_formed (rng (get_io s)) -> seq <> [] ->
  (forall x, In x seq -> Q x (put_io (advance (get_io s)) s)) ->
  wp (random_choice seq) Q E s.
Proof.
  intros Hw Hseq HQ. unfold random_choice. apply wp_bind. unfold wp at 1.
  cbn [random_random].
  destruct (nth_error seq _) as [x|] eqn:Hn.
  - apply wp_ret, HQ. eapply nth_error_In, Hn.
  - exfalso. apply nth_error_None in Hn.
    assert (Hlen : 0 < Z.of_nat (List.length seq))
      by (destruct seq; simpl; [congruence|lia]).
    pose proof (scaled_index (Hw (cursor (get_io s))) Hlen). lia.
Qed.

Lemma wp_random_randint a b Q (E : error -> St -> Prop) s :
  (forall x, Q x (put_io (advance (get_io s)) s)) -> wp (random_randint a b) Q E s.
Proof. intros HQ. apply HQ. Qed.

(** [valid_number] answers as [number_in] says, and raises [ValueError]
    on a line that [int()] does not read. *)
Lemma wp_valid_number choice n Q (E : error -> St -> Prop) s :
  match number_in n choice with
  | Taken idx => Q (Some idx) s
  | Dropped => Q None s
  | Unread => E ValueError s
  end ->
  wp (valid_number choice n) Q E s.
Proof.
  unfold number_in, valid_number, int, wp, bind, ret, abort.
  destruct (isdigit choice); [|auto].
  destruct (number choice) as [idx|]; [|auto].
  destruct (andb _ _); auto.
Qed.

Lemma wp_input prompt Q (E : error -> St -> Prop) s :
  (let s1 := put_io (print (Prompt prompt) (get_io s)) s in
   (lines (get_io s1) = [] -> E EOFError s1) /\
   (forall l rest, lines (get_io s1) = l :: rest ->
                   Q l (put_io (set_lines rest (get_io s1)) s1))) ->
  wp (input prompt) Q E s.
Proof.
  cbv zeta. intros [HE HQ]. unfold wp, input.
  destruct (lines _) eqn:Hl; [apply HE|apply HQ]; reflexivity || assumption.
Qed.
End Primitives.

Lemma wp_update_player f Q (E : error -> world -> Prop) w :
  Q tt (set_player (f (player w)) w) -> wp (update_player f) Q E w.
Proof. auto. Qed.

Lemma wp_get_player Q (E : error -> world -> Prop) w :
  Q (player w) w -> wp get_player Q E w.
Proof. auto. Qed.

Lemma wp_roll_exact pct Q (E : error -> world -> Prop) w :
  Q (next_roll pct w) (set_io (advance (io w)) w) -> wp (roll pct) Q E w.
Proof. intros HQ. exact HQ. Qed.

(** ** Symbolic execution *)

(** Projections of the states built by the steps. *)
Ltac wcbn :=
  cbn [player io set_player set_io alive hp mission_heals sniper_special_used
       role name inventory accuracy_bonus special missions_completed
       set_alive set_hp set_inventory set_mission_heals set_sniper_special_used
       set_missions_completed out lines cursor rng print advance set_lines
       get_io put_io world_Console console_Console
       lost_round lost_loop negb] in *.

(** Comparisons of constant lines. *)
Ltac eval_eqb :=
  repeat match goal with
         | |- context [String.eqb ?a ?b] =>
             let v := eval vm_compute in (String.eqb a b) in
             lazymatch v with
             | true => change (String.eqb a b) with true
             | false => change (String.eqb a b) with false
             end
         end;
  cbv iota.

Ltac head_of t :=
  lazymatch t with
  | ?f _ => head_of f
  | _ => t
  end.

(** One step through the code; [calls] takes over at a call of a function
    of the game. *)
Ltac wp_step calls :=
  lazymatch goal with
  | |- wp (ret _) _ _ _ => apply wp_ret
  | |- wp (bind _ _) _ _ _ => apply wp_bind
  | |- wp get_player _ _ _ => apply wp_get_player
  | |- wp pending _ _ _ => apply wp_gets
  | |- wp (update_player _) _ _ _ => apply wp_update_player
  | |- wp (slow_print _) _ _ _ => apply wp_slow_print
  | |- wp divider _ _ _ => apply wp_slow_print
  | |- wp (roll _) _ _ _ => apply wp_roll; intro
  | |- wp (random_randint _ _) _ _ _ => apply wp_random_randint; intro
  | |- wp (and_then _ _) _ _ _ => unfold and_then
  | |- wp (or_else _ _) _ _ _ => unfold or_else
  | |- wp (if ?b then _ else _) _ _ _ => destruct b eqn:?
  | |- wp (match ?x with _ => _ end) _ _ _ => destruct x eqn:?
  | |- wp (let _ := _ in _) _ _ _ => cbv zeta
  | |- wp _ _ _ _ => calls
  end.

(** ** A function that reports failure leaves the player dead *)

(** Only the end of each path matters: what runs before the last steps is
    skipped. *)
Ltac fd_known :=
  lazymatch goal with
  | |- wp (bind ?m _) _ _ _ =>
      let h := head_of m in
      match goal with
      | H : context [h] |- _ =>
          apply wp_bind; eapply wp_mono; [apply H|cbv beta; intros ? ? ?|auto]
      end
  | |- wp ?m _ _ _ =>
      let h := head_of m in
      match goal with
      | H : context [h] |- _ =>
          eapply wp_mono; [apply H|cbv beta; intros ? ? ?; auto|auto]
      end
  end.

Ltac fd_leaf :=
  wcbn;
  try solve [ auto
            | intro; discriminate
            | apply negb_true_iff
            | match goal with
              | b : bool |- _ => destruct b; wcbn; solve [auto | intro; discriminate]
              end ].

Ltac fd_step :=
  match goal with
  | |- wp (ret _) _ _ _ => apply wp_ret; fd_leaf
  | |- wp (bind get_player _) _ _ _ => apply wp_bind, wp_gets
  | |- wp (bind (update_player _) _) _ _ _ => apply wp_bind, wp_modify
  | |- wp (if ?b then _ else _) _ _ _ => destruct b eqn:?
  | |- wp (match ?x with _ => _ end) _ _ _ => destruct x eqn:?
  | |- wp (let _ := _ in _) _ _ _ => cbv zeta
  | _ => fd_known
  | |- wp (bind _ _) _ _ _ => apply wp_skip; [intros ? ?|auto]
  end.

Ltac fd := intro; repeat fd_step.

Lemma enemy_counterattack_fails_dead d e :
  fails_dead lost_round (enemy_counterattack d e).
Proof. unfold enemy_counterattack. fd. Qed.

Lemma cover_or_shoot_fails_dead d a e : fails_dead lost_round (cover_or_shoot d a e).
Proof.
  pose proof enemy_counterattack_fails_dead. unfold cover_or_shoot. fd.
Qed.

Lemma combat_round_fails_dead d e r : fails_dead lost_round (combat_round d e r).
Proof.
  pose proof cover_or_shoot_fails_dead. unfold combat_round. fd.
Qed.

Lemma post_combat_fails_dead d : fails_dead negb (post_combat d).
Proof. unfold post_combat. fd. Qed.

Lemma combat_loop_fails_dead d st : fails_dead lost_loop (combat_loop d st).
Proof.
  pose proof combat_round_fails_dead. pose proof post_combat_fails_dead.
  unfold combat_loop. fd.
Qed.

Lemma combat_encounter_fails_dead d : fails_dead negb (combat_encounter d).
Proof.
  unfold combat_encounter. fd.
  apply wp_iterate with (I := fun _ _ => True); auto.
  intros st s _. eapply wp_mono; [apply combat_loop_fails_dead| |auto].
  intros [st'|[|]]; simpl; auto.
Qed.

Lemma village_checkpoint_fails_dead : fails_dead negb village_checkpoint.
Proof. pose proof combat_encounter_fails_dead. unfold village_checkpoint. fd. Qed.

Lemma mountain_pass_fails_dead : fails_dead negb mountain_pass.
Proof. pose proof combat_encounter_fails_dead. unfold mountain_pass. fd. Qed.

Lemma abandoned_base_fails_dead : fails_dead negb abandoned_base.
Proof. pose proof combat_encounter_fails_dead. unfold abandoned_base. fd. Qed.

Lemma night_raze_fails_dead : fails_dead negb night_raze.
Proof. pose proof combat_encounter_fails_dead. unfold night_raze. fd. Qed.

Lemma convoy_ambush_fails_dead : fails_dead negb convoy_ambush.
Proof. pose proof combat_encounter_fails_dead. unfold convoy_ambush. fd. Qed.

Lemma encounter_menu_fails_dead e : fails_dead negb (encounter_menu e).
Proof.
  pose proof village_checkpoint_fails_dead. pose proof mountain_pass_fails_dead.
  pose proof abandoned_base_fails_dead. pose proof night_raze_fails_dead.
  pose proof convoy_ambush_fails_dead.
  unfold encounter_menu. fd.
Qed.

(** ** The invariant of a run is kept *)

Lemma quiet_hp_line_ok m : quiet m = true -> hp_line_ok m.
Proof. destruct m; simpl; auto; discriminate. Qed.

Lemma quiet_count m s :
  quiet m = true -> s = medic_text \/ s = sniper_text -> is_text s m = false.
Proof.
  destruct m; simpl; auto. intros Hq Hs.
  apply andb_true_iff in Hq. destruct Hq as [H1 H2].
  apply negb_true_iff in H1, H2. destruct Hs; subst; assumption.
Qed.

Lemma Inv_frame w :
  console_closed quiet (fun s => player s = player w /\ Inv s).
Proof.
  split.
  - intros m s Hm [Hp Hi]. split; [exact Hp|].
    unfold Inv in *. cbn [get_io put_io world_Console set_io player io print out].
    cbn [count_text]. rewrite !quiet_count by auto.
    intuition. constructor; auto using quiet_hp_line_ok.
  - intros s [Hp Hi]. split; [exact Hp|exact Hi].
  - intros s l rest _ [Hp Hi]. split; [exact Hp|exact Hi].
Qed.

(** A computation that only prints quiet lines, draws variates and reads
    input hands the invariant on, with the player as it was. *)
Lemma wp_frame {A} (m : M world A) Q (E : error -> world -> Prop) w :
  (forall P, console_closed quiet P -> stable P m) ->
  Inv w ->
  (forall a c, Inv (set_io c w) -> Q a (set_io c w)) ->
  (forall e c, Inv (set_io c w) -> E e (set_io c w)) ->
  wp m Q E w.
Proof.
  intros Hm Hi HQ HE.
  pose proof (Hm _ (Inv_frame w) w (conj eq_refl Hi)) as [Hp Hi'].
  unfold wp. destruct (m w) as [a [p c]|e [p c]]; simpl in *; subst p.
  - apply (HQ a c), Hi'.
  - apply (HE e c), Hi'.
Qed.

Ltac inv_leaf :=
  unfold Inv, living, anyhow in *; wcbn; cbn [count_text is_text] in *;
  eval_eqb;
  repeat match goal with
         | H : _ /\ _ |- _ => destruct H
         | H : (_ && _)%bool = true |- _ => apply andb_true_iff in H; destruct H
         | H : (_ >? _) = true |- _ => apply Z.gtb_lt in H
         | H : (_ <=? _) = true |- _ => apply Z.leb_le in H
         | H : (_ <=? _) = false |- _ => apply Z.leb_gt in H
         | H : negb _ = true |- _ => apply negb_true_iff in H
         | H : negb _ = false |- _ => apply negb_false_iff in H
         | H : ?A -> _, H' : ?A |- _ => specialize (H H')
         | H : ?x = _ |- context [if ?x then _ else _] => rewrite H
         | H : ?x = _, H' : context [if ?x then _ else _] |- _ => rewrite H in H'
         end;
  repeat split; auto; try lia;
  try solve [ intros; lia
            | intros; congruence
            | repeat (constructor; [simpl; lia|]); assumption
            | repeat (constructor; [simpl; auto|]); assumption ].

Ltac inv_calls :=
  lazymatch goal with
  | |- wp (random_choice _) _ _ _ => apply wp_random_choice; [intro|]
  | |- wp (choose _ _) _ _ _ =>
      apply wp_frame;
      [ let HC := fresh "HC" in
        intros ? HC; apply (stable_choose HC);
        let m := fresh "m" in let Hm := fresh "Hm" in
        intros m Hm; destruct m; try discriminate Hm;
        reflexivity
        || (simpl in Hm; apply orb_true_iff in Hm;
            destruct Hm as [Hm|Hm]; apply String.eqb_eq in Hm; subst; reflexivity)
      | inv_leaf
      | intros ? ? ?
      | intros ? ? ? ]
  | |- wp ?m _ _ _ =>
      let h := head_of m in
      match goal with
      | H : context [h] |- _ =>
          eapply wp_mono;
          [ apply H; [inv_leaf|inv_leaf]
          | cbv beta; intros ? ? [? ?]
          | cbv beta; intros ? ? ? ]
      end
  end.

Ltac inv_run :=
  intros w HI Hpre; repeat (wp_step ltac:(idtac; inv_calls); wcbn);
  try solve [inv_leaf].

Lemma take_damage_keeps : keeps living (take_damage 1) (fun _ _ => True).
Proof. unfold take_damage. inv_run. Qed.

Lemma heal_keeps : keeps living (heal 1) (fun _ w' => living w').
Proof. unfold heal. inv_run. Qed.

Lemma show_status_keeps : keeps living show_status (fun _ w' => living w').
Proof. unfold show_status. inv_run. Qed.

Lemma use_special_keeps e : keeps living (use_special e) (fun _ w' => living w').
Proof. unfold use_special, heal. inv_run. Qed.

Lemma enemy_counterattack_keeps d e :
  keeps living (enemy_counterattack d e) (fun _ _ => True).
Proof. pose proof take_damage_keeps. unfold enemy_counterattack. inv_run. Qed.

Lemma cover_or_shoot_keeps d a e :
  keeps living (cover_or_shoot d a e) (fun _ _ => True).
Proof.
  pose proof take_damage_keeps. pose proof enemy_counterattack_keeps.
  unfold cover_or_shoot. inv_run.
Qed.

Lemma combat_round_keeps d e r :
  keeps living (combat_round d e r) (fun _ _ => True).
Proof.
  pose proof take_damage_keeps. pose proof cover_or_shoot_keeps.
  pose proof use_special_keeps. pose proof show_status_keeps.
  unfold combat_round. inv_run.
Qed.

Lemma post_combat_keeps d : keeps anyhow (post_combat d) (fun _ _ => True).
Proof. unfold post_combat, inventory_append. inv_run. Qed.

Lemma combat_loop_keeps d st : keeps anyhow (combat_loop d st) (fun _ _ => True).
Proof.
  pose proof combat_round_keeps. pose proof post_combat_keeps.
  unfold combat_loop. inv_run.
Qed.

Lemma combat_encounter_keeps d : keeps anyhow (combat_encounter d) (fun _ _ => True).
Proof.
  unfold combat_encounter. inv_run.
  apply wp_iterate with (I := fun _ w' => Inv w'); [| auto | inv_leaf].
  intros st s Hs. eapply wp_mono; [apply combat_loop_keeps; [exact Hs|exact I]| |auto].
  intros [st'|res] s' [Hs' _]; auto.
Qed.

Lemma village_checkpoint_keeps : keeps living village_checkpoint (fun _ _ => True).
Proof.
  pose proof combat_encounter_keeps.
  unfold village_checkpoint, inventory_append. inv_run.
Qed.

Lemma mountain_pass_keeps : keeps living mountain_pass (fun _ _ => True).
Proof.
  pose proof combat_encounter_keeps. pose proof take_damage_keeps.
  unfold mountain_pass, inventory_append. inv_run.
Qed.

Lemma abandoned_base_keeps : keeps living abandoned_base (fun _ _ => True).
Proof.
  pose proof combat_encounter_keeps.
  unfold abandoned_base, inventory_append. inv_run.
Qed.

Lemma night_raze_keeps : keeps living night_raze (fun _ _ => True).
Proof.
  pose proof combat_encounter_keeps.
  unfold night_raze, inventory_append. inv_run.
Qed.

Lemma convoy_ambush_keeps : keeps living convoy_ambush (fun _ _ => True).
Proof.
  pose proof combat_encounter_keeps. pose proof take_damage_keeps.
  unfold convoy_ambush, inventory_append. inv_run.
Qed.

Lemma encounter_menu_keeps e : keeps living (encounter_menu e) (fun _ _ => True).
Proof.
  pose proof village_checkpoint_keeps. pose proof mountain_pass_keeps.
  pose proof abandoned_base_keeps. pose proof night_raze_keeps.
  pose proof convoy_ambush_keeps.
  unfold encounter_menu. inv_run.
Qed.

Lemma mission_keeps i n :
  keeps living (mission i n) (fun r w' => r = None -> living w').
Proof.
  pose proof encounter_menu_keeps. pose proof heal_keeps.
  unfold mission. inv_run.
Qed.

Lemma mission_loop_keeps n :
  forall i missions, keeps living (mission_loop n i missions) (fun _ _ => True).
Proof.
  induction n as [|n IH]; intros i missions; simpl.
  - inv_run.
  - pose proof mission_keeps. inv_run.
Qed.

Lemma play_mission_sequence_keeps missions :
  keeps living (play_mission_sequence missions) (fun _ _ => True).
Proof. apply mission_loop_keeps. Qed.

Lemma final_resolution_keeps : keeps anyhow final_resolution (fun _ _ => True).
Proof. unfold final_resolution, resolve. inv_run. Qed.

Lemma summary_keeps : keeps anyhow summary (fun _ _ => True).
Proof. unfold summary. inv_run. Qed.

Lemma campaign_keeps missions : keeps living (campaign missions) (fun _ _ => True).
Proof.
  pose proof play_mission_sequence_keeps. pose proof final_resolution_keeps.
  pose proof summary_keeps.
  unfold campaign. inv_run.
Qed.

Lemma role_intro_keeps : keeps living role_intro (fun _ w' => living w').
Proof. unfold role_intro. inv_run. Qed.

Lemma ask_missions_keeps : keeps living ask_missions (fun _ w' => living w').
Proof.
  intros w HI Hpre.
  apply wp_frame;
    [ intros P HC; apply (stable_ask_missions HC); auto
    | exact HI
    | intros a c Hc; split; [exact Hc|exact Hpre]
    | auto ].
Qed.

Lemma main_body_keeps : keeps living main_body (fun _ _ => True).
Proof.
  pose proof role_intro_keeps. pose proof ask_missions_keeps.
  pose proof campaign_keeps.
  unfold main_body. inv_run.
Qed.

Lemma Inv_console_closed : console_closed quiet Inv_console.
Proof.
  split.
  - intros m c Hm (H1 & H2 & H3). unfold Inv_console.
    cbn [get_io put_io console_Console print out count_text].
    rewrite !quiet_count by auto. repeat split; auto.
    constructor; auto using quiet_hp_line_ok.
  - intros c Hc. exact Hc.
  - intros c l rest _ Hc. exact Hc.
Qed.

Lemma Inv_log w : Inv w -> log_ok (out (io w)).
Proof.
  unfold Inv, log_ok. intros (_ & _ & H1 & H2 & H3 & H4).
  repeat split; auto; [lia|destruct (sniper_special_used _); lia].
Qed.

Lemma Inv_init n r c : Inv_console c -> Inv {| player := Player_init n r; io := c |}.
Proof.
  intros (H1 & H2 & H3). unfold Inv. cbn. rewrite H1, H2.
  repeat split; auto; try lia; destruct r; simpl; lia.
Qed.

Lemma main_log_ok rs ls : log_ok (out (final (main (start rs ls)))).
Proof.
  apply (@final_wp _ _ (fun c => log_ok (out c))).
  assert (Hc : forall c, Inv_console c -> log_ok (out c)).
  { intros c (H1 & H2 & H3). unfold log_ok. rewrite H1, H2. auto. }
  unfold main.
  apply wp_bind, wp_stable with (P := Inv_console); auto.
  { apply (stable_intro Inv_console_closed). auto. }
  { repeat split; simpl; auto. }
  intros _ c1 Hc1.
  apply wp_bind, wp_stable with (P := Inv_console); auto.
  { apply (stable_input Inv_console_closed). reflexivity. }
  intros l c2 Hc2. cbv zeta.
  apply wp_bind, wp_stable with (P := Inv_console); auto.
  { apply (stable_pick_role Inv_console_closed). auto. }
  intros rn c3 Hc3.
  pose proof (@main_body_keeps _
                (Inv_init (if (text l =? "")%string then "Player" else text l) rn Hc3)
                eq_refl) as Hb.
  unfold with_player, wp in *.
  destruct (main_body _) as [a w'|e w']; [destruct Hb as [Hb _]|];
    apply Inv_log, Hb.
Qed.

Lemma fresh_Inv n r rs ls : Inv (fresh n r rs ls) /\ living (fresh n r rs ls).
Proof.
  split; [|reflexivity]. apply Inv_init. repeat split; constructor.
Qed.

Lemma campaign_Inv n r rs ls missions :
  Inv (final (campaign missions (fresh n r rs ls))).
Proof.
  destruct (fresh_Inv n r rs ls) as [Hi Hl].
  pose proof (@campaign_keeps missions _ Hi Hl) as H. unfold wp in H.
  destruct (campaign _ _); [apply H|exact H].
Qed.

(** ** The game ends

    Every loop of the game reads a line on each pass, so the fuel given to
    [iterate] is never used up; with variates in [0, 1) no list is indexed
    out of range.  What is left is the input: its end, or a line that
    [int()] does not read. *)

Ltac wf_leaf :=
  repeat match goal with
         | H : rng _ = _ |- well_formed _ => rewrite H
         end;
  assumption.

Ltac tot_leaf :=
  wcbn; try assumption;
  try (lazymatch goal with |- well_formed _ => wf_leaf end);
  unfold none, one, one_more in |- *;
  repeat match goal with
         | H : _ /\ _ |- _ => destruct H
         | H : lines _ = _ :: _ |- _ => rewrite H in *
         | H : context [none _] |- _ => unfold none in H
         | H : context [one _] |- _ => unfold one in H
         | H : context [one_more (_ _)] |- _ => unfold one_more in H
         end;
  cbn [List.length] in *;
  solve [ congruence | lia | split; [congruence|lia]
        | unfold from_input; auto ].

Ltac tot_calls :=
  lazymatch goal with
  | |- wp (random_choice _) _ _ _ =>
      apply wp_random_choice_in; [tot_leaf|discriminate|intros ? _]
  | |- wp (input _) _ _ _ =>
      apply wp_input; cbv zeta; split; [intros _|intros ? ? ?]
  | |- wp (valid_number _ _) _ _ _ =>
      apply wp_valid_number; destruct (number_in _ _) eqn:?
  | |- wp ?m _ _ _ =>
      let h := head_of m in
      match goal with
      | H : context [h] |- _ =>
          eapply wp_mono;
          [ apply H; tot_leaf
          | cbv beta; intros ? ? [? ?]
          | cbv beta; intros; assumption ]
      end
  end.

Ltac tot_steps := repeat (wp_step ltac:(idtac; tot_calls); wcbn); try solve [tot_leaf].

Ltac tot_run := intros w Hw; tot_steps.

(** The loop rule, with [k] lines read at the least and the random source
    of [w0] kept. *)
Ltac tot_loop k w0 :=
  eapply wp_mono;
  [ apply wp_iterate_fuel
      with (len := fun s => List.length (lines (get_io s))) (n := k)
           (J := fun s => rng (get_io s) = rng (get_io w0));
    [intros ? ? ?|reflexivity|wcbn; lia]
  | cbv beta; intros ? ? [? ?]; tot_leaf
  | auto ].

Lemma print_enumerated_total {A} (f : Z -> A -> msg) xs :
  forall i, total none (print_enumerated (St := world) f i xs).
Proof.
  induction xs as [|x xs IH]; intros i; cbn [print_enumerated]; tot_run.
Qed.

Lemma choose_total prompt options : total one (choose (St := world) prompt options).
Proof.
  pose proof (@print_enumerated_total string).
  unfold choose. tot_run. tot_loop 1%nat w. tot_steps.
Qed.

Lemma ask_missions_total : total none (ask_missions (St := world)).
Proof. unfold ask_missions. tot_run. tot_loop O w. tot_steps. Qed.

Lemma show_status_total : total none show_status.
Proof. unfold show_status. tot_run. Qed.

Lemma take_damage_total amount : total none (take_damage amount).
Proof. unfold take_damage. tot_run. Qed.

Lemma heal_total amount : total none (heal amount).
Proof. unfold heal. tot_run. Qed.

Lemma use_special_total e : total none (use_special e).
Proof. pose proof heal_total. unfold use_special. tot_run. Qed.

Lemma enemy_counterattack_total d e : total none (enemy_counterattack d e).
Proof. pose proof take_damage_total. unfold enemy_counterattack. tot_run. Qed.

Lemma cover_or_shoot_total d a e : total none (cover_or_shoot d a e).
Proof.
  pose proof take_damage_total. pose proof enemy_counterattack_total.
  unfold cover_or_shoot. tot_run.
Qed.

Lemma combat_round_total d e r : total one (combat_round d e r).
Proof.
  pose proof take_damage_total. pose proof cover_or_shoot_total.
  pose proof use_special_total. pose proof show_status_total.
  pose proof choose_total.
  unfold combat_round. tot_run.
Qed.

Lemma post_combat_total d : total none (post_combat d).
Proof. unfold post_combat, inventory_append. tot_run. Qed.

Lemma combat_loop_total d st : total one_more (combat_loop d st).
Proof.
  pose proof combat_round_total. pose proof post_combat_total.
  unfold combat_loop. tot_run.
Qed.

Lemma combat_encounter_total d : total none (combat_encounter d).
Proof.
  unfold combat_encounter. tot_run. tot_loop O w.
  eapply wp_mono; [apply combat_loop_total; tot_leaf| |auto].
  cbv beta. intros [st'|res] s' [? ?]; tot_leaf.
Qed.

Lemma village_checkpoint_total : total none village_checkpoint.
Proof.
  pose proof combat_encounter_total. pose proof choose_total.
  unfold village_checkpoint, inventory_append. tot_run.
Qed.

Lemma mountain_pass_total : total none mountain_pass.
Proof.
  pose proof combat_encounter_total. pose proof choose_total.
  pose proof take_damage_total.
  unfold mountain_pass, inventory_append. tot_run.
Qed.

Lemma abandoned_base_total : total none abandoned_base.
Proof.
  pose proof combat_encounter_total. pose proof choose_total.
  unfold abandoned_base, inventory_append. tot_run.
Qed.

Lemma night_raze_total : total none night_raze.
Proof.
  pose proof combat_encounter_total. pose proof choose_total.
  unfold night_raze, inventory_append. tot_run.
Qed.

Lemma convoy_ambush_total : total none convoy_ambush.
Proof.
  pose proof combat_encounter_total. pose proof choose_total.
  pose proof take_damage_total.
  unfold convoy_ambush, inventory_append. tot_run.
Qed.

Lemma encounter_menu_total e : total none (encounter_menu e).
Proof.
  pose proof village_checkpoint_total. pose proof mountain_pass_total.
  pose proof abandoned_base_total. pose proof night_raze_total.
  pose proof convoy_ambush_total.
  unfold encounter_menu. tot_run.
Qed.

Lemma mission_total i n : total none (mission i n).
Proof.
  pose proof encounter_menu_total. pose proof heal_total.
  unfold mission, ENCOUNTERS. tot_run.
Qed.

Lemma mission_loop_total n :
  forall i missions, total none (mission_loop n i missions).
Proof.
  induction n as [|n IH]; intros i missions; simpl.
  - tot_run.
  - pose proof mission_total. tot_run.
Qed.

Lemma final_resolution_total : total none final_resolution.
Proof. unfold final_resolution, resolve. tot_run. Qed.

Lemma summary_total : total none summary.
Proof. unfold summary. tot_run. Qed.

Lemma campaign_total missions : total none (campaign missions).
Proof.
  pose proof mission_loop_total. pose proof final_resolution_total.
  pose proof summary_total.
  unfold campaign, play_mission_sequence. tot_run.
Qed.

Lemma main_body_total : total none main_body.
Proof.
  pose proof ask_missions_total. pose proof campaign_total.
  unfold main_body, role_intro. tot_run.
Qed.

Lemma pick_role_total : total none (pick_role (St := console)).
Proof.
  unfold pick_role, role_names. cbn [print_enumerated]. tot_run. tot_loop O w.
  tot_steps. exfalso.
  match goal with
  | Hv : number_in _ _ = Taken _, Hn : nth_error _ _ = None |- _ =>
      apply number_in_range in Hv; apply nth_error_None in Hn;
      cbn [List.length] in *; lia
  end.
Qed.

Lemma intro_total : total none (intro (St := console)).
Proof. unfold intro. tot_run. Qed.

(** ** Closed properties *)

Lemma everything_holds (m : msg) : everything m = true.
Proof. reflexivity. Qed.

Lemma no_return_refl w : no_return w w.
Proof.
  unfold no_return. repeat split; try lia;
    [destruct (alive _)|destruct (sniper_special_used _)]; simpl; auto.
Qed.

Lemma no_return_console w0 : console_closed everything (no_return w0).
Proof. split; intros; assumption. Qed.

Lemma no_return_player w0 : player_closed (no_return w0).
Proof.
  split; unfold no_return; intros; cbn; intuition; try lia.
  destruct (sniper_special_used (player w0)); simpl; auto.
Qed.

Lemma no_return_completed w0 : completed_closed (no_return w0).
Proof. intros v w Hw. exact Hw. Qed.

Lemma count_console s n : console_closed (all_but s) (printed_times s n).
Proof.
  split; unfold printed_times; intros; wcbn; auto.
  cbn [count_text]. unfold all_but in *.
  match goal with H : negb _ = true |- _ => apply negb_true_iff in H; rewrite H end.
  assumption.
Qed.

Lemma count_player s n : player_closed (printed_times s n).
Proof. split; intros; assumption. Qed.

Lemma count_completed s n : completed_closed (printed_times s n).
Proof. intros v w Hw. exact Hw. Qed.

Lemma completed_console k : console_closed everything (completed_is k).
Proof. split; intros; assumption. Qed.

Lemma completed_player k : player_closed (completed_is k).
Proof. split; intros; assumption. Qed.

Lemma round_all_but_fatal m :
  outside_round m = false -> all_but fatal_text m = true.
Proof.
  destruct m; try reflexivity. unfold outside_round, all_but, is_text.
  cbn [existsb]. intros H. apply orb_false_iff in H. destruct H as [H _].
  now rewrite H.
Qed.

Lemma encounter_all_but_complications m :
  outside_encounter m = false -> all_but complications_text m = true.
Proof.
  destruct m; try reflexivity. unfold outside_encounter, all_but, is_text.
  cbn [existsb]. intros H. apply orb_false_iff in H. destruct H as [H _].
  now rewrite H.
Qed.

Lemma missions_all_but_extraction m :
  outside_missions m = false -> all_but extraction_text m = true.
Proof.
  destruct m; try reflexivity. unfold outside_missions, all_but, is_text.
  cbn [existsb]. intros H. apply orb_false_iff in H. destruct H as [H _].
  now rewrite H.
Qed.

Lemma campaign_no_return missions w : no_return w (final (campaign missions w)).
Proof.
  apply (stable_campaign (no_return_console w) (no_return_player w)
           everything_holds (@no_return_completed w)).
  apply no_return_refl.
Qed.

Lemma dead_stays_dead {A} (m : M world A) w :
  (forall w0, stable (no_return w0) m) ->
  alive (player w) = false -> alive (player (final (m w))) = false.
Proof.
  intros Hm Hd. destruct (Hm w w (no_return_refl w)) as [H _].
  rewrite Hd in H.
  destruct (alive (player (final (m w)))); [simpl in H; discriminate H|reflexivity].
Qed.

(** ** What a mission leaves behind *)

Ltac ex_calls :=
  lazymatch goal with
  | |- wp (random_choice _) _ _ _ => apply wp_random_choice; [intro|]
  | |- wp ?m _ _ _ =>
      let h := head_of m in
      match goal with
      | H : context [h] |- _ =>
          eapply wp_mono; [apply H|cbv beta; intros ? ? ?|cbv beta; intros ? ? ?]
      end
  end.

Ltac ex_steps := repeat (wp_step ltac:(idtac; ex_calls); wcbn).

Ltac ex_leaf :=
  wcbn; cbn [count_text is_text] in *; unfold complications_text in *; eval_eqb;
  repeat match goal with
         | H : _ /\ _ |- _ => destruct H
         | H : negb _ = true |- _ => apply negb_true_iff in H
         | H : negb _ = false |- _ => apply negb_false_iff in H
         | H : ?A -> _, H' : ?A |- _ => specialize (H H')
         | H : ?a = ?a -> _ |- _ => specialize (H eq_refl)
         end;
  cbn [Nat.add] in *;
  solve [ repeat split; (congruence || lia) ].

Lemma encounter_menu_effect e w :
  wp (encounter_menu e)
     (fun a w' => (a = false -> alive (player w') = false) /\
                  count_text complications_text (out (io w'))
                  = count_text complications_text (out (io w)) /\
                  missions_completed (player w') = missions_completed (player w))
     (fun _ w' => count_text complications_text (out (io w'))
                  = count_text complications_text (out (io w))) w.
Proof.
  assert (Hc : count_text complications_text (out (io (final (encounter_menu e w))))
               = count_text complications_text (out (io w))).
  { apply (stable_encounter_menu (count_console complications_text _)
             (count_player complications_text _) encounter_all_but_complications).
    reflexivity. }
  assert (Hk : missions_completed (player (final (encounter_menu e w)))
               = missions_completed (player w)).
  { apply (stable_encounter_menu (completed_console _) (completed_player _));
      reflexivity. }
  pose proof (encounter_menu_fails_dead e w) as Hd.
  unfold wp in *. destruct (encounter_menu e w) as [a w'|err w']; simpl in *.
  - repeat split; auto. intros ->. apply Hd. reflexivity.
  - exact Hc.
Qed.

Lemma mission_effect i n w :
  wp (mission i n)
     (fun r w' =>
        count_text complications_text (out (io w'))
        = count_text complications_text (out (io w)) /\
        match r with
        | None => alive (player w') = true /\
                  missions_completed (player w') = missions_completed (player w) + 1
        | Some b => b = false /\ alive (player w') = false
        end)
     (fun _ w' => count_text complications_text (out (io w'))
                  = count_text complications_text (out (io w))) w.
Proof.
  pose proof encounter_menu_effect.
  unfold mission, heal. ex_steps; try solve [ex_leaf].
Qed.

Lemma mission_loop_effect n :
  forall i missions w,
  wp (mission_loop n i missions)
     (fun b w' =>
        count_text complications_text (out (io w'))
        = count_text complications_text (out (io w)) /\
        if b : bool
        then alive (player w') = true /\
             missions_completed (player w')
             = missions_completed (player w) + Z.of_nat n
        else alive (player w') = false)
     (fun _ w' => count_text complications_text (out (io w'))
                  = count_text complications_text (out (io w))) w.
Proof.
  induction n as [|n IH]; intros i missions w; cbn [mission_loop].
  - ex_steps.
    destruct (alive (player w)) eqn:Ha; repeat split; auto; lia.
  - apply wp_bind. eapply wp_mono; [apply mission_effect| |auto].
    cbv beta. intros [b|] w1 [Hc Hr].
    + apply wp_ret. destruct Hr as [-> Hd]. split; assumption.
    + eapply wp_mono; [apply IH| |cbv beta; intros; congruence].
      cbv beta. intros b w2 [Hc2 Hb]. split; [congruence|].
      destruct b; [|exact Hb]. destruct Hr, Hb. split; [assumption|lia].
Qed.

Lemma play_mission_sequence_effect missions w :
  match play_mission_sequence missions w with
  | Done true w' =>
      alive (player w') = true /\
      missions_completed (player w')
      = missions_completed (player w) + Z.max 0 missions
  | Done false w' => alive (player w') = false
  | Abort _ _ => True
  end.
Proof.
  pose proof (mission_loop_effect (Z.to_nat missions) 1 missions w) as H.
  unfold play_mission_sequence, wp in *.
  destruct (mission_loop _ _ _ _) as [[|] w'|]; auto.
  destruct H as (_ & H1 & H2). split; [exact H1|lia]. apply H.
Qed.

Lemma campaign_extraction missions w :
  count_text extraction_text (out (io (final (campaign missions w))))
  = (count_text extraction_text (out (io w))
     + match play_mission_sequence missions w with
       | Done true w' => if alive (player w') then 1 else 0
       | _ => 0
       end)%nat.
Proof.
  assert (Hp : count_text extraction_text
                 (out (io (final (play_mission_sequence missions w))))
               = count_text extraction_text (out (io w))).
  { apply (stable_play_mission_sequence (count_console extraction_text _)
             (count_player extraction_text _) missions_all_but_extraction
             (@count_completed extraction_text _)).
    reflexivity. }
  assert (Hs : forall w1, count_text extraction_text (out (io (final (summary w1))))
                          = count_text extraction_text (out (io w1))).
  { intros w1. unfold summary.
    cbv [bind divider slow_print get_player gets modify ret final].
    cbn [get_io put_io world_Console set_io io print out player].
    destruct (alive (player w1)); cbn [count_text is_text out print io set_io];
      unfold extraction_text; eval_eqb; reflexivity. }
  unfold campaign at 1. unfold bind at 1.
  destruct (play_mission_sequence missions w) as [survived w1|e w1];
    cbn [final] in Hp; [|cbn [final]; lia].
  unfold bind at 1. cbn [get_player gets].
  destruct survived; cbn [negb orb].
  - destruct (alive (player w1)) eqn:Ha; cbn [negb].
    + unfold final_resolution, resolve.
      cbv [bind divider slow_print random_randint random_random ret modify
           update_player].
      cbn [get_io put_io world_Console set_io io print advance rng cursor out player].
      repeat match goal with
             | |- context [if ?b then _ else _] => destruct b
             end;
        match goal with
        | |- context [summary ?w2] => rewrite (Hs w2)
        end;
        cbn [count_text is_text out print io set_io set_player advance];
        unfold extraction_text in *; eval_eqb; lia.
    + unfold bind at 1. cbn [slow_print modify]. rewrite Hs.
      cbn [count_text is_text out print io set_io get_io put_io world_Console].
      unfold extraction_text in *; eval_eqb; lia.
  - unfold bind at 1. cbn [slow_print modify]. rewrite Hs.
    cbn [count_text is_text out print io set_io get_io put_io world_Console].
    unfold extraction_text in *; eval_eqb; lia.
Qed.

(** ** Loops that read until a line is accepted *)

Lemma valid_number_answers {St} `{Console St} (l : line) (n : Z) (s : St) :
  valid_number l n s = match number_in n l with
                       | Taken idx => Done (Some idx) s
                       | Dropped => Done None s
                       | Unread => Abort ValueError s
                       end.
Proof.
  unfold valid_number, number_in, int, bind, ret, abort.
  destruct (isdigit l); [|reflexivity].
  destruct (number l) as [idx|]; [|reflexivity].
  destruct (andb _ _); reflexivity.
Qed.

Section ReadLoop.
Context {St : Type} `{Console St}.
Variable same : St -> St -> Prop.
Hypothesis same_trans : forall a b c, same a b -> same b c -> same a c.
Context {A : Type}.
Variable accept : line -> answer A.
Variable body : unit -> M St (unit + A).

(** One pass: at the end of the input [EOFError]; a line that is taken
    ends the loop; a line that is dropped sends it round again; a line
    that [int()] does not read ends it with [ValueError]. *)
Hypothesis body_pass : forall s,
  match lines (get_io s) with
  | [] => exists s', body tt s = Abort EOFError s' /\ only_console same s s'
                     /\ lines (get_io s') = []
  | l :: rest =>
      exists s', only_console same s s' /\ lines (get_io s') = rest /\
                 body tt s = match accept l with
                             | Taken a => Done (inr a) s'
                             | Dropped => Done (inl tt) s'
                             | Unread => Abort ValueError s'
                             end
  end.

Lemma only_console_trans a b c :
  only_console same a b -> only_console same b c -> only_console same a c.
Proof.
  intros (H1 & H2 & H3) (H4 & H5 & H6). repeat split; [eauto|congruence|congruence].
Qed.

Lemma read_loop ls :
  forall fuel s, lines (get_io s) = ls -> (List.length ls < fuel)%nat ->
    match first_accepted accept ls with
    | Some (a, rest) =>
        exists s', iterate fuel body tt s = Done a s' /\ only_console same s s'
                   /\ lines (get_io s') = rest
    | None =>
        exists s', iterate fuel body tt s = Abort (fst (gives_up accept ls)) s'
                   /\ only_console same s s'
                   /\ lines (get_io s') = snd (gives_up accept ls)
    end.
Proof.
  induction ls as [|l rest IH]; intros fuel s Hs Hf;
    (destruct fuel as [|fuel]; [simpl in Hf; lia|]);
    pose proof (body_pass s) as Hb; rewrite Hs in Hb;
    cbn [first_accepted gives_up iterate]; unfold bind.
  - destruct Hb as (s' & -> & Ho & Hl). eauto.
  - destruct Hb as (s' & Ho & Hl & ->).
    destruct (accept l) as [a| |].
    + exists s'. auto.
    + specialize (IH fuel s' Hl ltac:(simpl in Hf; lia)).
      destruct (first_accepted accept rest) as [[a rest']|];
        destruct IH as (s'' & -> & Ho' & Hl'); exists s'';
        (split; [reflexivity|split; [eapply only_console_trans; eauto|assumption]]).
    + exists s'. auto.
Qed.

Lemma reads_first_loop :
  reads_first same accept (fuel <- pending ;; iterate fuel body tt).
Proof.
  intros s. unfold bind, pending, gets.
  apply read_loop; [reflexivity|lia].
Qed.
End ReadLoop.

Lemma print_enumerated_world {A} (f : Z -> A -> msg) xs :
  forall i (w : world), exists w',
    print_enumerated f i xs w = Done tt w' /\ only_console same_player w w' /\
    lines (io w') = lines (io w).
Proof.
  induction xs as [|x xs IH]; intros i w; cbn [print_enumerated].
  - exists w. repeat split.
  - unfold bind, slow_print, modify.
    destruct (IH (i + 1) (put_io (print (f i x) (get_io w)) w))
      as (w' & -> & (H1 & H2 & H3) & H4).
    exists w'. repeat split; assumption.
Qed.

Lemma print_enumerated_console {A} (f : Z -> A -> msg) xs :
  forall i (c : console), exists c',
    print_enumerated f i xs c = Done tt c' /\ only_console no_player c c' /\
    lines c' = lines c.
Proof.
  induction xs as [|x xs IH]; intros i c; cbn [print_enumerated].
  - exists c. repeat split.
  - unfold bind, slow_print, modify.
    destruct (IH (i + 1) (put_io (print (f i x) (get_io c)) c))
      as (c' & -> & (H1 & H2 & H3) & H4).
    exists c'. repeat split; assumption.
Qed.

Lemma same_player_trans a b c : same_player a b -> same_player b c -> same_player a c.
Proof. unfold same_player; congruence. Qed.

(** Closes the goal of one pass once the body has been run. *)
Ltac pass_done :=
  eexists; split; [|split; [|reflexivity]]; [|reflexivity];
  repeat split; cbn; assumption.

Lemma choose_reads_first prompt options :
  reads_first same_player (choice_of (Z.of_nat (List.length options)))
    (choose (St := world) prompt options).
Proof.
  unfold choose. apply reads_first_loop; [exact same_player_trans|].
  intros s.
  destruct (print_enumerated_world OptionLine options 1
              (put_io (print (Text prompt) (get_io s)) s))
    as (s1 & E & (H1 & H2 & H3) & H4).
  cbv beta. unfold bind, slow_print, modify, input. rewrite E.
  cbn in H1, H2, H3, H4 |- *. rewrite H4.
  destruct (lines (io s)) as [|l rest].
  - eexists; split; [reflexivity|]. repeat split; cbn; assumption.
  - rewrite valid_number_answers. unfold choice_of.
    destruct (number_in _ l) as [idx| |]; cbn; pass_done.
Qed.

Lemma ask_missions_reads_first :
  reads_first same_player missions_of (ask_missions (St := world)).
Proof.
  unfold ask_missions. apply reads_first_loop; [exact same_player_trans|].
  intros s. unfold bind, input. cbn.
  destruct (lines (io s)) as [|l rest] eqn:El.
  - eexists; split; [reflexivity|]. repeat split; cbn; assumption.
  - unfold missions_of. destruct (String.eqb (text l) "").
    + eexists; split; [|split; [|reflexivity]]; [|reflexivity]. repeat split.
    + rewrite valid_number_answers.
      destruct (number_in 10 l) as [n| |]; cbn;
        (eexists; split; [|split; [|reflexivity]]; [|reflexivity]); repeat split.
Qed.

Lemma number_in_nth l idx :
  number_in (Z.of_nat (List.length role_names)) l = Taken idx ->
  nth_error role_names (Z.to_nat (idx - 1)) <> None.
Proof. intros E. apply number_in_range in E. apply nth_error_Some. lia. Qed.

Lemma pick_role_reads_first :
  reads_first no_player role_of (pick_role (St := console)).
Proof.
  intros c. change (get_io c) with c.
  destruct (print_enumerated_console (fun i rn => RoleLine i rn (r_desc (ROLES rn)))
              role_names 1 (put_io (print (Text "Choose your role:") (get_io c)) c))
    as (c1 & E & (_ & H2 & H3) & H4).
  cbn in H2, H3, H4.
  assert (L : reads_first no_player role_of
            (fuel <- pending ;;
             iterate fuel (fun _ : unit =>
               choice <- input "> " ;;
               valid <- valid_number choice (Z.of_nat (List.length role_names)) ;;
               match valid with
               | Some idx =>
                   match nth_error role_names (Z.to_nat (idx - 1)) with
                   | Some rn => ret (inr rn)
                   | None => abort IndexError
                   end
               | None =>
                   slow_print
                     (Text "Invalid choice. Enter the number of your desired role.") ;;
                   ret (inl tt)
               end) tt)).
  { apply reads_first_loop; [unfold no_player; auto|].
    intros s. unfold bind, input. cbn.
    destruct (lines s) as [|l rest] eqn:El.
    - eexists; split; [reflexivity|]. repeat split; cbn; assumption.
    - rewrite valid_number_answers. unfold role_of.
      pose proof (number_in_nth l) as Hn.
      destruct (number_in _ l) as [idx| |].
      + specialize (Hn idx eq_refl).
        destruct (nth_error role_names (Z.to_nat (idx - 1))); [|congruence].
        eexists; split; [|split; [|reflexivity]]; [|reflexivity]. repeat split.
      + eexists; split; [|split; [|reflexivity]]; [|reflexivity]. repeat split.
      + eexists; split; [|split; [|reflexivity]]; [|reflexivity]. repeat split. }
  specialize (L c1). cbn [get_io console_Console] in L. rewrite H4 in L.
  assert (Ep : pick_role c
               = (fuel <- pending ;;
                  iterate fuel (fun _ : unit =>
                    choice <- input "> " ;;
                    valid <- valid_number choice (Z.of_nat (List.length role_names)) ;;
                    match valid with
                    | Some idx =>
                        match nth_error role_names (Z.to_nat (idx - 1)) with
                        | Some rn => ret (inr rn)
                        | None => abort IndexError
                        end
                    | None =>
                        slow_print
                          (Text "Invalid choice. Enter the number of your desired role.") ;;
                        ret (inl tt)
                    end) tt) c1).
  { unfold pick_role. unfold bind at 1 2. unfold slow_print at 1, modify.
    rewrite E. reflexivity. }
  rewrite Ep.
  revert L. destruct (first_accepted role_of (lines c)) as [[a rest]|];
    intros (c' & L & (_ & H5 & H6) & H7); exists c';
    (split; [exact L|split; [|assumption]]);
    repeat split; cbn in *; congruence.
Qed.

Lemma first_accepted_some {A} (accept : line -> answer A) ls a rest :
  first_accepted accept ls = Some (a, rest) -> exists l, accept l = Taken a.
Proof.
  induction ls as [|l ls IH]; cbn [first_accepted]; [discriminate|].
  destruct (accept l) as [a'| |] eqn:E; [|exact IH|discriminate].
  intros [= <- _]. exists l. exact E.
Qed.

Lemma first_accepted_none {A} (accept : line -> answer A) ls :
  (forall l a, accept l <> Taken a) -> first_accepted accept ls = None.
Proof.
  intros H. induction ls as [|l ls IH]; cbn [first_accepted]; [reflexivity|].
  destruct (accept l) as [a| |] eqn:E; [elim (H l a E)|exact IH|reflexivity].
Qed.

(** A loop that gives up does so at the end of the input, nothing left to
    read, or at a line that [int()] does not read. *)
Lemma gives_up_how {A} (accept : line -> answer A) ls :
  gives_up accept ls = (EOFError, []) \/
  (fst (gives_up accept ls) = ValueError /\
   exists l, In l ls /\ accept l = Unread).
Proof.
  induction ls as [|l ls IH]; cbn [gives_up]; [left; reflexivity|].
  destruct (accept l) eqn:E;
    try (destruct IH as [IH|(IH & l' & Hl & Hu)];
         [left; exact IH|right; split; [exact IH|exists l'; split; [right|]; assumption]]).
  right. split; [reflexivity|]. exists l. split; [left; reflexivity|exact E].
Qed.

Lemma choice_of_range n l a : choice_of n l = Taken a -> 0 <= a < n.
Proof.
  unfold choice_of. destruct (number_in n l) as [idx| |] eqn:E; try discriminate.
  apply number_in_range in E. intros [= <-]. lia.
Qed.

Lemma missions_of_range l n : missions_of l = Taken n -> 1 <= n <= 10.
Proof.
  unfold missions_of. destruct (String.eqb _ _).
  - intros [= <-]. lia.
  - apply number_in_range.
Qed.

(** A loop that reads up to the first line it accepts, as a [wp]. *)
Lemma wp_reads_first {A} (accept : line -> answer A) (m : M world A)
      (Q : A -> world -> Prop) (E : error -> world -> Prop) w :
  reads_first same_player accept m ->
  (forall a w', (exists l, accept l = Taken a) ->
                only_console same_player w w' -> Q a w') ->
  (forall w', only_console same_player w w' -> lines (io w') = [] ->
              E EOFError w') ->
  (forall w', only_console same_player w w' ->
              (exists l, In l (lines (io w)) /\ accept l = Unread) ->
              E ValueError w') ->
  wp m Q E w.
Proof.
  intros Hm HQ HE HV. specialize (Hm w). unfold wp.
  destruct (first_accepted accept (lines (get_io w))) as [[a rest]|] eqn:Ef;
    destruct Hm as (w' & -> & Ho & Hl).
  - apply HQ; [eapply first_accepted_some, Ef|exact Ho].
  - destruct (gives_up_how accept (lines (get_io w))) as [Hg|(Hg & Hu)].
    + rewrite Hg in *. apply HE; assumption.
    + rewrite Hg. apply HV; assumption.
Qed.
(** ** What is printed where, and what comes into the inventory

    The closure argument once more, with the inventory changed only the
    way the game changes it, and with the lines that belong to the code
    above the encounters. *)

Lemma barred_incl (ss ss' : list string) m :
  incl ss' ss -> barred ss m = false -> barred ss' m = false.
Proof.
  destruct m; simpl; auto. intros Hi Hb.
  destruct (existsb (String.eqb s) ss') eqn:E; [|reflexivity].
  apply existsb_exists in E. destruct E as (x & Hx & Hs).
  rewrite <- Hb. symmetry. apply existsb_exists. exists x. auto.
Qed.

Lemma stable_random_choice_in {St A B} `{Console St} (V : msg -> bool) (P : St -> Prop)
      (seq : list A) (k : A -> M St B) :
  console_closed V P ->
  (forall x, In x seq -> stable P (k x)) -> stable P (bind (random_choice seq) k).
Proof.
  intros HC Hk s Hs. pose proof (cc_advance HC _ Hs) as Ha.
  unfold random_choice, random_random, bind.
  match goal with
  | |- context [nth_error seq ?n] => destruct (nth_error seq n) as [x|] eqn:E
  end; simpl; [|exact Ha].
  apply (Hk x); [eapply nth_error_In, E|exact Ha].
Qed.

Create HintDb kept.

Section Kept.
Variables (V : msg -> bool) (P : world -> Prop).
Hypothesis HC : console_closed V P.
Hypothesis HG : gear_closed P.

Lemma kept_set_hp g : stable P (update_player (fun p => set_hp (g p) p)).
Proof. intros w Hw. apply (gc_hp HG), Hw. Qed.

Lemma kept_inventory_append item :
  findable item = true -> stable P (inventory_append item).
Proof. intros Hf w Hw. apply (gc_found HG); assumption. Qed.

Lemma kept_pack_used :
  stable P (update_player (fun p => set_inventory (remove_item "Med Pack" (inventory p)) p)).
Proof. intros w Hw. apply (gc_pack_used HG), Hw. Qed.

Lemma kept_heal_spent :
  stable P (update_player (fun p => set_mission_heals (mission_heals p - 1) p)).
Proof. intros w Hw. apply (gc_heal_spent HG), Hw. Qed.

Lemma kept_shot_used : stable P (update_player (set_sniper_special_used true)).
Proof. intros w Hw. apply (gc_shot_used HG), Hw. Qed.

Lemma kept_dead : stable P (update_player (set_alive false)).
Proof. intros w Hw. apply (gc_dead HG), Hw. Qed.

Ltac keep HV :=
  repeat match goal with
    | |- stable _ (ret _) => apply stable_ret
    | |- stable _ (abort _) => apply stable_abort
    | |- stable _ get_player => apply stable_gets
    | |- stable _ pending => apply stable_pending
    | |- stable _ divider => apply (stable_slow_print HC); side HV
    | |- stable _ (slow_print _) => apply (stable_slow_print HC); side HV
    | |- stable _ (roll _) => apply (stable_roll HC)
    | |- stable _ (random_randint _ _) => apply (stable_random_randint HC)
    | |- stable _ (choose _ _) => apply (stable_choose HC); side HV
    | |- stable _ (inventory_append _) =>
        apply kept_inventory_append;
        first [ reflexivity
              | match goal with
                | Hx : In ?x _ |- findable ?x = true =>
                    simpl in Hx;
                    repeat (destruct Hx as [Hx|Hx]; [subst; reflexivity|]);
                    contradiction
                end ]
    | |- stable _ (update_player _) =>
        first [ apply kept_set_hp | apply kept_pack_used
              | apply kept_heal_spent | apply kept_shot_used
              | apply kept_dead
              | match goal with Hm : completed_closed _ |- _ =>
                  let w := fresh "w" in let Hw := fresh "Hw" in
                  intros w Hw; apply Hm, Hw
                end ]
    | |- stable _ (and_then _ _) => apply stable_and_then
    | |- stable _ (or_else _ _) => apply stable_or_else
    | |- stable _ (if _ then _ else _) => apply stable_if
    | |- stable _ (match ?x with _ => _ end) => destruct x
    | |- stable _ (let _ := _ in _) => cbv zeta
    | |- stable _ (iterate _ _ _) => apply stable_iterate; intro
    | |- stable _ (bind (random_choice _) _) =>
        eapply stable_random_choice_in; [exact HC|]; intros ? ?
    | |- stable _ (bind _ _) => apply stable_bind; [|intro]
    | |- stable _ _ => solve [auto with kept nocore]
    end.

Section Fight.
Hypothesis HV : forall m, barred after_encounters m = false -> V m = true.

Lemma kept_show_status : stable P show_status.
Proof. unfold show_status. keep HV. Qed.

Lemma kept_take_damage amount : stable P (take_damage amount).
Proof. unfold take_damage. keep HV. Qed.

Lemma kept_heal amount : stable P (heal amount).
Proof. unfold heal. keep HV. Qed.

#[local] Hint Resolve kept_show_status kept_take_damage kept_heal : kept.

Lemma kept_use_special enemy_hp : stable P (use_special enemy_hp).
Proof. unfold use_special. keep HV. Qed.

Lemma kept_enemy_counterattack d e : stable P (enemy_counterattack d e).
Proof. unfold enemy_counterattack. keep HV. Qed.

#[local] Hint Resolve kept_use_special kept_enemy_counterattack : kept.

Lemma kept_cover_or_shoot d a e : stable P (cover_or_shoot d a e).
Proof. unfold cover_or_shoot. keep HV. Qed.

#[local] Hint Resolve kept_cover_or_shoot : kept.

Lemma kept_combat_round d e r : stable P (combat_round d e r).
Proof. unfold combat_round. keep HV. Qed.

Lemma kept_post_combat d : stable P (post_combat d).
Proof. unfold post_combat. keep HV. Qed.

#[local] Hint Resolve kept_combat_round kept_post_combat : kept.

Lemma kept_combat_loop d st : stable P (combat_loop d st).
Proof. unfold combat_loop. keep HV. Qed.

#[local] Hint Resolve kept_combat_loop : kept.

Lemma kept_combat_encounter d : stable P (combat_encounter d).
Proof. unfold combat_encounter. keep HV. Qed.

#[local] Hint Resolve kept_combat_encounter : kept.

Lemma kept_village_checkpoint : stable P village_checkpoint.
Proof. unfold village_checkpoint. keep HV. Qed.

Lemma kept_mountain_pass : stable P mountain_pass.
Proof. unfold mountain_pass. keep HV. Qed.

Lemma kept_abandoned_base : stable P abandoned_base.
Proof. unfold abandoned_base. keep HV. Qed.

Lemma kept_night_raze : stable P night_raze.
Proof. unfold night_raze. keep HV. Qed.

Lemma kept_convoy_ambush : stable P convoy_ambush.
Proof. unfold convoy_ambush. keep HV. Qed.

(** An encounter drawn from [ENCOUNTERS] is one of the five: the menu has
    a branch for it. *)
Lemma kept_encounter_menu_drawn e : In e ENCOUNTERS -> stable P (encounter_menu e).
Proof.
  pose proof kept_village_checkpoint. pose proof kept_mountain_pass.
  pose proof kept_abandoned_base. pose proof kept_night_raze.
  pose proof kept_convoy_ambush.
  intros He. simpl in He.
  repeat (destruct He as [He|He]; [subst e|]); [..|contradiction];
    unfold encounter_menu; eval_eqb; keep HV; assumption.
Qed.
End Fight.

Section Menu.
Hypothesis HV : forall m, barred after_menu m = false -> V m = true.

Lemma fight_in_menu : forall m, barred after_encounters m = false -> V m = true.
Proof.
  intros m Hm. apply HV. revert Hm. apply barred_incl.
  unfold after_menu, after_encounters. auto using incl_tl, incl_refl.
Qed.

Lemma kept_encounter_menu e : stable P (encounter_menu e).
Proof.
  pose proof (kept_village_checkpoint fight_in_menu).
  pose proof (kept_mountain_pass fight_in_menu).
  pose proof (kept_abandoned_base fight_in_menu).
  pose proof (kept_night_raze fight_in_menu).
  pose proof (kept_convoy_ambush fight_in_menu).
  unfold encounter_menu. keep HV; assumption.
Qed.
End Menu.

Section Sequence.
Hypothesis HV : forall m, barred after_missions m = false -> V m = true.
Hypothesis HM : completed_closed P.

Lemma fight_in_sequence : forall m, barred after_encounters m = false -> V m = true.
Proof.
  intros m Hm. apply HV. revert Hm. apply barred_incl.
  unfold after_missions, after_encounters. intros x [<-|Hx]; simpl; auto.
Qed.

Lemma kept_mission i n : stable P (mission i n).
Proof.
  pose proof (kept_heal fight_in_sequence 1).
  pose proof (kept_encounter_menu_drawn fight_in_sequence).
  unfold mission. keep HV; auto.
Qed.

Lemma kept_mission_loop n : forall i missions, stable P (mission_loop n i missions).
Proof.
  induction n as [|n IH]; intros i missions; simpl.
  - keep HV.
  - apply stable_bind; [apply kept_mission|].
    intros [b|]; [apply stable_ret|apply IH].
Qed.

Lemma kept_play_mission_sequence missions : stable P (play_mission_sequence missions).
Proof. apply kept_mission_loop. Qed.
End Sequence.

Section Closing.
Hypothesis HV : forall m, V m = true.
Hypothesis HM : completed_closed P.

Lemma kept_resolve v : stable P (resolve v).
Proof. unfold resolve. keep HV. Qed.

Lemma kept_final_resolution : stable P final_resolution.
Proof. pose proof kept_resolve. unfold final_resolution. keep HV. Qed.

Lemma kept_summary : stable P summary.
Proof. unfold summary. keep HV. Qed.

Lemma kept_campaign missions : stable P (campaign missions).
Proof.
  pose proof kept_final_resolution. pose proof kept_summary.
  assert (stable P (play_mission_sequence missions))
    by (apply kept_play_mission_sequence; auto).
  unfold campaign. keep HV; assumption.
Qed.
End Closing.
End Kept.

(** *** Instances *)

Lemma has_item_app x inv y :
  has_item x (inv ++ [y]) = has_item x inv || String.eqb x y.
Proof. unfold has_item. rewrite existsb_app. simpl. now rewrite orb_false_r. Qed.

Lemma has_item_remove x y inv :
  String.eqb x y = false -> has_item x (remove_item y inv) = has_item x inv.
Proof.
  intros Hxy. induction inv as [|z inv IH]; simpl; [reflexivity|].
  destruct (String.eqb_spec y z) as [<-|Hz].
  - now rewrite Hxy.
  - simpl. now rewrite IH.
Qed.

Lemma lasting_remove inv : lasting (remove_item "Med Pack" inv) = lasting inv.
Proof.
  unfold lasting. induction inv as [|z inv IH]; cbn [remove_item filter]; [reflexivity|].
  destruct (String.eqb_spec "Med Pack" z) as [<-|Hz]; [reflexivity|].
  cbn [filter]. now rewrite IH.
Qed.

Lemma lasting_app inv x : lasting (inv ++ [x]) = (lasting inv ++ lasting [x])%list.
Proof. apply filter_app. Qed.

Lemma findable_lasting x : findable x = true -> forallb findable (lasting [x]) = true.
Proof.
  intros Hx. unfold lasting. simpl. destruct (negb _); simpl; [now rewrite Hx|reflexivity].
Qed.

Lemma radio_console : console_closed everything radio_with_intel.
Proof. split; auto. Qed.

Lemma radio_gear : gear_closed radio_with_intel.
Proof.
  split; unfold radio_with_intel; intros; wcbn; auto.
  - rewrite has_item_app.
    match goal with H : _ = _ |- _ => rewrite H end.
    replace (String.eqb "Encrypted Radio" x) with false; [apply orb_false_r|].
    symmetry. destruct (String.eqb_spec "Encrypted Radio" x) as [<-|]; [discriminate|reflexivity].
  - rewrite has_item_remove by reflexivity. assumption.
Qed.

Lemma radio_completed : completed_closed radio_with_intel.
Proof. intros v w H; exact H. Qed.

Lemma grown_console w0 : console_closed everything (gear_grown w0).
Proof. split; auto. Qed.

Lemma grown_gear w0 : gear_closed (gear_grown w0).
Proof.
  split; unfold gear_grown; intros; wcbn; auto.
  - destruct H0 as (added & E & F). exists (added ++ lasting [x])%list. split.
    + rewrite lasting_app, E. now rewrite app_assoc.
    + rewrite forallb_app, F. now apply findable_lasting.
  - destruct H as (added & E & F). exists added. now rewrite lasting_remove.
Qed.

Lemma grown_completed w0 : completed_closed (gear_grown w0).
Proof. intros v w H; exact H. Qed.

Lemma grown_refl w : gear_grown w w.
Proof. exists []. now rewrite app_nil_r. Qed.

(** ** Completed missions and the unknown mission type *)

Lemma is_text_barred ss s m : In s ss -> barred ss m = false -> is_text s m = false.
Proof.
  destruct m; simpl; auto. intros Hs Hb.
  destruct (String.eqb_spec s0 s) as [->|]; [|reflexivity].
  rewrite <- Hb. symmetry. apply existsb_exists. exists s. split; [exact Hs|].
  apply String.eqb_refl.
Qed.

Lemma unheard_console ss o0 : console_closed (allowed ss) (unheard ss o0).
Proof.
  split; unfold unheard, allowed; intros; wcbn; auto.
  cbn [count_text].
  match goal with
  | Hb : negb _ = true, Hs : In ?x ss |- _ =>
      apply negb_true_iff in Hb; rewrite (is_text_barred _ _ _ Hs Hb)
  end.
  cbn [Nat.add]. auto.
Qed.

Lemma unheard_gear ss o0 : gear_closed (unheard ss o0).
Proof. split; intros; assumption. Qed.

Lemma unheard_completed ss o0 : completed_closed (unheard ss o0).
Proof. intros v w H; exact H. Qed.

Lemma unheard_refl ss w : unheard ss (out (io w)) w.
Proof. intros s _. reflexivity. Qed.

Lemma allowed_incl ss ss' m : incl ss' ss -> barred ss m = false -> allowed ss' m = true.
Proof. intros Hi Hb. unfold allowed. now rewrite (barred_incl _ Hi Hb). Qed.

Lemma completed_gear k : gear_closed (completed_is k).
Proof. split; intros; assumption. Qed.

Lemma wp_random_choice_mem {St A} `{Console St} (seq : list A) Q
      (E : error -> St -> Prop) s :
  (forall x, In x seq -> Q x (put_io (advance (get_io s)) s)) ->
  E IndexError (put_io (advance (get_io s)) s) ->
  wp (random_choice seq) Q E s.
Proof.
  intros HQ HE. unfold random_choice. apply wp_bind. unfold wp at 1.
  cbn [random_random].
  destruct (nth_error seq _) as [x|] eqn:Hn; [|apply HE].
  apply wp_ret, HQ. eapply nth_error_In, Hn.
Qed.

(** What a drawn encounter leaves alone. *)
Lemma encounter_menu_drawn_effect e w :
  In e ENCOUNTERS ->
  wp (encounter_menu e)
     (fun _ w' => unheard after_encounters (out (io w)) w' /\
                  missions_completed (player w') = missions_completed (player w))
     (fun _ w' => unheard after_encounters (out (io w)) w' /\
                  missions_completed (player w') = missions_completed (player w)) w.
Proof.
  intros He.
  assert (Hu : unheard after_encounters (out (io w)) (final (encounter_menu e w))).
  { apply (kept_encounter_menu_drawn (unheard_console _ _) (unheard_gear _ _));
      [|exact He|apply unheard_refl].
    intros m. apply allowed_incl, incl_refl. }
  assert (Hk : missions_completed (player (final (encounter_menu e w)))
               = missions_completed (player w)).
  { apply (kept_encounter_menu_drawn (completed_console _) (completed_gear _));
      [reflexivity|exact He|reflexivity]. }
  unfold wp. destruct (encounter_menu e w); simpl in *; auto.
Qed.

Ltac tally_leaf :=
  unfold accounted, tally, unheard in *; wcbn;
  repeat match goal with
         | H : _ /\ _ |- _ => destruct H
         | H : forall s, In s after_encounters -> _ |- _ =>
             pose proof (H unknown_text (or_introl eq_refl));
             pose proof (H accomplished_text (or_intror (or_introl eq_refl)));
             clear H
         end;
  cbn [count_text is_text] in *; unfold accomplished_text, unknown_text in *; eval_eqb;
  cbn [Nat.add] in *;
  solve [ repeat split; (congruence || lia) ].

Lemma mission_accounted i n w :
  wp (mission i n) (fun _ w' => accounted 1 w w') (fun _ w' => accounted 1 w w') w.
Proof.
  unfold mission, heal.
  do 2 (wp_step idtac; wcbn).
  do 2 (wp_step idtac; wcbn).
  apply wp_bind, wp_random_choice_mem; [intros e He|tally_leaf].
  apply wp_bind. eapply wp_mono; [apply encounter_menu_drawn_effect, He| |];
    cbv beta; intros ? ? ?; [|tally_leaf].
  ex_steps; try solve [tally_leaf].
Qed.

Lemma accounted_trans a b w0 w1 w2 :
  accounted a w0 w1 -> accounted b w1 w2 -> accounted (a + b) w0 w2.
Proof. unfold accounted. intros (? & ? & ?) (? & ? & ?). repeat split; try congruence; lia. Qed.

Lemma mission_loop_accounted n :
  forall i missions w,
    wp (mission_loop n i missions)
       (fun _ w' => accounted (Z.of_nat n) w w')
       (fun _ w' => accounted (Z.of_nat n) w w') w.
Proof.
  induction n as [|n IH]; intros i missions w; cbn [mission_loop].
  - ex_steps. unfold accounted. repeat split; lia.
  - assert (Hw : forall w1, accounted 1 w w1 -> accounted (Z.of_nat (S n)) w w1).
    { unfold accounted. intros w1 (? & ? & ?). repeat split; auto; lia. }
    apply wp_bind. eapply wp_mono; [apply mission_accounted| |auto].
    cbv beta. intros [b|] w1 H1; [apply wp_ret; auto|].
    eapply wp_mono; [apply IH| |];
      cbv beta; intros ? w2 H2;
      replace (Z.of_nat (S n)) with (1 + Z.of_nat n) by lia;
      eapply accounted_trans; eassumption.
Qed.

Lemma closing_sequence m : barred after_missions m = false -> allowed closing_texts m = true.
Proof. apply allowed_incl. unfold after_missions. auto using incl_tl, incl_refl. Qed.

Lemma play_mission_sequence_spec missions w :
  wp (play_mission_sequence missions)
     (fun b w' => accounted (Z.max 0 missions) w w' /\
                  unheard closing_texts (out (io w)) w' /\
                  alive (player w') = b)
     (fun _ w' => accounted (Z.max 0 missions) w w' /\
                  unheard closing_texts (out (io w)) w') w.
Proof.
  pose proof (mission_loop_accounted (Z.to_nat missions) 1 missions w) as Ha.
  assert (Hu : unheard closing_texts (out (io w))
                 (final (play_mission_sequence missions w))).
  { apply (kept_play_mission_sequence (unheard_console _ _) (unheard_gear _ _)
             closing_sequence (@unheard_completed _ _)).
    apply unheard_refl. }
  pose proof (play_mission_sequence_effect missions w) as He.
  replace (Z.of_nat (Z.to_nat missions)) with (Z.max 0 missions) in Ha by lia.
  unfold play_mission_sequence, wp in *.
  destruct (mission_loop _ _ _ _) as [[|] w'|]; simpl in *; intuition.
Qed.

(** ** The closing lines of a campaign *)

Ltac closing_texts_unfold :=
  unfold game_over_text, congratulations_text, remembered_text, survived_text,
    deceased_text, accomplished_text, unknown_text in *.

Ltac closing_leaf :=
  unfold accounted, tally, closing, unheard in *; wcbn;
  repeat match goal with
         | H : _ /\ _ |- _ => destruct H
         | H : forall s, In s closing_texts -> _ |- _ =>
             pose proof (H game_over_text (or_introl eq_refl));
             pose proof (H congratulations_text (or_intror (or_introl eq_refl)));
             pose proof (H remembered_text (or_intror (or_intror (or_introl eq_refl))));
             pose proof (H survived_text
                           (or_intror (or_intror (or_intror (or_introl eq_refl)))));
             pose proof (H deceased_text
                           (or_intror (or_intror (or_intror (or_intror (or_introl eq_refl))))));
             clear H
         | H : negb _ = true |- _ => apply negb_true_iff in H
         | H : negb _ = false |- _ => apply negb_false_iff in H
         end;
  repeat match goal with
         | H : true = ?a |- _ => subst a
         | H : false = ?a |- _ => subst a
         | H : ?a = true |- _ => is_var a; subst a
         | H : ?a = false |- _ => is_var a; subst a
         end;
  cbn [negb orb] in *; try discriminate;
  unfold closing_texts in *;
  cbn [map count_text is_text] in *; closing_texts_unfold; eval_eqb;
  cbn [Nat.add] in *;
  repeat match goal with
         | H : _ :: _ = _ :: _ |- _ => injection H as ? H
         end;
  try solve [ repeat split; (congruence || lia) ].

Lemma campaign_accounted missions w :
  accounted (Z.max 0 missions) w (final (campaign missions w)).
Proof.
  apply final_wp.
  pose proof play_mission_sequence_spec.
  unfold campaign, final_resolution, resolve, summary.
  ex_steps; closing_leaf.
Qed.

(** ** What the answer of an encounter says *)

Lemma wp_any {St A} (m : M St A) (s : St) : wp m (fun _ _ => True) (fun _ _ => True) s.
Proof. unfold wp. destruct (m s); exact I. Qed.

(** A computation that works on the console alone leaves the player as it
    was. *)
Lemma wp_same_player {A} (m : M world A) Q (E : error -> world -> Prop) w :
  (forall P, console_closed everything P -> stable P m) ->
  (forall a c, Q a (set_io c w)) ->
  (forall e c, E e (set_io c w)) ->
  wp m Q E w.
Proof.
  intros Hm HQ HE.
  assert (HC : console_closed everything (fun s : world => player s = player w))
    by (split; auto).
  pose proof (Hm _ HC w eq_refl) as Hp.
  unfold wp. destruct (m w) as [a [p c]|e [p c]]; simpl in *; subst p.
  - apply (HQ a c).
  - apply (HE e c).
Qed.

Lemma wp_choose_same_player prompt options Q (E : error -> world -> Prop) w :
  (forall a c, Q a (set_io c w)) ->
  (forall e c, E e (set_io c w)) ->
  wp (choose prompt options) Q E w.
Proof.
  apply wp_same_player. intros P HC. apply (stable_choose HC). reflexivity.
Qed.

Ltac vd_leaf :=
  unfold living, of_round, of_loop, unharmed in *; wcbn;
  repeat match goal with
         | H : (_ && _)%bool = true |- _ => apply andb_true_iff in H; destruct H
         end;
  try solve [ exact I | assumption | reflexivity | congruence ].

Ltac vd_calls :=
  lazymatch goal with
  | |- wp (random_choice _) _ _ _ => apply wp_random_choice; [intro|]
  | |- wp (choose _ _) _ _ _ => apply wp_choose_same_player; intros ? ?
  | |- wp (take_damage _) _ _ _ =>
      eapply wp_mono; [apply wp_any|cbv beta; intros ? ? _|auto]
  | |- wp ?m _ _ _ =>
      let h := head_of m in
      match goal with
      | H : context [h] |- _ =>
          eapply wp_mono;
          [ apply H; vd_leaf | cbv beta; intros ? ? ? | cbv beta; intros ? ? ?; exact I ]
      end
  end.

Ltac vd_run :=
  intros w Hl; repeat (wp_step ltac:(idtac; vd_calls); wcbn); vd_leaf.

Lemma use_special_tells_alive e : tells_alive unharmed (use_special e).
Proof. unfold use_special, heal. vd_run. Qed.

Lemma enemy_counterattack_tells_alive d e :
  tells_alive of_round (enemy_counterattack d e).
Proof. unfold enemy_counterattack. vd_run. Qed.

Lemma cover_or_shoot_tells_alive d a e : tells_alive of_round (cover_or_shoot d a e).
Proof. pose proof enemy_counterattack_tells_alive. unfold cover_or_shoot. vd_run. Qed.

Lemma combat_round_tells_alive d e r : tells_alive of_round (combat_round d e r).
Proof.
  pose proof use_special_tells_alive. pose proof cover_or_shoot_tells_alive.
  unfold combat_round, show_status. vd_run.
Qed.

Lemma post_combat_tells_alive d w :
  wp (post_combat d) (fun b w' => alive (player w') = b) (fun _ _ => True) w.
Proof. unfold post_combat, inventory_append. repeat (wp_step ltac:(idtac; vd_calls); wcbn); vd_leaf. Qed.

Lemma combat_loop_tells_alive d st w :
  wp (combat_loop d st)
     (fun r w' => match of_loop r with
                  | Some b => alive (player w') = b
                  | None => True
                  end)
     (fun _ _ => True) w.
Proof.
  pose proof combat_round_tells_alive. pose proof post_combat_tells_alive.
  unfold combat_loop. destruct st as [enemy_hp rounds].
  repeat (wp_step ltac:(idtac; vd_calls); wcbn); vd_leaf.
Qed.

Lemma combat_encounter_tells_alive d : tells_alive Some (combat_encounter d).
Proof.
  unfold combat_encounter. intros w Hl.
  repeat (wp_step ltac:(idtac; vd_calls); wcbn); vd_leaf.
  apply wp_iterate with (I := fun _ _ => True); auto.
  intros st s _. eapply wp_mono; [apply combat_loop_tells_alive| |auto].
  intros [st1|res]; simpl; auto.
Qed.

Lemma village_checkpoint_tells_alive : tells_alive Some village_checkpoint.
Proof.
  pose proof combat_encounter_tells_alive.
  unfold village_checkpoint, inventory_append. vd_run.
Qed.

Lemma mountain_pass_tells_alive : tells_alive Some mountain_pass.
Proof.
  pose proof combat_encounter_tells_alive.
  unfold mountain_pass, inventory_append. vd_run.
Qed.

Lemma abandoned_base_tells_alive : tells_alive Some abandoned_base.
Proof.
  pose proof combat_encounter_tells_alive.
  unfold abandoned_base, inventory_append. vd_run.
Qed.

Lemma night_raze_tells_alive : tells_alive Some night_raze.
Proof.
  pose proof combat_encounter_tells_alive.
  unfold night_raze, inventory_append. vd_run.
Qed.

Lemma convoy_ambush_tells_alive : tells_alive Some convoy_ambush.
Proof.
  pose proof combat_encounter_tells_alive.
  unfold convoy_ambush, inventory_append. vd_run.
Qed.

Lemma encounter_menu_tells_alive e : tells_alive Some (encounter_menu e).
Proof.
  pose proof village_checkpoint_tells_alive. pose proof mountain_pass_tells_alive.
  pose proof abandoned_base_tells_alive. pose proof night_raze_tells_alive.
  pose proof convoy_ambush_tells_alive.
  unfold encounter_menu. vd_run.
Qed.

(** ** Paths on which nothing is rolled *)

(** [choose] at an input whose first valid line is known. *)
Lemma wp_choose_first prompt options Q (E : error -> world -> Prop) w a rest :
  first_accepted (choice_of (Z.of_nat (List.length options))) (lines (io w))
  = Some (a, rest) ->
  (forall c, rng c = rng (io w) -> cursor c = cursor (io w) -> lines c = rest ->
             Q a (set_io c w)) ->
  wp (choose prompt options) Q E w.
Proof.
  intros Hf HQ. pose proof (choose_reads_first prompt options w) as H.
  cbn [get_io world_Console] in H. rewrite Hf in H.
  destruct H as (w' & Hr & (Hp & Hg & Hc) & Hl).
  unfold wp. rewrite Hr. destruct w' as [p c]. unfold same_player in Hp.
  cbn in Hp, Hg, Hc, Hl. subst p. apply (HQ c); assumption.
Qed.

Ltac sure_calls :=
  lazymatch goal with
  | H : first_accepted _ _ = Some _ |- wp (choose _ _) _ _ _ =>
      eapply wp_choose_first; [exact H|intros ? ? ? ?]
  end.

Ltac sure_run :=
  repeat (wp_step ltac:(idtac; sure_calls); wcbn);
  try discriminate;
  repeat match goal with
         | H : (_ =? _) = true |- _ => apply Z.eqb_eq in H
         | H : (_ =? _) = false |- _ => apply Z.eqb_neq in H
         | H : (_ || _)%bool = false |- _ => apply orb_false_iff in H; destruct H
         | H : (_ && _)%bool = true |- _ => apply andb_true_iff in H; destruct H
         end;
  try congruence; try lia.

Lemma remove_item_length x inv :
  has_item x inv = true ->
  (List.length (remove_item x inv) + 1 = List.length inv)%nat.
Proof.
  unfold has_item. induction inv as [|z inv IH]; cbn [existsb remove_item List.length].
  - discriminate.
  - destruct (String.eqb x z); cbn [orb List.length]; [lia|].
    intros H. specialize (IH H). lia.
Qed.

(** *** The doubles that [roll] compares with *)

Lemma percentages_in pct : 0 <= pct <= 100 -> In pct percentages.
Proof.
  intros H. unfold percentages. rewrite <- (Z2Nat.id pct) by lia.
  apply in_map, in_seq. lia.
Qed.

Lemma percentages_close : forallb close percentages = true.
Proof. vm_compute. reflexivity. Qed.

Lemma percentages_rising : forallb rising percentages = true.
Proof. vm_compute. reflexivity. Qed.

Lemma threshold_rises p q : 0 <= p <= q -> q <= 100 -> (threshold p <= threshold q)%Q.
Proof.
  assert (H : forall n, 0 <= p -> p + Z.of_nat n <= 100 ->
                        (threshold p <= threshold (p + Z.of_nat n))%Q).
  { induction n as [|n IH]; intros Hp Hn.
    - rewrite Z.add_0_r. apply Qle_refl.
    - eapply Qle_trans; [apply IH; lia|].
      pose proof percentages_rising as Hr. rewrite forallb_forall in Hr.
      assert (Hi : 0 <= p + Z.of_nat n <= 100) by lia.
      specialize (Hr _ (percentages_in Hi)). apply Qle_bool_iff in Hr.
      replace (p + Z.of_nat (S n)) with (p + Z.of_nat n + 1) by lia. exact Hr. }
  intros Hp Hq. replace q with (p + Z.of_nat (Z.to_nat (q - p))) by lia.
  apply H; lia.
Qed.

Lemma Qltb_lt x y : Qltb x y = true <-> (x < y)%Q.
Proof. unfold Qltb, Qlt. apply Z.ltb_lt. Qed.

Lemma below_threshold u pct :
  0 <= pct <= 100 -> below u (percent pct) = Qltb u (threshold pct).
Proof.
  intros H. pose proof percentages_close as Hc.
  rewrite forallb_forall in Hc. specialize (Hc pct (percentages_in H)).
  unfold close, threshold in *.
  destruct (percent pct) as [[|]|[|]| |[|] m e]; try discriminate; reflexivity.
Qed.

Lemma threshold_close pct :
  0 <= pct <= 100 ->
  (threshold pct - inject_Z pct / inject_Z 100 <= 1 # 2 ^ 54)%Q /\
  (inject_Z pct / inject_Z 100 - threshold pct <= 1 # 2 ^ 54)%Q.
Proof.
  intros H. pose proof percentages_close as Hc.
  rewrite forallb_forall in Hc. specialize (Hc pct (percentages_in H)).
  unfold close in Hc.
  destruct (percent pct) as [[|]|[|]| |[|] m e]; try discriminate;
    apply andb_true_iff in Hc; destruct Hc as [H1 H2];
    apply Qle_bool_iff in H1, H2; split; assumption.
Qed.

(** *** A round of which the variates are followed *)

Ltac exact_step :=
  lazymatch goal with
  | |- wp (roll _) _ _ _ => apply wp_roll_exact
  | |- wp _ _ _ _ => wp_step ltac:(idtac; sure_calls)
  end.

Ltac exact_run :=
  repeat (exact_step; wcbn);
  try discriminate;
  repeat match goal with
         | H : (_ =? _) = true |- _ => apply Z.eqb_eq in H
         | H : (_ =? _) = false |- _ => apply Z.eqb_neq in H
         | H : (_ || _)%bool = false |- _ => apply orb_false_iff in H; destruct H
         | H : (_ && _)%bool = true |- _ => apply andb_true_iff in H; destruct H
         end;
  try congruence; try lia.

(** ** Hit points in a combat round *)

Ltac hp_leaf :=
  unfold hp_moved in *; wcbn;
  repeat match goal with
         | H : _ /\ _ |- _ => destruct H
         end;
  try lia.

Ltac hp_calls :=
  lazymatch goal with
  | |- wp (choose _ _) _ _ _ => apply wp_choose_same_player; intros ? ?
  | |- wp ?m _ _ _ =>
      let h := head_of m in
      match goal with
      | H : context [h] |- _ =>
          eapply wp_mono;
          [ apply H; hp_leaf | cbv beta; intros ? ? ? | cbv beta; intros ? ? ? ]
      end
  end.

Ltac hp_run := repeat (wp_step ltac:(idtac; hp_calls); wcbn); hp_leaf.

Lemma enemy_counterattack_hp d e w :
  wp (enemy_counterattack d e) (fun _ w' => hp_moved 1 0 w w')
     (fun _ w' => hp_moved 1 0 w w') w.
Proof. unfold enemy_counterattack, take_damage. hp_run. Qed.

Lemma cover_or_shoot_hp d a e w :
  wp (cover_or_shoot d a e) (fun _ w' => hp_moved 1 0 w w')
     (fun _ w' => hp_moved 1 0 w w') w.
Proof.
  pose proof enemy_counterattack_hp.
  unfold cover_or_shoot, take_damage. hp_run.
Qed.

Lemma use_special_hp e w :
  hp (player w) <= 3 ->
  wp (use_special e) (fun _ w' => hp_moved 0 1 w w') (fun _ w' => hp_moved 0 1 w w') w.
Proof. intros Hw. unfold use_special, heal. hp_run. Qed.

(* ================================================================== *)
(** * The claims *)
(* ================================================================== *)

(** C1.  Mountain Pass, option 0, a character who is not a Sniper, the 30%
    roll for sniper fire succeeding: the claim sends the character into
    combat at difficulty 2.  The code prints the sniper line and then runs
    on to the ration packs: here the roll succeeds (0.125 < 0.30) and the
    function returns success with the rations looted, no hit point lost, a
    single variate drawn and no combat opened. *)
Theorem mountain_pass_sniper_fire_falls_through :
  role (player at_the_pass) = Soldier /\
  next_roll 30 at_the_pass = true /\
  exists w',
    mountain_pass at_the_pass = Done true w' /\
    rev (out (io w'))
    = [Text "You face a narrow mountain pass — a perfect ambush site.";
       Text "Your strategy?";
       OptionLine 1 "Move quickly and stay low.";
       OptionLine 2 "Use a drone or radio to scout ahead.";
       OptionLine 3 "Let the Engineer inspect for traps.";
       Prompt "> ";
       Text sniper_fire_text;
       Text "You slip past quietly and find ration packs."] /\
    inventory (player w') = ["Standard Rifle"; "Combat Knife"; "Rations"] /\
    hp (player w') = 3 /\
    cursor (io w') = 1%nat /\
    count_text combat_text (out (io w')) = 0%nat.
Proof.
  split; [reflexivity|]. split; [reflexivity|].
  eexists. split; [vm_compute; reflexivity|].
  repeat split; reflexivity.
Qed.

(** C2.  A round in which the player picks special/item and none of the
    four options applies: the claim gives the player no shot in that round.
    The code prints the "no useful action" line and then runs the shooting
    logic: here a soldier with the starting inventory picks action 5 at
    difficulty 2, the shot of that round (variate 0, chance 40) hits, and
    the enemy goes from 2 hit points to 1 before the second round starts. *)
Theorem failed_special_still_shoots :
  next_roll 10 in_a_combat = false /\
  exists w',
    combat_encounter 2 in_a_combat = Done true w' /\
    rev (out (io w'))
    = [Divider; Text combat_text;
       RoundLine 1;
       StatusLine "Alex" Soldier 3 ["Standard Rifle"; "Combat Knife"];
       Text "Your move:";
       OptionLine 1 "Shoot left"; OptionLine 2 "Shoot center";
       OptionLine 3 "Shoot right"; OptionLine 4 "Take cover";
       OptionLine 5 "Attempt to flee"; OptionLine 6 "Use special/item";
       Prompt "> ";
       Text no_action_text;
       Text hit_text;
       DealtLine 1 1;
       Text "You duck just in time — no damage taken.";
       RoundLine 2;
       StatusLine "Alex" Soldier 3 ["Standard Rifle"; "Combat Knife"];
       Text "Your move:";
       OptionLine 1 "Shoot left"; OptionLine 2 "Shoot center";
       OptionLine 3 "Shoot right"; OptionLine 4 "Take cover";
       OptionLine 5 "Attempt to flee"; OptionLine 6 "Use special/item";
       Prompt "> ";
       Text hit_text;
       DealtLine 1 0;
       Text "Enemy neutralized. You survived the battle."] /\
    cursor (io w') = 5%nat.
Proof.
  split; [reflexivity|].
  eexists. split; [vm_compute; reflexivity|].
  split; reflexivity.
Qed.

(** C3.  Every call of the combat engine makes the 10% instant-fatal roll
    on the first variate it draws, before the loop.  When the roll
    succeeds the call returns [False] in a world that does not depend on
    the difficulty (the enemy's hit points are never set up): the player
    is dead, exactly one variate is drawn and no line of input is read.
    When it fails the call is the round loop, started with the enemy at
    [difficulty] hit points.  The fatal line is printed once when the roll
    succeeds and never otherwise: the loop does not make the check again. *)
Theorem combat_encounter_headshot_check (difficulty : Z) (w : world) :
  combat_encounter difficulty w
  = (if next_roll 10 w
     then Done false (shot_dead w)
     else iterate (S (List.length (lines (io w)))) (combat_loop difficulty)
            (difficulty, 0) (combat_opened w))
  /\ alive (player (shot_dead w)) = false
  /\ cursor (io (shot_dead w)) = S (cursor (io w))
  /\ lines (io (shot_dead w)) = lines (io w)
  /\ count_text fatal_text (out (io (final (combat_encounter difficulty w))))
     = (count_text fatal_text (out (io w)) + if next_roll 10 w then 1 else 0)%nat.
Proof.
  assert (Heq : combat_encounter difficulty w
    = (if next_roll 10 w
       then Done false (shot_dead w)
       else iterate (S (List.length (lines (io w)))) (combat_loop difficulty)
              (difficulty, 0) (combat_opened w))).
  { unfold next_roll.
    cbv [combat_encounter bind divider slow_print roll random_random ret modify
         update_player pending gets].
    cbn [get_io put_io world_Console set_io io print advance rng cursor lines].
    destruct (below _ _); reflexivity. }
  split; [exact Heq|]. repeat split.
  rewrite Heq. destruct (next_roll 10 w).
  - cbn. unfold fatal_text, combat_text. eval_eqb. cbn. lia.
  - rewrite Nat.add_0_r.
    transitivity (count_text fatal_text (out (io (combat_opened w)))).
    + apply (@stable_iterate _ (printed_times fatal_text _)); [|reflexivity].
      intros st.
      apply (stable_combat_loop (count_console fatal_text _) (count_player fatal_text _)).
      apply round_all_but_fatal.
    + cbn. unfold fatal_text, combat_text. eval_eqb. reflexivity.
Qed.

(** C4.  A new player has one heal charge if a Medic and none otherwise,
    and an unused sniper shot.  In every run of [main], whatever is typed
    and drawn, the Medic heal is narrated at most once and the Sniper shot
    at most once; the same holds for a campaign of any number of missions
    started by a fresh player.  No step of a campaign adds a heal charge or
    clears the mark of a used shot. *)
Theorem one_shot_abilities :
  (forall n r,
     mission_heals (Player_init n r) = (if role_eqb r Medic then 1 else 0) /\
     sniper_special_used (Player_init n r) = false) /\
  (forall rs ls,
     (count_text medic_text (out (final (main (start rs ls)))) <= 1)%nat /\
     (count_text sniper_text (out (final (main (start rs ls)))) <= 1)%nat) /\
  (forall n r rs ls missions,
     let w' := final (campaign missions (fresh n r rs ls)) in
     (count_text medic_text (out (io w')) <= 1)%nat /\
     (count_text sniper_text (out (io w')) <= 1)%nat) /\
  (forall missions w,
     let w' := final (campaign missions w) in
     mission_heals (player w') <= mission_heals (player w) /\
     Bool.le (sniper_special_used (player w)) (sniper_special_used (player w'))).
Proof.
  split; [|split; [|split]].
  - intros n r. split; reflexivity.
  - intros rs ls. destruct (main_log_ok rs ls) as (H1 & H2 & _). auto.
  - intros n r rs ls missions w'.
    destruct (Inv_log (campaign_Inv n r rs ls missions)) as (H1 & H2 & _). auto.
  - intros missions w w'. destruct (campaign_no_return missions w) as (_ & H1 & H2).
    auto.
Qed.

(** C5.  Once the player is dead, no operation of the game brings the
    player back: after a heal, a hit, a combat, an encounter, a mission
    sequence (with its Medic recovery), the final resolution, the summary,
    a whole campaign or the body of [main], however it ends, [alive] is
    still false. *)
Theorem death_is_permanent (w : world) :
  alive (player w) = false ->
  (forall amount, alive (player (final (heal amount w))) = false) /\
  (forall amount, alive (player (final (take_damage amount w))) = false) /\
  (forall difficulty, alive (player (final (combat_encounter difficulty w))) = false) /\
  (forall encounter, alive (player (final (encounter_menu encounter w))) = false) /\
  (forall missions, alive (player (final (play_mission_sequence missions w))) = false) /\
  alive (player (final (final_resolution w))) = false /\
  alive (player (final (summary w))) = false /\
  (forall missions, alive (player (final (campaign missions w))) = false) /\
  alive (player (final (main_body w))) = false.
Proof.
  intros Hd.
  repeat split; intros; apply dead_stays_dead; auto; intros w0;
    pose proof (no_return_console w0) as HC;
    pose proof (no_return_player w0) as HP;
    pose proof (@no_return_completed w0) as HM.
  - apply (stable_heal HC HP). reflexivity.
  - apply (stable_take_damage HC HP). reflexivity.
  - apply (stable_combat_encounter HC HP). reflexivity.
  - apply (stable_encounter_menu HC HP). reflexivity.
  - apply (stable_play_mission_sequence HC HP); auto.
  - apply (stable_final_resolution HC HP everything_holds).
  - apply (stable_summary HC everything_holds).
  - apply (stable_campaign HC HP everything_holds HM).
  - apply (stable_main_body HC HP everything_holds HM).
Qed.

Lemma death_is_permanent_witness :
  alive (player fallen) = false /\
  alive (player (final (heal 1 fallen))) = false /\
  alive (player (final (play_mission_sequence 2 fallen))) = false /\
  alive (player (final (final_resolution fallen))) = false.
Proof.
  pose proof (death_is_permanent fallen eq_refl) as H.
  split; [reflexivity|]. repeat split; apply H.
Defined.

(** C6.  [final_resolution] draws one number, which is between 1 and 100
    when the variate is in [0, 1).  The numbers 1 to 10 give instant death,
    11 to 55 the safe return, 56 to 100 death from injuries: 10, 45 and 45
    numbers.  [alive] is cleared on both deaths and left alone on the safe
    return.  Within a campaign the extraction line is printed exactly when
    the mission sequence returned [True] with the player alive, and the
    sequence returns [True] only with the player alive and every one of
    the missions counted as completed. *)
Theorem final_resolution_outcomes :
  (forall w,
     final_resolution w
     = resolve (1 + Qfloor (rng (io w) (cursor (io w)) * inject_Z 100))
               (extraction_begun w)) /\
  (forall u : Q, (0 <= u /\ u < 1)%Q -> 1 <= 1 + Qfloor (u * inject_Z 100) <= 100) /\
  (forall w,
     map (fun v => ending_of v w) (numbers 1 100)
     = (repeat (Some InstantDeath) 10 ++ repeat (Some SafeReturn) 45
        ++ repeat (Some InjuryDeath) 45)%list) /\
  (forall roll_val w,
     alive (player (final (resolve roll_val w)))
     = if (10 <? roll_val) && (roll_val <=? 55) then alive (player w) else false) /\
  (forall missions w,
     count_text extraction_text (out (io (final (campaign missions w))))
     = (count_text extraction_text (out (io w))
        + match play_mission_sequence missions w with
          | Done true w' => if alive (player w') then 1 else 0
          | _ => 0
          end)%nat) /\
  (forall missions w,
     match play_mission_sequence missions w with
     | Done true w' =>
         alive (player w') = true /\
         missions_completed (player w')
         = missions_completed (player w) + Z.max 0 missions
     | _ => True
     end).
Proof.
  split; [|split; [|split; [|split; [|split]]]].
  - intros w. reflexivity.
  - intros u Hu. pose proof (@scaled_index u 100 Hu). lia.
  - intros [p c]. vm_compute. reflexivity.
  - intros v w. unfold resolve.
    replace (10 <? v) with (negb (v <=? 10))
      by (rewrite Z.leb_antisym, negb_involutive; reflexivity).
    destruct (v <=? 10); [|destruct (v <=? 55)]; reflexivity.
  - apply campaign_extraction.
  - intros missions w. pose proof (play_mission_sequence_effect missions w) as H.
    destruct (play_mission_sequence missions w) as [[|] w'|]; auto.
Qed.

Lemma final_resolution_outcomes_witness :
  ((0 <= 1 # 2) /\ (1 # 2) < 1)%Q /\
  1 <= 1 + Qfloor ((1 # 2) * inject_Z 100) <= 100.
Proof.
  assert (Hu : ((0 <= 1 # 2) /\ (1 # 2) < 1)%Q) by (split; [discriminate|reflexivity]).
  split; [exact Hu|].
  exact (proj1 (proj2 final_resolution_outcomes) (1 # 2) Hu).
Defined.

Ltac count_leaf :=
  wcbn; cbn [count_text is_text] in *; unfold hit_text, miss_text in *; eval_eqb;
  cbn [Nat.add] in *; solve [ repeat split; lia ].

(** C7.  For every difficulty and every accuracy bonus, the hit chance of
    the shoot-center action before clamping is 50 + accuracyBonus − 5·d + 5;
    the chance rolled is that value clamped into 5..95: the shot is
    narrated as a hit exactly when the next variate is less than the
    double [rolled / 100.0], which is what [roll] compares it with, and as
    a miss otherwise. *)
Theorem shoot_center_hit_chance (difficulty enemy_hp : Z) (w : world) :
  let chance := 50 + accuracy_bonus (player w) - 5 * difficulty + 5 in
  let rolled := Z.max 5 (Z.min 95 chance) in
  let w' := final (cover_or_shoot difficulty 1 enemy_hp w) in
  base_hit_chance (accuracy_bonus (player w)) difficulty 1 = chance /\
  5 <= rolled <= 95 /\
  count_text hit_text (out (io w'))
  = (count_text hit_text (out (io w)) + if next_roll rolled w then 1 else 0)%nat /\
  count_text miss_text (out (io w'))
  = (count_text miss_text (out (io w)) + if next_roll rolled w then 0 else 1)%nat.
Proof.
  intros chance rolled w'.
  assert (Hc : base_hit_chance (accuracy_bonus (player w)) difficulty 1 = chance).
  { unfold base_hit_chance, chance. change (1 =? 1) with true. cbv iota zeta. lia. }
  split; [exact Hc|]. split; [unfold rolled; lia|].
  unfold w'.
  apply (@final_wp _ _ (fun s =>
    count_text hit_text (out (io s))
    = (count_text hit_text (out (io w)) + if next_roll rolled w then 1 else 0)%nat /\
    count_text miss_text (out (io s))
    = (count_text miss_text (out (io w)) + if next_roll rolled w then 0 else 1)%nat)).
  unfold cover_or_shoot. change (1 =? 3) with false. cbv iota.
  apply wp_bind, wp_get_player. cbv zeta. rewrite Hc. fold rolled.
  apply wp_bind, wp_roll_exact.
  destruct (next_roll rolled w); unfold enemy_counterattack, take_damage;
    ex_steps; count_leaf.
Qed.

Lemma shoot_center_hit_chance_witness :
  (rng (io at_the_edge) (cursor (io at_the_edge)) < 3 # 5)%Q /\
  base_hit_chance (accuracy_bonus (player at_the_edge)) 2 1 = 60 /\
  next_roll 60 at_the_edge = false /\
  count_text hit_text (out (io (final (cover_or_shoot 2 1 3 at_the_edge)))) = 0%nat /\
  count_text miss_text (out (io (final (cover_or_shoot 2 1 3 at_the_edge)))) = 1%nat.
Proof.
  pose proof (@shoot_center_hit_chance 2 3 at_the_edge) as H. cbv zeta in H.
  destruct H as (Hc & _ & Hh & Hm).
  split; [reflexivity|]. split; [exact Hc|].
  assert (Hr : next_roll 60 at_the_edge = false) by (vm_compute; reflexivity).
  split; [exact Hr|].
  change (Z.max 5 (Z.min 95 (50 + accuracy_bonus (player at_the_edge) - 5 * 2 + 5)))
    with 60 in Hh, Hm.
  rewrite Hr in Hh, Hm. split; [exact Hh|exact Hm].
Defined.

(** C8.  For every hp and every amount, healing sets hp to
    min(3, hp + amount), hence never above 3; the campaign summary prints
    max(0, hp) as the final hp, which is never negative. *)
Theorem heal_and_summary_clamp (amount : Z) (w : world) :
  hp (player (final (heal amount w))) = Z.min 3 (hp (player w) + amount) /\
  hp (player (final (heal amount w))) <= 3 /\
  out (io (final (summary w)))
  = Text "Thank you for playing Afghanistan War — Text Adventure!"
    :: Divider
    :: Text (if alive (player w) then "Status: SURVIVED" else "Status: DECEASED")
    :: SummaryInventory (inventory (player w))
    :: SummaryFinalHP (Z.max 0 (hp (player w)))
    :: SummaryMissions (missions_completed (player w))
    :: SummaryRole (role (player w))
    :: SummaryName (name (player w))
    :: Text "=== CAMPAIGN SUMMARY ==="
    :: Divider
    :: out (io w) /\
  0 <= Z.max 0 (hp (player w)).
Proof.
  repeat split.
  - cbn. lia.
  - unfold summary. destruct (alive (player w)) eqn:Ha; cbn; rewrite Ha; reflexivity.
  - lia.
Qed.

(** C9.  When the combat engine, one of the five encounters or the
    dispatcher returns [False], the player is dead; so is the player when
    the mission sequence returns [False].  The line of the orchestrator's
    branch for a failed mission that the player survived is never printed
    by a mission sequence: that branch is not reachable. *)
Theorem failure_means_death :
  (forall f, resolver f ->
     forall w w', f w = Done false w' -> alive (player w') = false) /\
  (forall missions w w',
     play_mission_sequence missions w = Done false w' -> alive (player w') = false) /\
  (forall missions w,
     count_text complications_text (out (io (final (play_mission_sequence missions w))))
     = count_text complications_text (out (io w))).
Proof.
  split; [|split].
  - intros f Hf w w' Hr.
    assert (H : fails_dead negb f).
    { destruct Hf; auto using combat_encounter_fails_dead,
        village_checkpoint_fails_dead, mountain_pass_fails_dead,
        abandoned_base_fails_dead, night_raze_fails_dead,
        convoy_ambush_fails_dead, encounter_menu_fails_dead. }
    specialize (H w). unfold wp in H. rewrite Hr in H. apply H. reflexivity.
  - intros missions w w' Hr.
    pose proof (play_mission_sequence_effect missions w) as H.
    rewrite Hr in H. exact H.
  - intros missions w.
    pose proof (mission_loop_effect (Z.to_nat missions) 1 missions w) as H.
    unfold play_mission_sequence, wp in *.
    destruct (mission_loop _ _ _ _); [apply H|exact H].
Qed.

Lemma failure_means_death_witness :
  resolver (combat_encounter 2) /\
  combat_encounter 2 under_fire = Done false (shot_dead under_fire) /\
  alive (player (shot_dead under_fire)) = false.
Proof.
  assert (Hr : combat_encounter 2 under_fire = Done false (shot_dead under_fire))
    by (vm_compute; reflexivity).
  split; [constructor|]. split; [exact Hr|].
  exact (proj1 failure_means_death (combat_encounter 2) (resolver_combat 2)
           under_fire (shot_dead under_fire) Hr).
Defined.

(** C10.  In every run of [main], every printed line that shows hit points
    shows a value from 0 to 3, and every damage line reports a loss of
    exactly 1.  However a campaign started by a fresh player ends, hp is
    between 0 and 3, at least 1 if the player is alive, and the clamp of
    the summary changes nothing.  A hit of [amount] lowers hp by [amount]
    and leaves the player alive only if hp stays above 0. *)
Theorem hp_stays_in_range :
  (forall rs ls, Forall hp_line_ok (out (final (main (start rs ls))))) /\
  (forall n r rs ls missions,
     let w' := final (campaign missions (fresh n r rs ls)) in
     0 <= hp (player w') <= 3 /\
     (if alive (player w') then 1 else 0) <= hp (player w') /\
     Z.max 0 (hp (player w')) = hp (player w') /\
     Forall hp_line_ok (out (io w'))) /\
  (forall amount w,
     let w' := final (take_damage amount w) in
     hp (player w') = hp (player w) - amount /\
     alive (player w') = alive (player w) && (0 <? hp (player w) - amount)).
Proof.
  split; [|split].
  - intros rs ls. apply main_log_ok.
  - intros n r rs ls missions w'.
    destruct (campaign_Inv n r rs ls missions) as (H1 & H2 & _ & _ & _ & H3).
    fold w' in H1, H2, H3. repeat split; try lia; auto.
    destruct (alive (player w')); [apply H2; reflexivity|lia].
  - intros amount w w'. unfold w', take_damage.
    cbv [bind update_player modify get_player gets slow_print ret].
    cbn [get_io put_io world_Console set_io set_player player io hp set_hp print].
    destruct (hp (player w) - amount <=? 0) eqn:Hle; cbn.
    + split; [reflexivity|].
      replace (0 <? hp (player w) - amount) with false; [now rewrite andb_false_r|].
      symmetry. apply Z.ltb_ge. apply Z.leb_le in Hle. lia.
    + split; [reflexivity|].
      replace (0 <? hp (player w) - amount) with true; [now rewrite andb_true_r|].
      symmetry. apply Z.ltb_lt. apply Z.leb_gt in Hle. lia.
Qed.

(* ================================================================== *)
(** * Further properties *)
(* ================================================================== *)

(** X1.  [main] ends.  With the typed lines of a finite input and
    variates in [0, 1), a run of [main] comes to its last line or is
    stopped by the input: by [EOFError] when the lines run out, by
    [ValueError] at a line of which [isdigit()] holds and which [int()]
    does not read.  No loop goes round without reading a line, and no list
    is indexed out of range. *)
Theorem main_total c :
  well_formed (rng c) ->
  wp main (fun _ _ => True) (fun e _ => from_input e) c.
Proof.
  intros Hw. pose proof intro_total. pose proof pick_role_total.
  unfold main. revert Hw. generalize c. tot_run.
  unfold with_player, wp.
  match goal with
  | |- context [main_body ?w0] =>
      pose proof (@main_body_total w0) as Hb; unfold wp in Hb;
      destruct (main_body w0); [exact I|apply Hb; tot_leaf]
  end.
Qed.

Lemma main_total_witness :
  well_formed (rng a_game) /\
  (exists c, main a_game = Done tt c /\ lines c = [] /\ cursor c = 3%nat) /\
  wp main (fun _ _ => True) (fun e _ => from_input e) a_game.
Proof.
  assert (H : well_formed (rng a_game)).
  { intros n. unfold a_game, start, source. cbn [rng].
    do 3 (destruct n as [|n]; [cbn [nth]; split; unfold Qle, Qlt; simpl; lia|]).
    destruct n; cbn [nth]; split; unfold Qle, Qlt; simpl; lia. }
  split; [exact H|]. split; [|apply main_total, H].
  eexists. split; [vm_compute; reflexivity|]. split; reflexivity.
Defined.

(** X2.  [choose] reads line after line.  A line that is not made of
    digits, or whose number is not between 1 and the number of options, is
    dropped; the first line whose number is in that range ends the loop,
    and [choose] returns that number less one.  A line of which
    [isdigit()] holds and which [int()] does not read stops it with
    [ValueError], and the end of the input with [EOFError].  In each case
    the lines up to that point are used up, the player is untouched and no
    variate is drawn. *)
Theorem choose_takes_first_valid_line (prompt : string) (options : list string) :
  reads_first same_player (choice_of (Z.of_nat (List.length options)))
    (choose (St := world) prompt options) /\
  (forall l, choice_of (Z.of_nat (List.length options)) l
             = if isdigit l then
                 match number l with
                 | Some i => if (1 <=? i) && (i <=? Z.of_nat (List.length options))
                             then Taken (i - 1) else Dropped
                 | None => Unread
                 end
               else Dropped).
Proof.
  split; [apply choose_reads_first|].
  intros l. unfold choice_of, number_in.
  destruct (isdigit l); [|reflexivity].
  destruct (number l) as [i|]; [|reflexivity].
  destruct (_ && _); reflexivity.
Qed.

(** X3.  When [choose] returns, the index it returns lies in
    [0 .. len(options) - 1], and the player, the random source and its
    position are as they were.  It can fail in two ways only: with
    [EOFError], all input read, or with [ValueError], at a typed line of
    which [isdigit()] holds and which [int()] does not read.  With an
    empty list of options no line is valid and [choose] never returns. *)
Theorem choose_answer_in_range :
  (forall prompt options (w : world),
     wp (choose prompt options)
        (fun a w' => 0 <= a < Z.of_nat (List.length options) /\
                     player w' = player w /\
                     rng (io w') = rng (io w) /\ cursor (io w') = cursor (io w))
        (fun e w' => (e = EOFError /\ lines (io w') = [] \/
                      e = ValueError /\
                      exists l, In l (lines (io w)) /\ isdigit l = true /\
                                number l = None) /\
                     player w' = player w /\
                     rng (io w') = rng (io w) /\ cursor (io w') = cursor (io w)) w) /\
  (forall prompt (w : world),
     wp (choose prompt []) (fun _ _ => False) (fun e _ => from_input e) w).
Proof.
  assert (Hu : forall n l, choice_of n l = Unread ->
                           isdigit l = true /\ number l = None).
  { intros n l. unfold choice_of, number_in.
    destruct (isdigit l); [|discriminate].
    destruct (number l); [destruct (_ && _); discriminate|auto]. }
  split.
  - intros prompt options w.
    apply wp_reads_first with (accept := choice_of (Z.of_nat (List.length options))).
    + apply choose_reads_first.
    + intros a w' [l Hl] (Hp & Hg & Hc). split; [eapply choice_of_range, Hl|].
      repeat split; assumption.
    + intros w' (Hp & Hg & Hc) Hl. split; [left; auto|]. repeat split; assumption.
    + intros w' (Hp & Hg & Hc) (l & Hl & Hr).
      split; [right; split; [reflexivity|]|repeat split; assumption].
      exists l. split; [exact Hl|]. eapply Hu, Hr.
  - intros prompt w.
    apply wp_reads_first with (accept := choice_of (Z.of_nat (@List.length string [])));
      [apply choose_reads_first| | |].
    + intros a w' [l Hl] _. apply choice_of_range in Hl. simpl in Hl. lia.
    + intros; left; reflexivity.
    + intros; right; reflexivity.
Qed.

(** X4.  [pick_role] reads line after line: a line that is not made of
    digits or whose number is not between 1 and 5 is dropped; the first
    line whose number is in that range ends the loop with the role of that
    number, in the order of the [ROLES] dictionary (1 Soldier, 2 Sniper,
    3 Medic, 4 Engineer, 5 Intelligence Officer).  A line of which
    [isdigit()] holds and which [int()] does not read stops it with
    [ValueError], the end of the input with [EOFError].  It draws no
    variate and never indexes the list of roles out of range. *)
Theorem pick_role_takes_first_valid_line :
  reads_first no_player role_of (pick_role (St := console)) /\
  (forall l, role_of l
             = if isdigit l then
                 match number l with
                 | Some i => if i =? 1 then Taken Soldier
                             else if i =? 2 then Taken Sniper
                             else if i =? 3 then Taken Medic
                             else if i =? 4 then Taken Engineer
                             else if i =? 5 then Taken Intelligence_Officer
                             else Dropped
                 | None => Unread
                 end
               else Dropped).
Proof.
  split; [exact pick_role_reads_first|].
  intros l. unfold role_of, number_in.
  destruct (isdigit l); [|reflexivity].
  destruct (number l) as [i|]; [|reflexivity].
  cbn [List.length role_names Z.of_nat Pos.of_succ_nat Pos.succ].
  destruct (Z.eqb_spec i 1) as [->|]; [reflexivity|].
  destruct (Z.eqb_spec i 2) as [->|]; [reflexivity|].
  destruct (Z.eqb_spec i 3) as [->|]; [reflexivity|].
  destruct (Z.eqb_spec i 4) as [->|]; [reflexivity|].
  destruct (Z.eqb_spec i 5) as [->|]; [reflexivity|].
  destruct ((1 <=? i) && (i <=? 5)) eqn:E; [|reflexivity].
  apply andb_true_iff in E. lia.
Qed.

(** X5.  The mission prompt of [main] reads line after line: an empty line
    stands for 3, a line whose number is between 1 and 10 for that number,
    and any other line is dropped, unless [isdigit()] holds of it and
    [int()] does not read it, which stops the prompt with [ValueError].
    So the number of missions is always between 1 and 10; neither the
    player nor the random source is touched; the prompt fails only with
    [EOFError], all input read, or with that [ValueError]. *)
Theorem ask_missions_between_1_and_10 :
  reads_first same_player missions_of (ask_missions (St := world)) /\
  (forall w : world,
     wp ask_missions
        (fun n w' => 1 <= n <= 10 /\ player w' = player w /\
                     rng (io w') = rng (io w) /\ cursor (io w') = cursor (io w))
        (fun e w' => e = EOFError /\ lines (io w') = [] \/ e = ValueError) w) /\
  (forall d k, missions_of {| text := ""; isdigit := d; number := k |} = Taken 3).
Proof.
  split; [exact ask_missions_reads_first|].
  split; [|reflexivity].
  intros w. apply wp_reads_first with (accept := missions_of).
  - apply ask_missions_reads_first.
  - intros a w' [l Hl] (Hp & Hg & Hc). split; [eapply missions_of_range, Hl|].
    repeat split; assumption.
  - intros w' _ Hl. left. split; [reflexivity|assumption].
  - intros w' _ _. right. reflexivity.
Qed.

(** X6.  [main] prints the introduction and reads the name; if
    [pick_role] then finds a role (the lines before the role line being
    dropped), [main] runs the rest of the game on [Player(name, role)],
    where an empty name line stands for "Player".  No variate is drawn
    before the player exists.  If [pick_role] finds no role, [main] ends
    as [pick_role] does: with [EOFError] at the end of the input, or with
    [ValueError] at a line that [int()] does not read.  With no line at
    all it ends with [EOFError] at the name prompt. *)
Theorem main_creates_the_player (rs : nat -> Q) :
  (forall l ls,
     match first_accepted role_of ls with
     | Some (r, rest) =>
         exists c,
           main (start rs (l :: ls))
           = with_player
               (Player_init (if String.eqb (text l) "" then "Player" else text l) r)
               main_body c /\
           rng c = rs /\ cursor c = O /\ lines c = rest
     | None =>
         exists c, main (start rs (l :: ls)) = Abort (fst (gives_up role_of ls)) c /\
                   cursor c = O /\ lines c = snd (gives_up role_of ls)
     end) /\
  (exists c, main (start rs []) = Abort EOFError c /\ cursor c = O /\
             List.length (out c) = 10%nat).
Proof.
  split; [|eexists; split; [reflexivity|]; split; reflexivity].
  intros l ls.
  set (c1 := final ((intro (St := console) ;; input "Enter your name, soldier: ")
                      (start rs (l :: ls)))).
  assert (E1 : main (start rs (l :: ls))
               = (role <- pick_role ;;
                  with_player
                    (Player_init (if String.eqb (text l) "" then "Player" else text l)
                       role) main_body) c1) by reflexivity.
  rewrite E1. unfold bind.
  pose proof (pick_role_reads_first c1) as H.
  change (lines (get_io c1)) with ls in H.
  destruct (first_accepted role_of ls) as [[r rest]|];
    destruct H as (c & -> & (_ & Hg & Hc) & Hl); exists c.
  - repeat split; assumption.
  - split; [reflexivity|]. split; assumption.
Qed.

(** X7.  Started with the player alive, the combat engine, each of the
    five encounters and the encounter menu return the value of
    [player.alive]: they answer [True] only with the player still alive
    (and [False] only with the player dead). *)
Theorem return_value_is_survival (w : world) :
  alive (player w) = true ->
  forall f, resolver f ->
    wp f (fun b w' => alive (player w') = b) (fun _ _ => True) w.
Proof.
  intros Hl f Hf. destruct Hf.
  - apply combat_encounter_tells_alive, Hl.
  - apply village_checkpoint_tells_alive, Hl.
  - apply mountain_pass_tells_alive, Hl.
  - apply abandoned_base_tells_alive, Hl.
  - apply night_raze_tells_alive, Hl.
  - apply convoy_ambush_tells_alive, Hl.
  - apply encounter_menu_tells_alive, Hl.
Qed.

Lemma return_value_is_survival_witness :
  alive (player at_the_pass) = true /\
  resolver mountain_pass /\
  wp mountain_pass (fun b w' => alive (player w') = b) (fun _ _ => True) at_the_pass.
Proof.
  split; [reflexivity|]. split; [constructor|].
  apply (@return_value_is_survival at_the_pass eq_refl), resolver_mountain_pass.
Defined.

(** X8.  For a player of any of the five roles and a difficulty from 1 to
    3 (the values the encounters pass), the hit chance computed for a shot
    lies between 25 and 65 whatever the action: the clamp to [5, 95] that
    follows never changes it. *)
Theorem hit_chance_never_clamped (n : string) (r : Role) (d a : Z) :
  1 <= d <= 3 ->
  let c := base_hit_chance (accuracy_bonus (Player_init n r)) d a in
  25 <= c <= 65 /\ Z.max 5 (Z.min 95 c) = c.
Proof.
  intros Hd. cbv zeta. unfold base_hit_chance.
  assert (Hb : -5 <= accuracy_bonus (Player_init n r) <= 15)
    by (destruct r; simpl; lia).
  destruct (a =? 1), (a =? 0), (a =? 2); lia.
Qed.

Lemma hit_chance_never_clamped_witness :
  1 <= 3 <= 3 /\
  let c := base_hit_chance (accuracy_bonus (Player_init "Alex" Sniper)) 3 1 in
  25 <= c <= 65 /\ Z.max 5 (Z.min 95 c) = c.
Proof.
  split; [lia|]. apply (@hit_chance_never_clamped "Alex" Sniper 3 1). lia.
Defined.

(** X9.  [roll(pct)] draws one variate and compares it with the double
    [pct / 100.0].  For a percentage from 0 to 100 that double is within
    2^-54 of [pct / 100]; it need not be [pct / 100]: [60 / 100.0] is
    5404319552844595 / 2^53, which is less than 3/5.  With the variate in
    [0, 1): a percentage of 0 never succeeds, a percentage of 100 always
    succeeds, and a roll that succeeds at some percentage from 0 to 100
    succeeds at every higher one up to 100. *)
Theorem roll_thresholds (w : world) :
  (0 <= rng (io w) (cursor (io w)) /\ rng (io w) (cursor (io w)) < 1)%Q ->
  (forall pct, roll pct w = Done (next_roll pct w) (set_io (advance (io w)) w)) /\
  (forall pct, 0 <= pct <= 100 ->
     next_roll pct w = Qltb (rng (io w) (cursor (io w))) (threshold pct) /\
     (threshold pct - inject_Z pct / inject_Z 100 <= 1 # 2 ^ 54)%Q /\
     (inject_Z pct / inject_Z 100 - threshold pct <= 1 # 2 ^ 54)%Q) /\
  (percent 60 = S754_finite false 5404319552844595 (-53) /\
   threshold 60 = 5404319552844595 # 9007199254740992 /\
   (threshold 60 < 3 # 5)%Q) /\
  next_roll 0 w = false /\
  next_roll 100 w = true /\
  (forall p q, 0 <= p <= q -> q <= 100 ->
               next_roll p w = true -> next_roll q w = true).
Proof.
  intros [H0 H1].
  split; [reflexivity|]. split; [|split; [|split; [|split]]].
  - intros pct Hp. split; [apply below_threshold, Hp|apply threshold_close, Hp].
  - split; [vm_compute; reflexivity|]. split; vm_compute; reflexivity.
  - unfold next_roll. rewrite below_threshold by lia.
    apply not_true_is_false. intros H. apply Qltb_lt in H.
    apply (Qlt_irrefl 0). eapply Qle_lt_trans; [exact H0|exact H].
  - unfold next_roll. rewrite below_threshold by lia.
    apply Qltb_lt. eapply Qlt_le_trans; [exact H1|].
    unfold Qle. vm_compute. discriminate.
  - intros p q Hp Hq. unfold next_roll. rewrite !below_threshold by lia.
    rewrite !Qltb_lt. intros H. eapply Qlt_le_trans; [exact H|].
    apply threshold_rises; assumption.
Qed.

Lemma roll_thresholds_witness :
  (0 <= rng (io at_the_edge) (cursor (io at_the_edge)) /\
   rng (io at_the_edge) (cursor (io at_the_edge)) < 1)%Q /\
  (rng (io at_the_edge) (cursor (io at_the_edge)) < 3 # 5)%Q /\
  roll 60 at_the_edge = Done false (set_io (advance (io at_the_edge)) at_the_edge) /\
  next_roll 0 at_the_edge = false /\
  next_roll 100 at_the_edge = true /\
  next_roll 61 at_the_edge = true /\
  next_roll 70 at_the_edge = true.
Proof.
  assert (H : (0 <= rng (io at_the_edge) (cursor (io at_the_edge)) /\
               rng (io at_the_edge) (cursor (io at_the_edge)) < 1)%Q)
    by (split; [discriminate|reflexivity]).
  destruct (@roll_thresholds at_the_edge H) as (Hr & _ & _ & H0 & H1 & H2).
  split; [exact H|]. split; [reflexivity|].
  split; [rewrite Hr; vm_compute; reflexivity|].
  split; [exact H0|]. split; [exact H1|].
  split; [vm_compute; reflexivity|]. apply (H2 61 70); [lia|lia|vm_compute; reflexivity].
Defined.

(** X10.  Over a mission sequence, and over a whole campaign, the count of
    completed missions goes up by one exactly when "Mission accomplished."
    is printed, never goes down, and goes up by at most the number of
    missions asked for.  For a new player the count at the end of the
    campaign is the number of "Mission accomplished." lines printed, and
    lies between 0 and the number of missions. *)
Theorem missions_are_accounted :
  (forall missions w,
     let w' := final (play_mission_sequence missions w) in
     tally w' = tally w /\
     missions_completed (player w) <= missions_completed (player w')
       <= missions_completed (player w) + Z.max 0 missions) /\
  (forall missions w,
     let w' := final (campaign missions w) in
     tally w' = tally w /\
     missions_completed (player w) <= missions_completed (player w')
       <= missions_completed (player w) + Z.max 0 missions) /\
  (forall n r rs ls missions,
     let w' := final (campaign missions (fresh n r rs ls)) in
     missions_completed (player w')
     = Z.of_nat (count_text accomplished_text (out (io w'))) /\
     0 <= missions_completed (player w') <= Z.max 0 missions).
Proof.
  assert (Hp : forall missions w,
             accounted (Z.max 0 missions) w (final (play_mission_sequence missions w))).
  { intros missions w. apply final_wp.
    eapply wp_mono; [apply play_mission_sequence_spec| |];
      cbv beta; intros ? ? H; apply H. }
  split; [|split].
  - intros missions w. destruct (Hp missions w) as (H1 & H2 & _). split; assumption.
  - intros missions w. destruct (campaign_accounted missions w) as (H1 & H2 & _).
    split; assumption.
  - intros n r rs ls missions.
    destruct (campaign_accounted missions (fresh n r rs ls)) as (H1 & H2 & _).
    cbv zeta. unfold tally in H1. cbn in H1, H2. lia.
Qed.

(** X11.  The line "Unknown mission type encountered" belongs to a branch
    of [encounter_menu] that a mission sequence never takes:
    [encounter_menu] called with an id outside [ENCOUNTERS] prints it and
    returns [True] without reading input or touching the player, but the
    ids drawn by [play_mission_sequence] all have a branch, so over a
    mission sequence and over a campaign the line is never printed. *)
Theorem unknown_mission_type_is_never_drawn :
  (forall e w,
     has_item e ENCOUNTERS = false ->
     wp (encounter_menu e)
        (fun b w' => b = true /\ player w' = player w /\
                     lines (io w') = lines (io w) /\
                     count_text unknown_text (out (io w'))
                     = S (count_text unknown_text (out (io w))))
        (fun _ _ => False) w) /\
  (forall missions w,
     count_text unknown_text (out (io (final (play_mission_sequence missions w))))
     = count_text unknown_text (out (io w))) /\
  (forall missions w,
     count_text unknown_text (out (io (final (campaign missions w))))
     = count_text unknown_text (out (io w))).
Proof.
  split; [|split].
  - intros e w He. unfold has_item, ENCOUNTERS in He. cbn [existsb] in He.
    repeat (apply orb_false_iff in He; destruct He as [? He]).
    unfold encounter_menu.
    repeat (wp_step idtac; wcbn); try congruence;
      cbn [count_text is_text]; unfold unknown_text; eval_eqb;
      repeat split; reflexivity.
  - intros missions w. apply final_wp.
    eapply wp_mono; [apply play_mission_sequence_spec| |];
      cbv beta; intros ? ? [(_ & _ & Hc) _]; exact Hc.
  - intros missions w. apply (campaign_accounted missions w).
Qed.

Lemma unknown_mission_type_is_never_drawn_witness :
  has_item "desert_patrol" ENCOUNTERS = false /\
  wp (encounter_menu "desert_patrol")
     (fun b w' => b = true /\ player w' = player under_fire /\
                  lines (io w') = lines (io under_fire) /\
                  count_text unknown_text (out (io w'))
                  = S (count_text unknown_text (out (io under_fire))))
     (fun _ _ => False) under_fire.
Proof.
  split; [reflexivity|].
  apply (proj1 unknown_mission_type_is_never_drawn "desert_patrol" under_fire).
  reflexivity.
Defined.

(** X12.  Only an Intelligence Officer ever holds an "Encrypted Radio": a
    new player holds one exactly when that is the role, no encounter and
    no loot hands one out, and none is ever removed.  So if it is so
    before a combat, an encounter, a mission sequence or a campaign, it is
    so afterwards, however the function ends. *)
Theorem radio_only_with_intelligence_officer :
  (forall n r rs ls, radio_with_intel (fresh n r rs ls)) /\
  (forall w, radio_with_intel w ->
     (forall d, radio_with_intel (final (combat_encounter d w))) /\
     (forall e, radio_with_intel (final (encounter_menu e w))) /\
     (forall missions, radio_with_intel (final (play_mission_sequence missions w))) /\
     (forall missions, radio_with_intel (final (campaign missions w)))).
Proof.
  split; [intros n r rs ls; destruct r; reflexivity|].
  intros w Hw. pose proof radio_console as HC. pose proof radio_gear as HG.
  repeat split; intros.
  - apply (kept_combat_encounter HC HG); [reflexivity|exact Hw].
  - apply (kept_encounter_menu HC HG); [reflexivity|exact Hw].
  - apply (kept_play_mission_sequence HC HG);
      [reflexivity|exact radio_completed|exact Hw].
  - apply (kept_campaign HC HG); [reflexivity|exact radio_completed|exact Hw].
Qed.

Lemma radio_only_with_intelligence_officer_witness :
  radio_with_intel fallen /\
  radio_with_intel (final (combat_encounter 2 fallen)) /\
  radio_with_intel (final (campaign 2 fallen)).
Proof.
  assert (H : radio_with_intel fallen) by reflexivity.
  destruct (proj2 radio_only_with_intelligence_officer fallen H) as (H1 & _ & _ & H4).
  split; [exact H|]. split; [apply H1|apply H4].
Defined.

(** X13.  Nothing but a Med Pack ever leaves the inventory.  Over a
    combat, an encounter, a mission sequence or a campaign the items other
    than Med Packs stay, in their order, and what is added behind them is
    one of the eight items the encounters and the combat loot hand out. *)
Theorem gear_only_grows :
  (forall d w, gear_grown w (final (combat_encounter d w))) /\
  (forall e w, gear_grown w (final (encounter_menu e w))) /\
  (forall missions w, gear_grown w (final (play_mission_sequence missions w))) /\
  (forall missions w, gear_grown w (final (campaign missions w))).
Proof.
  repeat split; intros;
    pose proof (grown_console w) as HC; pose proof (grown_gear w) as HG.
  - apply (kept_combat_encounter HC HG); [reflexivity|apply grown_refl].
  - apply (kept_encounter_menu HC HG); [reflexivity|apply grown_refl].
  - apply (kept_play_mission_sequence HC HG);
      [reflexivity|apply grown_completed|apply grown_refl].
  - apply (kept_campaign HC HG);
      [reflexivity|apply grown_completed|apply grown_refl].
Qed.

(** X14.  A round in which the player picks action 5, holds a Med Pack
    and is neither a Medic with a heal charge nor a Sniper with the
    special shot unused, against an enemy that still stands: the pack is
    used.  The first "Med Pack" leaves the inventory and the other items
    stay as they were; hit points go up by one but not above 3; the enemy
    is left alone and, standing, retaliates: exactly one variate is drawn,
    for [roll(40 + difficulty * 10)], and when that roll succeeds the
    player takes one point of damage, which kills at 0 hit points.  The
    round ends there, with the same enemy hit points, and the lines up to
    the chosen one are used up. *)
Theorem med_pack_is_consumed (d e r : Z) (w : world) (rest : list line) :
  1 <= d <= 3 ->
  0 < e ->
  role_eqb (role (player w)) Medic && (mission_heals (player w) >? 0) = false ->
  role_eqb (role (player w)) Sniper && negb (sniper_special_used (player w)) = false ->
  has_item "Med Pack" (inventory (player w)) = true ->
  first_accepted (choice_of 6) (lines (io w)) = Some (5, rest) ->
  wp (combat_round d e r)
     (fun res w' =>
        res = Next e /\
        hp (player w')
        = Z.min 3 (hp (player w) + 1) - (if next_roll (40 + d * 10) w then 1 else 0) /\
        alive (player w')
        = (if next_roll (40 + d * 10) w && (hp (player w') <=? 0)
           then false else alive (player w)) /\
        inventory (player w') = remove_item "Med Pack" (inventory (player w)) /\
        (List.length (inventory (player w')) + 1
         = List.length (inventory (player w)))%nat /\
        lasting (inventory (player w')) = lasting (inventory (player w)) /\
        mission_heals (player w') = mission_heals (player w) /\
        sniper_special_used (player w') = sniper_special_used (player w) /\
        rng (io w') = rng (io w) /\ cursor (io w') = S (cursor (io w)) /\
        lines (io w') = rest)
     (fun _ _ => False) w.
Proof.
  intros Hd He Hm Hs Hp Hf.
  unfold combat_round, show_status, use_special, heal, take_damage.
  exact_run.
  all: unfold next_roll in *; wcbn.
  all: repeat match goal with
              | H : rng ?c = _ |- _ => rewrite H in *; clear H
              | H : cursor ?c = _ |- _ => rewrite H in *; clear H
              end.
  all: repeat match goal with
              | H : below ?u ?x = _ |- _ => rewrite H in *
              end.
  all: cbn [andb].
  all: repeat match goal with
              | H : (_ <=? _) = _ |- _ => rewrite H
              end.
  all: repeat split; auto using remove_item_length, lasting_remove; try lia.
Qed.

Lemma med_pack_is_consumed_witness :
  (exists w', combat_round 2 2 1 with_pack = Done (Next 2) w' /\
              hp (player w') = 1 /\ cursor (io w') = 1%nat /\
              inventory (player w') = ["Standard Rifle"; "Combat Knife"]) /\
  wp (combat_round 2 2 1)
     (fun res w' =>
        res = Next 2 /\
        hp (player w')
        = Z.min 3 (hp (player with_pack) + 1)
          - (if next_roll (40 + 2 * 10) with_pack then 1 else 0) /\
        alive (player w')
        = (if next_roll (40 + 2 * 10) with_pack && (hp (player w') <=? 0)
           then false else alive (player with_pack)) /\
        inventory (player w') = remove_item "Med Pack" (inventory (player with_pack)) /\
        (List.length (inventory (player w')) + 1
         = List.length (inventory (player with_pack)))%nat /\
        lasting (inventory (player w')) = lasting (inventory (player with_pack)) /\
        mission_heals (player w') = mission_heals (player with_pack) /\
        sniper_special_used (player w') = sniper_special_used (player with_pack) /\
        rng (io w') = rng (io with_pack) /\
        cursor (io w') = S (cursor (io with_pack)) /\
        lines (io w') = [])
     (fun _ _ => False) with_pack.
Proof.
  split.
  - eexists. split; [vm_compute; reflexivity|]. repeat split.
  - apply (@med_pack_is_consumed 2 2 1 with_pack []); try reflexivity; lia.
Defined.

(** X15.  A Sniper whose special shot is unused and who picks action 5:
    the round ends with the enemy at 0 hit points whatever they were, the
    shot is marked used and nothing else about the player changes, the
    enemy gets no shot back, and no variate is drawn. *)
Theorem sniper_shot_ends_the_round (d e r : Z) (w : world) (rest : list line) :
  role (player w) = Sniper ->
  sniper_special_used (player w) = false ->
  first_accepted (choice_of 6) (lines (io w)) = Some (5, rest) ->
  wp (combat_round d e r)
     (fun res w' => res = Next 0 /\
                    player w' = set_sniper_special_used true (player w) /\
                    rng (io w') = rng (io w) /\ cursor (io w') = cursor (io w) /\
                    lines (io w') = rest)
     (fun _ _ => False) w.
Proof.
  intros Hr Hu Hf. unfold combat_round, show_status, use_special.
  sure_run; try (rewrite Hr, ?Hu in *; discriminate).
  repeat split; assumption.
Qed.

Lemma sniper_shot_ends_the_round_witness :
  wp (combat_round 3 3 1)
     (fun res w' => res = Next 0 /\
                    player w' = set_sniper_special_used true (player a_sniper) /\
                    rng (io w') = rng (io a_sniper) /\
                    cursor (io w') = cursor (io a_sniper) /\
                    lines (io w') = [])
     (fun _ _ => False) a_sniper.
Proof.
  apply (@sniper_shot_ends_the_round 3 3 1 a_sniper []); reflexivity.
Defined.

(** X16.  The options that cannot fail.  "Check perimeter and move on" at
    the abandoned base, for any player; for an Intelligence Officer,
    talking at the village checkpoint, scouting by radio at the mountain
    pass and calling the airstrike at the convoy; for an Intelligence
    Officer or a Sniper, the stealth team of the night raid.  Each answers
    [True] without a roll: no variate is drawn, the player is as before
    but for the item found, and there is no combat. *)
Theorem sure_options (w : world) (rest : list line) :
  (first_accepted (choice_of 3) (lines (io w)) = Some (1, rest) ->
   wp abandoned_base (risk_free rest (Some "Handful of Ammo") w) (fun _ _ => False) w) /\
  (role (player w) = Intelligence_Officer ->
   first_accepted (choice_of 3) (lines (io w)) = Some (0, rest) ->
   wp village_checkpoint (risk_free rest (Some "Med Pack") w) (fun _ _ => False) w) /\
  (role (player w) = Intelligence_Officer ->
   first_accepted (choice_of 3) (lines (io w)) = Some (1, rest) ->
   wp mountain_pass (risk_free rest None w) (fun _ _ => False) w) /\
  (role (player w) = Intelligence_Officer \/ role (player w) = Sniper ->
   first_accepted (choice_of 3) (lines (io w)) = Some (1, rest) ->
   wp night_raze (risk_free rest (Some "Intel Documents") w) (fun _ _ => False) w) /\
  (role (player w) = Intelligence_Officer ->
   first_accepted (choice_of 3) (lines (io w)) = Some (2, rest) ->
   wp convoy_ambush (risk_free rest None w) (fun _ _ => False) w).
Proof.
  repeat apply conj.
  - intros Hf. unfold abandoned_base, inventory_append, risk_free. sure_run.
    repeat split; assumption.
  - intros Hr Hf. unfold village_checkpoint, inventory_append, risk_free.
    sure_run; try (rewrite Hr in *; discriminate).
    repeat split; assumption.
  - intros Hr Hf. unfold mountain_pass, inventory_append, risk_free.
    sure_run; try (rewrite Hr in *; discriminate).
    repeat split; assumption.
  - intros Hr Hf. unfold night_raze, inventory_append, risk_free.
    sure_run; try (destruct Hr as [Hr|Hr]; rewrite Hr in *; discriminate).
    repeat split; assumption.
  - intros Hr Hf. unfold convoy_ambush, inventory_append, risk_free.
    sure_run; try (rewrite Hr in *; discriminate).
    repeat split; assumption.
Qed.

Lemma sure_options_witness :
  wp abandoned_base (risk_free [] (Some "Handful of Ammo") at_the_base)
     (fun _ _ => False) at_the_base /\
  wp night_raze (risk_free [] (Some "Intel Documents") at_night)
     (fun _ _ => False) at_night.
Proof.
  split.
  - apply (proj1 (@sure_options at_the_base [])). reflexivity.
  - apply (proj1 (proj2 (proj2 (proj2 (@sure_options at_night []))))).
    + right. reflexivity.
    + reflexivity.
Defined.

(** X17.  How a campaign closes.  Started with none of the five closing
    lines printed, a campaign that runs to its end prints exactly one of
    "GAME OVER", "CONGRATULATIONS" and "You did not survive the
    extraction", each at most once, and one status line that agrees with
    it and with [player.alive]: "Status: SURVIVED" with the
    congratulations and the player alive, "Status: DECEASED" with the two
    others and the player dead.  A campaign cut short by the end of the
    input prints none of the five. *)
Theorem campaign_closes_once (missions : Z) (w : world) :
  closing w = [0; 0; 0; 0; 0]%nat ->
  wp (campaign missions)
     (fun _ w' =>
        (closing w' = [1; 0; 0; 0; 1]%nat /\ alive (player w') = false) \/
        (closing w' = [0; 1; 0; 1; 0]%nat /\ alive (player w') = true) \/
        (closing w' = [0; 0; 1; 0; 1]%nat /\ alive (player w') = false))
     (fun _ w' => closing w' = [0; 0; 0; 0; 0]%nat) w.
Proof.
  intros H0.
  pose proof play_mission_sequence_spec.
  unfold campaign, final_resolution, resolve, summary.
  ex_steps; closing_leaf;
    first [ left; solve [repeat split; (congruence || lia)]
          | right; left; solve [repeat split; (congruence || lia)]
          | right; right; solve [repeat split; (congruence || lia)] ].
Qed.

Lemma campaign_closes_once_witness :
  closing at_the_checkpoint = [0; 0; 0; 0; 0]%nat /\
  closing (final (campaign 1 at_the_checkpoint)) = [1; 0; 0; 0; 1]%nat /\
  wp (campaign 1)
     (fun _ w' =>
        (closing w' = [1; 0; 0; 0; 1]%nat /\ alive (player w') = false) \/
        (closing w' = [0; 1; 0; 1; 0]%nat /\ alive (player w') = true) \/
        (closing w' = [0; 0; 1; 0; 1]%nat /\ alive (player w') = false))
     (fun _ w' => closing w' = [0; 0; 0; 0; 0]%nat) at_the_checkpoint.
Proof.
  split; [reflexivity|]. split; [vm_compute; reflexivity|].
  apply (@campaign_closes_once 1 at_the_checkpoint). reflexivity.
Defined.

(** X18.  A combat round costs at most one hit point.  Taking cover or
    shooting, with the enemy's answer, takes at most one hit point and
    gives none; a whole round, whatever the action, takes at most one and,
    for a player with at most 3 hit points, gives at most one (the heal of
    action 5).  This holds also for a round cut short by the end of the
    input. *)
Theorem a_round_costs_at_most_one_hit_point (d e r : Z) (w : world) :
  (forall a, wp (cover_or_shoot d a e) (fun _ w' => hp_moved 1 0 w w')
                (fun _ w' => hp_moved 1 0 w w') w) /\
  (hp (player w) <= 3 ->
   wp (combat_round d e r) (fun _ w' => hp_moved 1 1 w w')
      (fun _ w' => hp_moved 1 1 w w') w).
Proof.
  split; [intros a; apply cover_or_shoot_hp|].
  intros Hw. pose proof cover_or_shoot_hp. pose proof use_special_hp.
  unfold combat_round, show_status, take_damage. hp_run.
Qed.

Lemma a_round_costs_at_most_one_hit_point_witness :
  hp (player in_a_combat) <= 3 /\
  wp (combat_round 2 2 1) (fun _ w' => hp_moved 1 1 in_a_combat w')
     (fun _ w' => hp_moved 1 1 in_a_combat w') in_a_combat.
Proof.
  split; [simpl; lia|].
  apply (proj2 (@a_round_costs_at_most_one_hit_point 2 2 1 in_a_combat)).
  simpl. lia.
Defined.

